(** * Quantopian-Algo: a shallow embedding of the four strategy scripts

  The repository holds four trading strategies written against the
  Quantopian / zipline pipeline API:

  - [ValueLongOnly]  <- Code/My_Value_Long_only_Algo.py
  - [MagicFormula]   <- Code/My_Magic_Formula.py
  - [BlackCat]       <- Code/Developed on Black_Cat_Acquirer_Multiple.py
  - [Piotroski]      <- Code/Developed on Guy_Fleury_Piotroski-F-Score.py

  Conventions of the embedding.

  - A Python/numpy [float64] is a [spec_float] of the binary64 format
    (53 bits of precision, exponent bound 1024) with the IEEE-754
    operations of [SpecFloat]; NaN, the infinities and the signed zeros
    are values of that type and rounding is to nearest even.
  - A numpy array is a list (1-D) or a list of rows (2-D, time x security).
    Arrays that Python passes by reference live in a [heap] of locations.
  - A Python exception is the result [None] of a function into [option].
  - A dict is a [gmap]; a pandas index or frame is a list of labels / rows.
  - [print] and [record] calls produce no value the strategies read back
    and are left out. *)

From Stdlib Require Import ZArith List Bool Lia Permutation Sorted.
From Stdlib Require Import Floats.SpecFloat.
From stdpp Require Import base option gmap list.
Import ListNotations.

Open Scope Z_scope.

(** ** Binary64 floating point *)

Module Float64.

Definition float : Type := spec_float.

Definition prec : Z := 53.
Definition emax : Z := 1024.

Definition nan : float := S754_nan.
Definition pos_inf : float := S754_infinity false.
Definition neg_inf : float := S754_infinity true.
Definition zero : float := S754_zero false.

Definition fadd : float -> float -> float := SFadd prec emax.
Definition fmul : float -> float -> float := SFmul prec emax.
Definition fdiv : float -> float -> float := SFdiv prec emax.

(** [x < y], [x <= y], [x > y]: false as soon as an operand is NaN. *)
Definition fltb (x y : float) : bool := SFltb x y.
Definition fleb (x y : float) : bool := SFleb x y.
Definition fgtb (x y : float) : bool := SFltb y x.

Definition isnan (x : float) : bool :=
  match x with S754_nan => true | _ => false end.

Definition is_zero (x : float) : bool :=
  match x with S754_zero _ => true | _ => false end.

(** [float(n)] for an integer [n]: the nearest double. *)
Definition of_Z (n : Z) : float := binary_normalize prec emax n 0 false.

(** The decimal literal [n / 10^k]: the double nearest to the quotient
    (both operands are exact for the literals used here). *)
Definition decimal (n : Z) (k : nat) : float :=
  fdiv (of_Z n) (of_Z (10 ^ Z.of_nat k)).

(** Python's builtin [sum] over floats, also the order in which a short
    numpy [.sum()] accumulates: left to right from zero. *)
Definition fsum (l : list float) : float := fold_left fadd l zero.

End Float64.

Import Float64.

(** A security is identified by its integer sid. *)
Definition security : Type := nat.

(** ** The numpy operations the scripts use *)

Module Numpy.

(** [np.isnan(a)] on one axis. *)
Definition np_isnan (a : list float) : list bool := isnan <$> a.

(** [np.arange(n)]. *)
Definition arange (n : nat) : list nat := seq 0 n.

(** [np.where(c, x, y)] for one axis, [y] a scalar. *)
Definition np_where {A} (c : list bool) (x : list A) (y : A) : list A :=
  zip_with (fun (b : bool) v => if b then v else y) c x.

(** [np.maximum.accumulate] along one axis: running maximum. *)
Fixpoint running_max (acc : nat) (l : list nat) : list nat :=
  match l with
  | [] => []
  | x :: t => Nat.max acc x :: running_max (Nat.max acc x) t
  end.

Definition maximum_accumulate (l : list nat) : list nat :=
  match l with
  | [] => []
  | x :: t => x :: running_max x t
  end.

(** [a[m]] for a boolean mask [m] over one axis. *)
Fixpoint bool_index {A} (a : list A) (m : list bool) : list A :=
  match a, m with
  | x :: a', b :: m' =>
      if b then x :: bool_index a' m' else bool_index a' m'
  | _, _ => []
  end.

(** [np.nonzero(m)] for one axis: the positions of the [True] entries. *)
Definition nonzero1 (m : list bool) : list nat :=
  bool_index (arange (length m)) m.

(** [np.nonzero(mask)] of a 2-D mask: the coordinates of the [True]
    cells in row-major order; [np.nonzero(mask)[0]] is their first
    components. *)
Definition nonzero2 (mask : list (list bool)) : list (nat * nat) :=
  concat (imap (fun i mr => (fun j => (i, j)) <$> nonzero1 mr) mask).

(** [a[mask]] for a 2-D array and a 2-D mask: the selected cells in
    row-major order. *)
Definition bool_index2 {A} (a : list (list A)) (mask : list (list bool))
  : list A :=
  concat (zip_with bool_index a mask).

(** [a[rows, cols]]: integer-array indexing of a 2-D array; raises
    [IndexError] when the two index arrays differ in length or a
    coordinate is out of bounds.  The result is a fresh array. *)
Definition int_index2 {A} (a : list (list A)) (rows cols : list nat)
  : option (list A) :=
  if decide (length rows = length cols)
  then mapM (fun ij : nat * nat => a !! ij.1 ≫= (.!! ij.2)) (zip rows cols)
  else None.

(** [row[m] = rhs] on one axis: the masked cells take the successive
    values of [rhs]; returns the new row and the unused values, [None]
    when [rhs] runs out. *)
Fixpoint put_mask {A} (row : list A) (m : list bool) (rhs : list A)
  : option (list A * list A) :=
  match row, m with
  | x :: row', b :: m' =>
      if b then
        match rhs with
        | v :: rhs' =>
            '(r, rest) ← put_mask row' m' rhs'; Some (v :: r, rest)
        | [] => None
        end
      else '(r, rest) ← put_mask row' m' rhs; Some (x :: r, rest)
  | _, _ => Some (row, rhs)
  end.

(** [a[mask] = rhs] for a 2-D array: the masked cells, in row-major
    order, take the values of [rhs]; raises [ValueError] unless [rhs]
    has exactly one value per masked cell. *)
Fixpoint put_mask2_from {A} (a : list (list A)) (mask : list (list bool))
    (rhs : list A) : option (list (list A)) :=
  match a, mask with
  | row :: a', mr :: mask' =>
      '(r, rest) ← put_mask row mr rhs;
      t ← put_mask2_from a' mask' rest;
      Some (r :: t)
  | _, _ => match rhs with [] => Some a | _ => None end
  end.

(** [a.sum()] of a 1-D float64 array.  The reduction starts from 0.0 and
    adds to it what numpy's [pairwise_sum] returns:
<<
    if (n < 8) {
        res = 0.;
        for (i = 0; i < n; i++) res += a[i];
        return res;
    }
    else if (n <= PW_BLOCKSIZE) {
        r[0..7] = a[0..7];
        for (i = 8; i < n - (n % 8); i += 8) r[j] += a[i + j];   (j = 0..7)
        res = ((r[0] + r[1]) + (r[2] + r[3])) +
              ((r[4] + r[5]) + (r[6] + r[7]));
        for (; i < n; i++) res += a[i];
        return res;
    }
    else {
        n2 = n / 2;  n2 -= n2 % 8;
        return pairwise_sum(a, n2) + pairwise_sum(a + n2, n - n2);
    }
>> *)
Definition PW_BLOCKSIZE : nat := 128.

(** The eight accumulators [r], and the part of the array not yet read,
    after [k] more blocks of 8. *)
Fixpoint add_blocks (k : nat) (r a : list float) : list float * list float :=
  match k with
  | O => (r, a)
  | S k' => add_blocks k' (zip_with fadd r (take 8 a)) (drop 8 a)
  end.

(** The second branch, for [8 <= n <= PW_BLOCKSIZE]. *)
Definition unrolled_sum (a : list float) : float :=
  let '(r, rest) :=
    add_blocks (length a / 8 - 1) (take 8 a) (drop 8 a) in
  let r_ (j : nat) := default zero (r !! j) in
  fold_left fadd rest
    (fadd (fadd (fadd (r_ 0%nat) (r_ 1%nat)) (fadd (r_ 2%nat) (r_ 3%nat)))
       (fadd (fadd (r_ 4%nat) (r_ 5%nat)) (fadd (r_ 6%nat) (r_ 7%nat)))).

(** [pairwise_sum]; each recursive call is on a shorter array, so [fuel]
    as large as the length is never used up ([pairwise_sum_equation]). *)
Fixpoint pairwise_sum_rec (fuel : nat) (a : list float) : float :=
  let n := length a in
  if (n <? 8)%nat then fold_left fadd a zero
  else if (n <=? PW_BLOCKSIZE)%nat then unrolled_sum a
  else
    match fuel with
    | O => nan
    | S fuel' =>
        let n2 := (n / 2)%nat in
        let n2 := (n2 - n2 mod 8)%nat in
        fadd (pairwise_sum_rec fuel' (take n2 a))
          (pairwise_sum_rec fuel' (drop n2 a))
    end.

Definition pairwise_sum (a : list float) : float :=
  pairwise_sum_rec (length a) a.

Definition np_sum (a : list float) : float := fadd zero (pairwise_sum a).

(** [a.shape[1]] of a 2-D array given as its rows. *)
Definition shape1 {A} (a : list (list A)) : nat :=
  match a with
  | r :: _ => length r
  | [] => 0%nat
  end.

(** A 2-D array has rows of one length. *)
Definition rectangular {A} (n : nat) (a : list (list A)) : Prop :=
  Forall (fun r => length r = n) a.

End Numpy.

Import Numpy.

(** ** Arrays passed by reference *)

Module Heap.

(** The arrays a factor's [compute] receives: 1-D ([out]) or 2-D
    (an input window, time x security). *)
Inductive ndarray : Type :=
| Arr1 (a : list float)
| Arr2 (a : list (list float)).

Definition loc : Type := nat.

Abbreviation heap := (gmap loc ndarray).

(** [out[:] = v] for a 1-D [out]: [v] must have [out]'s shape, leading
    axes of length one being dropped by numpy's assignment. *)
Definition assign_all (out : loc) (v : ndarray) (h : heap) : option heap :=
  match h !! out with
  | Some (Arr1 o) =>
      let src := match v with
                 | Arr1 r => Some r
                 | Arr2 [r] => Some r
                 | Arr2 _ => None
                 end in
      r ← src;
      if decide (length r = length o) then Some (<[out := Arr1 r]> h)
      else None
  | _ => None
  end.

End Heap.

Import Heap.

(** ** Python numbers and the platform's order calls *)

Module Python.

(** A Python number: the scripts mix the [int] literal [0] with floats. *)
Inductive pynum : Type :=
| PyInt (n : Z)
| PyFloat (x : float).

Definition to_float (v : pynum) : float :=
  match v with
  | PyInt n => of_Z n
  | PyFloat x => x
  end.

(** [a / b] on Python floats: [ZeroDivisionError] on a zero divisor
    (numpy's array division, [fdiv], never raises). *)
Definition py_truediv (a b : float) : option float :=
  if is_zero b then None else Some (fdiv a b).

(** [v > x] for a number [v] and a float [x]. *)
Definition py_gt (v : pynum) (x : float) : bool := fgtb (to_float v) x.

(** The order calls of the platform, in the order they are placed. *)
Inductive order : Type :=
| OrderTargetPercent (s : security) (w : pynum)
| OrderTarget (s : security) (shares : Z).

Definition order_security (o : order) : security :=
  match o with
  | OrderTargetPercent s _ => s
  | OrderTarget s _ => s
  end.

End Python.

Import Python.

(** ** The pandas operations the scripts use on the pipeline output *)

Module Pandas.

(** Insertion into a list sorted by [le]; an element goes before the
    first one that is not below it. *)
Fixpoint insert_by {A} (le : A -> A -> bool) (x : A) (l : list A) : list A :=
  match l with
  | [] => [x]
  | y :: t => if le x y then x :: l else y :: insert_by le x t
  end.

(** A sort by [le] that keeps rows of equal key in frame order. *)
Definition sort_by {A} (le : A -> A -> bool) (l : list A) : list A :=
  foldr (insert_by le) [] l.

(** [frame.sort_values(key, ascending=...)] on a float column: rows with
    a NaN key go last, in frame order, whatever the direction; the others
    are sorted by key.  A descending sort reverses, sorts ascending and
    reverses again.  pandas' default sort algorithm leaves the order of
    rows of equal key unspecified; here they keep frame order. *)
Definition sort_values {A} (key : A -> float) (ascending : bool)
    (frame : list A) : list A :=
  let le x y := fleb (key x) (key y) in
  let present := List.filter (fun r => negb (isnan (key r))) frame in
  let missing := List.filter (fun r => isnan (key r)) frame in
  (if ascending then sort_by le present
   else rev (sort_by le (rev present))) ++ missing.

(** [frame.sort_values(key, ascending=...)] on an integer-valued column
    (no missing values).  pandas sorts with numpy's quicksort, which is
    not stable: the result holds the rows of the frame in the order of
    their keys, and which of two rows of equal key comes first depends on
    the algorithm.  The sort is therefore a parameter of the callbacks
    that call it, [sort key ascending frame], of which only
    [sorts_values] is known. *)
Definition frame_sort (A : Type) : Type :=
  (A -> Z) -> bool -> list A -> list A.

Definition in_key_order {A} (key : A -> Z) (ascending : bool) (x y : A)
  : Prop :=
  if ascending then key x <= key y else key y <= key x.

Definition sorts_values {A} (sort : frame_sort A) : Prop :=
  forall key ascending frame,
    Permutation (sort key ascending frame) frame
    /\ StronglySorted (in_key_order key ascending) (sort key ascending frame).

(** One such sort, used for examples: insertion sort, which keeps rows of
    equal key in frame order (a descending sort reverses, sorts ascending
    and reverses again). *)
Definition insertion_sort_values {A} : frame_sort A :=
  fun key ascending frame =>
    let le x y := Z.leb (key x) (key y) in
    if ascending then sort_by le frame else rev (sort_by le (rev frame)).

(** [frame.head(n)] and [frame.iloc[:n]]. *)
Definition head {A} (n : nat) (frame : list A) : list A := take n frame.

(** [frame.dropna()]: the rows without a NaN in any column. *)
Definition dropna {A} (columns : A -> list float) (frame : list A) : list A :=
  List.filter (fun r => forallb (fun x => negb (isnan x)) (columns r)) frame.

End Pandas.

Import Pandas.

(** ** Code/My_Value_Long_only_Algo.py *)

Module ValueLongOnly.

(** *** [nanfill] (lines 279-284) *)

(** The value [nanfill] leaves in the array it is given:
<<
    mask = np.isnan(arr)
    idx  = np.where(~mask,np.arange(mask.shape[1]),0)
    np.maximum.accumulate(idx,axis=1, out=idx)
    arr[mask] = arr[np.nonzero(mask)[0], idx[mask]]
>>
    The right-hand side is evaluated (to a fresh array) before the
    assignment. *)
Definition nanfill_array (arr : list (list float))
  : option (list (list float)) :=
  let mask := np_isnan <$> arr in
  let idx :=
    (fun mr => np_where (negb <$> mr) (arange (shape1 mask)) 0%nat)
      <$> mask in
  let idx := maximum_accumulate <$> idx in
  rhs ← int_index2 arr ((fst <$> nonzero2 mask)) (bool_index2 idx mask);
  put_mask2_from arr mask rhs.

(** [nanfill(arr)]: the array object [arr] is updated in the heap and
    the same object is returned ([return arr]). *)
Definition nanfill (arr : loc) (h : heap) : option (loc * heap) :=
  match h !! arr with
  | Some (Arr2 a) =>
      a' ← nanfill_array a;
      Some (arr, <[arr := Arr2 a']> h)
  | _ => None
  end.

(** *** The factors that call [nanfill] (lines 192-263)

    Each [compute] receives its window and [out] by reference. *)

(** [Price_to_Book.compute]: [pb = nanfill(pb); out[:] = pb]. *)
Definition Price_to_Book_compute (out pb : loc) (h : heap) : option heap :=
  '(pb, h) ← nanfill pb h;
  v ← h !! pb;
  assign_all out v h.

(** [Price_to_Earnings.compute]: [pe = nanfill(pe); out[:] = pe]. *)
Definition Price_to_Earnings_compute (out pe : loc) (h : heap)
  : option heap :=
  '(pe, h) ← nanfill pe h;
  v ← h !! pe;
  assign_all out v h.

(** [Return_on_Assets.compute]: [roa = nanfill(roa); out[:] = roa]. *)
Definition Return_on_Assets_compute (out roa : loc) (h : heap)
  : option heap :=
  '(roa, h) ← nanfill roa h;
  v ← h !! roa;
  assign_all out v h.

(** [Return_on_Equity.compute]: [roe = nanfill(roe); out[:] = roe[-1]]. *)
Definition Return_on_Equity_compute (out roe : loc) (h : heap)
  : option heap :=
  '(roe, h) ← nanfill roe h;
  v ← h !! roe;
  match v with
  | Arr2 a => r ← last a; assign_all out (Arr1 r) h
  | Arr1 _ => None
  end.

(** [Return_on_Invested_Capital.compute]:
    [roic = nanfill(roic); out[:] = roic]. *)
Definition Return_on_Invested_Capital_compute (out roic : loc) (h : heap)
  : option heap :=
  '(roic, h) ← nanfill roic h;
  v ← h !! roic;
  assign_all out v h.

(** [Dividend_Yield.compute]: [dy = nanfill(d_y); out[:] = dy]. *)
Definition Dividend_Yield_compute (out d_y : loc) (h : heap) : option heap :=
  '(dy, h) ← nanfill d_y h;
  v ← h !! dy;
  assign_all out v h.

(** *** [Earnings_Yield] (lines 267-273) *)

(** [a / b] on two 1-D arrays: element by element, IEEE division; the
    only failure is a mismatch of shapes. *)
Definition np_divide (a b : list float) : option (list float) :=
  if decide (length a = length b) then Some (zip_with fdiv a b) else None.

(** What [Earnings_Yield.compute] writes to [out]:
    [ey = ebit[-1] / ev[-1]; out[:] = ey]. *)
Definition Earnings_Yield_compute (ebit ev : list (list float))
  : option (list float) :=
  n ← last ebit;
  d ← last ev;
  np_divide n d.

(** *** Constraint parameters (lines 20-21) *)

Definition MAX_GROSS_LEVERAGE : float := of_Z 1.
Definition MAX_LONG_POSITION_SIZE : float := decimal 4 2.

(** *** [make_pipeline] (lines 52-102)

    The pipeline is evaluated by the platform over the day's assets; a
    term is one value per asset.  The platform's [rank] is a parameter:
    [rank ascending mask data]. *)

Record row : Type := { sec : security; ranking_score : float }.

Definition row_columns (r : row) : list float := [ranking_score r].

(** [(pb_rank+pe_rank+dy_rank+roa_rank+roe_rank+roic_rank*2 + EY_rank)/8]. *)
Definition the_ranking_score
    (rank : bool -> list bool -> list float -> list float)
    (universe : list bool) (pb pe dy roa roe roic ey : list float)
  : list float :=
  let pb_rank := rank true universe pb in
  let pe_rank := rank true universe pe in
  let roa_rank := rank false universe roa in
  let roe_rank := rank false universe roe in
  let roic_rank := rank false universe roic in
  let EY_rank := rank false universe ey in
  let dy_rank := rank false universe dy in
  let add := zip_with fadd in
  (fun x => fdiv x (of_Z 8))
    <$> add (add (add (add (add (add pb_rank pe_rank) dy_rank) roa_rank)
                    roe_rank)
               ((fun x => fmul x (of_Z 2)) <$> roic_rank))
          EY_rank.

(** The frame [pipeline_output('filtered_top_stocks')] returns: one row
    per asset passing the screen
    [universe & volatility_rank.top(600) & (momentum > 1)], with the
    column ['ranking_score'] = [the_ranking_score.rank(mask=universe)].
    [universe] and [volatility_top] are the platform's values, per asset,
    of the filters [MarketCap().top(2000, mask = QTradableStocksUS()) &
    Sector().notnull()] and [volatility_rank.top(600)], where
    [volatility_rank = volatility.rank(mask=universe, ascending=True)];
    the float arguments are what the factors' [compute] wrote to
    [out]. *)
Definition pipeline_output
    (rank : bool -> list bool -> list float -> list float)
    (assets : list security) (universe volatility_top : list bool)
    (momentum pb pe dy roa roe roic ey : list float) : list row :=
  let score :=
    rank true universe
      (the_ranking_score rank universe pb pe dy roa roe roic ey) in
  let screen :=
    zip_with andb (zip_with andb universe volatility_top)
      ((fun m => fgtb m (of_Z 1)) <$> momentum) in
  snd <$> List.filter fst
            (imap (fun k s =>
                     (default false (screen !! k),
                      {| sec := s;
                         ranking_score := default nan (score !! k) |}))
               assets).

(** *** [before_trading_start] (lines 106-111) *)

(** [context.long_list =
      context.output.sort_values(['ranking_score'], ascending=True)
                    .iloc[:25].dropna()]. *)
Definition long_list (output : list row) : list row :=
  dropna row_columns (head 25 (sort_values ranking_score true output)).

(** *** [rebalance] (lines 116-137) *)

(** [long_weight] as computed at the top of [rebalance]. *)
Definition long_weight (long_list : list row) : option pynum :=
  w ← (if decide (length long_list ≠ 0%nat)
       then PyFloat <$> py_truediv MAX_GROSS_LEVERAGE
                          (of_Z (Z.of_nat (length long_list)))
       else Some (PyInt 0));
  Some (if py_gt w MAX_LONG_POSITION_SIZE then PyFloat (decimal 4 2) else w).

(** [rebalance(context, data)]: the orders it places, given the held
    positions and the platform's [data.can_trade]. *)
Definition rebalance (long_list : list row) (positions : list security)
    (can_trade : security -> bool) : option (list order) :=
  w ← long_weight long_list;
  let index := sec <$> long_list in
  let buys :=
    (fun s => OrderTargetPercent s w) <$> List.filter can_trade index in
  let sells :=
    (fun s => OrderTarget s 0)
      <$> List.filter (fun s => negb (bool_decide (s ∈ index)) && can_trade s)
            positions in
  Some (buys ++ sells).

(** *** [Momentum] (lines 171-178) *)

(** What [Momentum.compute] writes to [out]:
    [out[:] = close[-10]/close[0]].  [close[-10]] is the tenth row from
    the end and raises [IndexError] on a window of fewer than ten rows;
    [close[0]] is the first row. *)
Definition Momentum_compute (close : list (list float))
  : option (list float) :=
  recent ← (if decide (10 <= length close)%nat
            then close !! (length close - 10)%nat else None);
  first ← close !! 0%nat;
  np_divide recent first.

End ValueLongOnly.

(** ** Code/My_Magic_Formula.py *)

Module MagicFormula.

(** *** Python values in [make_pipeline] (lines 54-65)

    [make_pipeline] combines pipeline terms with Python's [!=], [>] and
    [&].  What these operators return depends on the kind of their
    operands, so the operands are modelled as Python objects. *)

(** The classes the script names without instantiating them. *)
Inductive pyclass : Type :=
| Sector_class.

Inductive pyobj : Type :=
| PClass (c : pyclass)
| PInt (n : Z)
| PBool (b : bool)
| PFilter (f : security -> bool)
| PClassifier (c : security -> Z)
| PFactor (f : security -> float).

(** [a != b].  A classifier term compared with an int gives the filter of
    the assets whose label differs ([Classifier.__ne__]).  A class object
    has no such method: Python falls back to the default comparison, under
    which a class is not equal to an int, whatever the int.  The other
    combinations do not occur in the script. *)
Definition py_ne (a b : pyobj) : option pyobj :=
  match a, b with
  | PClassifier c, PInt n => Some (PFilter (fun s => negb (c s =? n)))
  | PInt m, PInt n => Some (PBool (negb (m =? n)))
  | PClass _, PInt _ => Some (PBool true)
  | _, _ => None
  end.

(** [a > n] for a factor term and an int: a filter, false on NaN. *)
Definition py_gt_int (a : pyobj) (n : Z) : option pyobj :=
  match a with
  | PFactor f => Some (PFilter (fun s => fgtb (f s) (of_Z n)))
  | _ => None
  end.

(** [a & b].  Two Python bools give a bool; two filters give their
    conjunction; a filter and a bool constant [c] give the filter
    [x_0 & c] (zipline accepts a constant operand there).  The other
    combinations do not occur in the script. *)
Definition py_and (a b : pyobj) : option pyobj :=
  match a, b with
  | PBool x, PBool y => Some (PBool (x && y))
  | PFilter f, PFilter g => Some (PFilter (fun s => f s && g s))
  | PFilter f, PBool c => Some (PFilter (fun s => f s && c))
  | _, _ => None
  end.

(** [c.notnull()] for a classifier whose missing label is [-1]. *)
Definition notnull (c : security -> Z) : pyobj :=
  PFilter (fun s => negb (c s =? -1)).

(** What the platform knows of each asset on the evaluation date. *)
Record platform_data : Type := {
  QTradableStocksUS : security -> bool;
  Sector : security -> Z;
  market_cap_latest : security -> float
}.

(** The final [universe] of [make_pipeline]:
<<
    universe  = QTradableStocksUS() & Sector().notnull()
    medium_cap = Fundamentals.market_cap.latest > 1000000000
    not_Finan_and_Ulti = ((Sector != 103) & (Sector != 207))
    universe = universe & medium_cap & not_Finan_and_Ulti
>>
    The third line names the class [Sector], not an instance [Sector()]. *)
Definition make_pipeline_universe (d : platform_data) : option pyobj :=
  universe ← py_and (PFilter (QTradableStocksUS d)) (notnull (Sector d));
  medium_cap ← py_gt_int (PFactor (market_cap_latest d)) 1000000000;
  ne103 ← py_ne (PClass Sector_class) (PInt 103);
  ne207 ← py_ne (PClass Sector_class) (PInt 207);
  not_Finan_and_Ulti ← py_and ne103 ne207;
  u ← py_and universe medium_cap;
  py_and u not_Finan_and_Ulti.

(** Membership of an asset in the filtered universe ([None]: building the
    pipeline raised). *)
Definition in_universe (d : platform_data) (s : security) : option bool :=
  u ← make_pipeline_universe d;
  match u with
  | PFilter f => Some (f s)
  | _ => None
  end.

(** *** The factors (lines 157-176) *)

Definition np_divide (a b : list float) : option (list float) :=
  if decide (length a = length b) then Some (zip_with fdiv a b) else None.

(** What [Earnings_Yield.compute] writes to [out]:
    [ey = ebit[-1] / ev[-1]; out[:] = ey]. *)
Definition Earnings_Yield_compute (ebit ev : list (list float))
  : option (list float) :=
  n ← last ebit;
  d ← last ev;
  np_divide n d.

(** What [Return_on_Invested_Capital.compute] writes to [out]:
    [out[:] = roic[-1]]. *)
Definition Return_on_Invested_Capital_compute (roic : list (list float))
  : option (list float) :=
  last roic.

(** *** The pipeline output (lines 67-85) *)

Record row : Type := {
  sec : security;
  earnings_yield : float;
  Earnings_yield_rank : float;
  roic : float;
  Roic_rank : float;
  MagicFormula_rank : float
}.

Definition row_columns (r : row) : list float :=
  [earnings_yield r; Earnings_yield_rank r; roic r; Roic_rank r;
   MagicFormula_rank r].

(** The frame [pipeline_output('my_pipeline')] returns: one row per asset
    of the screen [universe], with the five columns of the pipeline.  The
    platform's [rank] is a parameter: [rank ascending mask data];
    [universe] is the value of the universe filter per asset, and the
    float arguments are what the two factors' [compute] wrote to [out]. *)
Definition pipeline_output
    (rank : bool -> list bool -> list float -> list float)
    (assets : list security) (universe : list bool)
    (earnings_yield roic : list float) : list row :=
  let EY_rank := rank false universe earnings_yield in
  let roic_rank := rank false universe roic in
  let Magic_Formula_rank := zip_with fadd EY_rank roic_rank in
  snd <$> List.filter fst
            (imap (fun k s =>
                     (default false (universe !! k),
                      {| sec := s;
                         earnings_yield := default nan (earnings_yield !! k);
                         Earnings_yield_rank := default nan (EY_rank !! k);
                         roic := default nan (roic !! k);
                         Roic_rank := default nan (roic_rank !! k);
                         MagicFormula_rank :=
                           default nan (Magic_Formula_rank !! k) |}))
               assets).

(** *** Constraint parameters (lines 24-25) *)

Definition MAX_GROSS_LEVERAGE : float := of_Z 1.
Definition MAX_LONG_POSITION_SIZE : float := decimal 4 2.

(** *** [before_trading_start] (lines 90-102) *)

(** [context.buy_list =
      context.output.sort_values(['MagicFormula_rank'], ascending=True)
                    .head(25).dropna()]. *)
Definition buy_list (output : list row) : list row :=
  dropna row_columns (head 25 (sort_values MagicFormula_rank true output)).

(** [context.weight] as [before_trading_start] leaves it. *)
Definition weight (buy_list : list row) : option pynum :=
  w ← (if decide (length buy_list ≠ 0%nat)
       then PyFloat <$> py_truediv MAX_GROSS_LEVERAGE
                          (of_Z (Z.of_nat (length buy_list)))
       else Some (PyInt 0));
  Some (if py_gt w MAX_LONG_POSITION_SIZE then PyFloat (decimal 4 2) else w).

(** [before_trading_start(context, data)]: the new [context.buy_list] and
    [context.weight]. *)
Definition before_trading_start (output : list row)
  : option (list row * pynum) :=
  let bl := buy_list output in
  w ← weight bl;
  Some (bl, w).

(** *** [buying_in_January] and [sell_in_December] (lines 107-123) *)

Definition buying_in_January (month : Z) (buy_list : list row) (w : pynum)
    (can_trade : security -> bool) : list order :=
  if decide (month = 1)
  then (fun s => OrderTargetPercent s w)
         <$> List.filter can_trade (sec <$> buy_list)
  else [].

Definition sell_in_December (month : Z) (positions_value_nonzero : bool)
    (positions : list security) (buy_list : list row)
    (can_trade : security -> bool) : list order :=
  if bool_decide (month = 12) && positions_value_nonzero
  then (fun s => OrderTarget s 0)
         <$> List.filter
               (fun s => negb (bool_decide (s ∈ sec <$> buy_list))
                         && can_trade s)
               positions
  else [].

End MagicFormula.

(** ** Code/Developed on Black_Cat_Acquirer_Multiple.py *)

Module BlackCat.

(** *** [TrailingTwelveMonths.compute] (lines 78-95) *)

(** A [datetime64[ns]] is a signed 64-bit count of nanoseconds; [NaT],
    the missing date, is the least such integer. *)
Definition NaT : Z := - 2 ^ 63.

Definition wrap64 (z : Z) : Z := (z + 2 ^ 63) mod 2 ^ 64 - 2 ^ 63.

(** [np.timedelta64(52, 'W')] in nanoseconds. *)
Definition weeks52 : Z := 52 * 7 * 86400 * 10 ^ 9.

(** [d + w]: [NaT] stays [NaT], other sums wrap around. *)
Definition dt_add (d w : Z) : Z :=
  if d =? NaT then NaT else wrap64 (d + w).

(** [a > b] on dates: false as soon as an operand is [NaT]. *)
Definition dt_gt (a b : Z) : bool :=
  negb (a =? NaT) && negb (b =? NaT) && (a >? b).

(** [a[m]] for a boolean mask: [IndexError] unless the mask has the
    shape of the array. *)
Definition mask_index {A} (a : list A) (m : list bool) : option (list A) :=
  if decide (length a = length m) then Some (bool_index a m) else None.

(** [np.unique(a)]: the distinct values of [a] in increasing order. *)
Fixpoint insert_unique (x : Z) (l : list Z) : list Z :=
  match l with
  | [] => [x]
  | y :: t =>
      if x <? y then x :: l
      else if x =? y then l
      else y :: insert_unique x t
  end.

Definition np_unique (a : list Z) : list Z := foldr insert_unique [] a.

(** The position of the first occurrence of [x] in [a]. *)
Fixpoint first_index (x : Z) (a : list Z) : option nat :=
  match a with
  | [] => None
  | y :: t => if x =? y then Some 0%nat else S <$> first_index x t
  end.

(** [np.unique(a, return_index=True)[1]]: for each distinct value, in
    increasing order of the values, the index of its first occurrence. *)
Definition np_unique_index (a : list Z) : list nat :=
  omap (fun x => first_index x a) (np_unique a).

(** [a[idx]] for an array of indices: [IndexError] when one is out of
    bounds. *)
Definition int_index {A} (a : list A) (idx : list nat) : option (list A) :=
  mapM (fun i => a !! i) idx.

(** The mask [d + np.timedelta64(52, 'W') > d[-1]]. *)
Definition recent (d : list Z) : option (list bool) :=
  latest ← last d;
  Some ((fun x => dt_gt (dt_add x weeks52) latest) <$> d).

(** The factor of one security, [v] and [d] being its columns of the
    two windows:
<<
    (v[d + np.timedelta64(52, 'W') > d[-1]])[
        np.unique(d[d + np.timedelta64(52, 'W') > d[-1]],
                  return_index=True)[1]
    ].sum()
>>
    The integer indexing picks the values in increasing order of their
    dates, and [.sum()] adds them in numpy's order, [np_sum]. *)
Definition ttm (v : list float) (d : list Z) : option float :=
  m ← recent d;
  vm ← mask_index v m;
  dm ← mask_index d m;
  picked ← int_index vm (np_unique_index dm);
  Some (np_sum picked).

(** [a.T] of a 2-D array given as its rows. *)
Definition transpose {A} (a : list (list A)) : list (list A) :=
  (fun j => omap (fun r : list A => r !! j) a) <$> seq 0 (shape1 a).

(** [compute]: [out.factor] has one [ttm] per security,
    [for v, d in zip(values.T, dates.T)], and [out.asof_date] receives
    [dates[-1]].  Both outputs of the factor are float64 arrays: the
    assignment converts each date, a 64-bit integer, to the nearest
    double ([NaT] being the least 64-bit integer). *)
Definition TrailingTwelveMonths_compute (values : list (list float))
    (dates : list (list Z)) : option (list float * list float) :=
  factor ← mapM (fun vd : list float * list Z => ttm vd.1 vd.2)
             (zip (transpose values) (transpose dates));
  asof_date ← last dates;
  Some (factor, (of_Z <$> asof_date : list float)).

(** *** The filters of [make_pipeline] (lines 97-192) *)

(** What the platform knows of one asset on the evaluation date; the
    tests on strings ([security_type], [exchange_id], [symbol],
    [standard_name]) are given by their results. *)
Record listing : Type := {
  in_QTradableStocksUS : bool;
  is_primary_share : bool;
  security_type_is_common_stock : bool;
  is_depositary_receipt : bool;
  exchange_id_starts_with_OTC : bool;
  symbol_ends_with_WI : bool;
  standard_name_matches_LP : bool;
  limited_partnership_isnull : bool;
  market_cap_notnull : bool;
  morningstar_sector_code : Z;
  enterprise_value : float
}.

(** [tradeable_stocks], the conjunction of the ten filters, for an asset
    whose trailing-twelve-month EBIT is [ebit_ttm]:
    [negative_earnings = ebit_ttm < 0] and
    [is_a_financial_company = morningstar_sector_code.latest.eq(103)]. *)
Definition tradeable_stocks (a : listing) (ebit_ttm : float) : bool :=
  let primary_share := is_primary_share a in
  let common_stock := security_type_is_common_stock a in
  let not_depositary := negb (is_depositary_receipt a) in
  let not_otc := negb (exchange_id_starts_with_OTC a) in
  let not_wi := negb (symbol_ends_with_WI a) in
  let not_lp_name := negb (standard_name_matches_LP a) in
  let not_lp_balance_sheet := limited_partnership_isnull a in
  let have_market_cap := market_cap_notnull a in
  let negative_earnings := fltb ebit_ttm zero in
  let is_a_financial_company := morningstar_sector_code a =? 103 in
  primary_share && common_stock && not_depositary && not_otc && not_wi
  && not_lp_name && not_lp_balance_sheet && have_market_cap
  && negb negative_earnings && negb is_a_financial_company.

(** [ev_over_ebit = ev / ebit_ttm]. *)
Definition ev_over_ebit_factor (a : listing) (ebit_ttm : float) : float :=
  fdiv (enterprise_value a) ebit_ttm.

(** The mask [base_universe & tradeable_stocks] from which the platform
    takes the 25 lowest [ev_over_ebit]. *)
Definition bottom_mask (a : listing) (ebit_ttm : float) : bool :=
  in_QTradableStocksUS a && tradeable_stocks a ebit_ttm.

(** *** The strategy state *)

Record row : Type := {
  sec : security;
  ebit_ttm : float;
  ebit_ttm_asof_date : Z;
  ev : float;
  ev_over_ebit : float
}.

(** The attributes of [context]; one that no callback has assigned yet is
    [None], and reading it raises [AttributeError]. *)
Record context : Type := {
  month_to_run : Z;
  NUM_STOCKS_TO_BUY : Z;
  output : option (list row);
  security_list : option (list security);
  weights : option (gmap security float)
}.

(** [initialize] (lines 46-73): [context.month_to_run = -1] and
    [context.NUM_STOCKS_TO_BUY = 25]. *)
Definition initialize : context :=
  {| month_to_run := -1;
     NUM_STOCKS_TO_BUY := 25;
     output := None;
     security_list := None;
     weights := None |}.

(** [before_trading_start] (lines 194-208): the pipeline output sorted by
    ['ev_over_ebit'], and its index.  (A row holds the as-of column as
    the date that line 201 casts it back to; no callback reads that
    column.) *)
Definition before_trading_start (ctx : context) (pipeline_output : list row)
  : context :=
  let out := sort_values ev_over_ebit true pipeline_output in
  {| month_to_run := month_to_run ctx;
     NUM_STOCKS_TO_BUY := NUM_STOCKS_TO_BUY ctx;
     output := Some out;
     security_list := Some (sec <$> out);
     weights := weights ctx |}.

(** The loop of [rebalance] that fills [context.weights]:
<<
    for sec in context.security_list:
        if data.can_trade(sec):
            context.weights[sec] = 0.99/context.NUM_STOCKS_TO_BUY
>> *)
Fixpoint assign_weights (num : Z) (can_trade : security -> bool)
    (l : list security) (w : gmap security float)
  : option (gmap security float) :=
  match l with
  | [] => Some w
  | s :: t =>
      if can_trade s then
        x ← py_truediv (decimal 99 2) (of_Z num);
        assign_weights num can_trade t (<[s := x]> w)
      else assign_weights num can_trade t w
  end.

(** [rebalance] (lines 211-247), called with the calendar month of
    [get_datetime('US/Eastern')] and the platform's [data.can_trade].
    Returns the new context and the target-weight map handed to
    [order_optimal_portfolio], if the call is made.  The column
    ['ev_over_ebit_rank'] it adds to [context.output] is read nowhere and
    is not kept. *)
Definition rebalance (ctx : context) (month : Z)
    (can_trade : security -> bool)
  : option (context * option (gmap security float)) :=
  let '(month_to_run', rebalanceNow) :=
    if month_to_run ctx =? -1 then (month, true)
    else (month_to_run ctx, month_to_run ctx =? month) in
  if rebalanceNow then
    out ← output ctx;
    l ← security_list ctx;
    w ← assign_weights (NUM_STOCKS_TO_BUY ctx) can_trade l ∅;
    Some ({| month_to_run := month_to_run';
             NUM_STOCKS_TO_BUY := NUM_STOCKS_TO_BUY ctx;
             output := Some out;
             security_list := Some l;
             weights := Some w |},
          Some w)
  else
    Some ({| month_to_run := month_to_run';
             NUM_STOCKS_TO_BUY := NUM_STOCKS_TO_BUY ctx;
             output := output ctx;
             security_list := security_list ctx;
             weights := weights ctx |},
          None).

(** *** The platform's calls, day by day

    Every trading day the platform calls [before_trading_start] and then,
    on the days its schedule says so, [rebalance]. *)
Record day : Type := {
  pipeline_output : list row;
  rebalance_scheduled : bool;
  today_month : Z;
  can_trade : security -> bool
}.

(** One invocation of [rebalance]: the month it ran in and what it
    submitted. *)
Record invocation : Type := {
  inv_month : Z;
  submitted : option (gmap security float)
}.

Definition run_day (ctx : context) (d : day)
  : option (context * list invocation) :=
  let ctx := before_trading_start ctx (pipeline_output d) in
  if rebalance_scheduled d then
    '(ctx, sub) ← rebalance ctx (today_month d) (can_trade d);
    Some (ctx, [{| inv_month := today_month d; submitted := sub |}])
  else Some (ctx, []).

Fixpoint run (ctx : context) (days : list day)
  : option (context * list invocation) :=
  match days with
  | [] => Some (ctx, [])
  | d :: rest =>
      '(ctx, log1) ← run_day ctx d;
      '(ctx, log2) ← run ctx rest;
      Some (ctx, log1 ++ log2)
  end.

End BlackCat.

(** ** Code/Developed on Guy_Fleury_Piotroski-F-Score.py *)

Module Piotroski.

(** *** The nine indicator factors (lines 76-137)

    Each [compute] writes [(comparison).astype(int)]: 1 where the
    comparison holds, 0 elsewhere (also where an operand is NaN).  The
    definitions are per asset: [x_last] is the asset's entry of the last
    row of the window, [x_first] that of the first row.  The pipeline
    holds these 0/1 values and their sums as floats; they are exact there
    and are integers here. *)

Definition astype_int (b : bool) : Z := if b then 1 else 0.

Definition ROA (roa_last : float) : Z :=
  astype_int (fgtb roa_last zero).

Definition ROAChange (roa_last roa_first : float) : Z :=
  astype_int (fgtb roa_last roa_first).

Definition CashFlow (cash_flow_last : float) : Z :=
  astype_int (fgtb cash_flow_last zero).

Definition CashFlowFromOps (cash_flow_from_ops_last roa_last : float) : Z :=
  astype_int (fgtb cash_flow_from_ops_last roa_last).

Definition LongTermDebtRatioChange (ltd_last ltd_first : float) : Z :=
  astype_int (fltb ltd_last ltd_first).

Definition CurrentDebtRatioChange (cr_last cr_first : float) : Z :=
  astype_int (fgtb cr_last cr_first).

Definition SharesOutstandingChange (so_last so_first : float) : Z :=
  astype_int (fleb so_last so_first).

Definition GrossMarginChange (gm_last gm_first : float) : Z :=
  astype_int (fgtb gm_last gm_first).

Definition AssetsTurnoverChange (at_last at_first : float) : Z :=
  astype_int (fgtb at_last at_first).

(** The window entries of one asset that the factors read. *)
Record fundamentals : Type := {
  roa_last : float;
  roa_first : float;
  cash_flow_last : float;
  cash_flow_from_ops_last : float;
  ltd_last : float;
  ltd_first : float;
  cr_last : float;
  cr_first : float;
  so_last : float;
  so_first : float;
  gm_last : float;
  gm_first : float;
  at_last : float;
  at_first : float;
  ev_to_ebitda_latest : float
}.

(** *** The factor [Piotroski] (lines 37-74)

    The class computes the whole score in one [compute] over a window of
    22 rows; [initialize] does not use it. *)
Definition Piotroski_compute (f : fundamentals) : Z :=
  let profit :=
    astype_int (fgtb (roa_last f) zero)
    + astype_int (fgtb (cash_flow_last f) zero)
    + astype_int (fgtb (roa_last f) (roa_first f))
    + astype_int (fgtb (cash_flow_from_ops_last f) (roa_last f)) in
  let leverage :=
    astype_int (fltb (ltd_last f) (ltd_first f))
    + astype_int (fgtb (cr_last f) (cr_first f))
    + astype_int (fleb (so_last f) (so_first f)) in
  let operating :=
    astype_int (fgtb (gm_last f) (gm_first f))
    + astype_int (fgtb (at_last f) (at_first f)) in
  profit + leverage + operating.

(** *** [initialize] (lines 140-162): the composite score and the screen *)

(** [piotroski = profit + leverage + operating]. *)
Definition piotroski_score (f : fundamentals) : Z :=
  let profit :=
    ROA (roa_last f) + ROAChange (roa_last f) (roa_first f)
    + CashFlow (cash_flow_last f)
    + CashFlowFromOps (cash_flow_from_ops_last f) (roa_last f) in
  let leverage :=
    LongTermDebtRatioChange (ltd_last f) (ltd_first f)
    + CurrentDebtRatioChange (cr_last f) (cr_first f)
    + SharesOutstandingChange (so_last f) (so_first f) in
  let operating :=
    GrossMarginChange (gm_last f) (gm_first f)
    + AssetsTurnoverChange (at_last f) (at_first f) in
  profit + leverage + operating.

(** The screen
    [((piotroski >= 7) | (piotroski <= 3)) & ev_ebitda & market_cap]
    with [ev_ebitda = ev_to_ebitda.latest > 0].  [market_cap] stands for
    what the expression [morningstar.valuation.market_cap > 1e9] (a
    column, without [.latest]) evaluates to for the asset; it is a
    parameter. *)
Definition screen (market_cap : bool) (f : fundamentals) : bool :=
  ((piotroski_score f >=? 7) || (piotroski_score f <=? 3))
  && fgtb (ev_to_ebitda_latest f) zero
  && market_cap.

Record row : Type := { sec : security; piotroski : Z }.

(** The frame [pipeline_output('piotroski')] returns: one row per asset
    passing the screen, with its score. *)
Definition pipeline_output (market_cap : security -> bool)
    (assets : list (security * fundamentals)) : list row :=
  (fun a : security * fundamentals =>
     {| sec := a.1; piotroski := piotroski_score a.2 |})
    <$> List.filter (fun a : security * fundamentals =>
                       screen (market_cap a.1) a.2)
          assets.

(** *** The strategy state and its callbacks (lines 165-200) *)

Record context : Type := {
  is_month_end : bool;
  results : option (list row);
  long_stocks : option (list row);
  short_stocks : option (list row)
}.

Definition initialize : context :=
  {| is_month_end := false;
     results := None;
     long_stocks := None;
     short_stocks := None |}.

Definition set_month_end (ctx : context) : context :=
  {| is_month_end := true;
     results := results ctx;
     long_stocks := long_stocks ctx;
     short_stocks := short_stocks ctx |}.

(** [results.sort_values('piotroski', ascending=False).head(10)], with
    pandas' sort as [sort_values]. *)
Definition select_long (sort_values : frame_sort row) (results : list row)
  : list row :=
  head 10 (sort_values piotroski false results).

(** [results.sort_values('piotroski', ascending=True).head(10)]. *)
Definition select_short (sort_values : frame_sort row) (results : list row)
  : list row :=
  head 10 (sort_values piotroski true results).

(** [before_trading_start]: on a month end, the two selections are taken
    from the pipeline output.  (Sorting a frame by one of its columns does
    not raise, so the [except] branch is never entered.) *)
Definition before_trading_start (sort_values : frame_sort row)
    (ctx : context) (pipeline_output : list row) : context :=
  if is_month_end ctx then
    {| is_month_end := true;
       results := Some pipeline_output;
       long_stocks := Some (select_long sort_values pipeline_output);
       short_stocks := Some (select_short sort_values pipeline_output) |}
  else ctx.

(** [trade_long]: [order_target_percent(stock, 1.0/20)] for the tradable
    long stocks. *)
Definition trade_long (ctx : context) (can_trade : security -> bool)
  : option (list order) :=
  l ← long_stocks ctx;
  Some ((fun s => OrderTargetPercent s (PyFloat (fdiv (of_Z 1) (of_Z 20))))
          <$> List.filter can_trade (sec <$> l)).

(** [trade_short]: [order_target_percent(stock, -1.0/20)] for the tradable
    short stocks. *)
Definition trade_short (ctx : context) (can_trade : security -> bool)
  : option (list order) :=
  l ← short_stocks ctx;
  Some ((fun s => OrderTargetPercent s (PyFloat (fdiv (of_Z (-1)) (of_Z 20))))
          <$> List.filter can_trade (sec <$> l)).

(** [trade(context, data)]:
<<
    for stock in context.portfolio.positions:
        if stock not in context.long_stocks.index and
           stock not in context.short_stocks.index:
            order_target_percent(stock, 0)
    context.is_month_end = False
>>
    [data] (here its [can_trade]) is an argument that the body never
    uses. *)
Definition trade (ctx : context) (positions : list security)
    (can_trade : security -> bool) : option (context * list order) :=
  l ← long_stocks ctx;
  s ← short_stocks ctx;
  let long_index : list security := sec <$> l in
  let short_index : list security := sec <$> s in
  let orders :=
    (fun stock => OrderTargetPercent stock (PyInt 0))
      <$> List.filter
            (fun stock => negb (bool_decide (stock ∈ long_index))
                          && negb (bool_decide (stock ∈ short_index)))
            positions in
  Some ({| is_month_end := false;
           results := results ctx;
           long_stocks := long_stocks ctx;
           short_stocks := short_stocks ctx |},
        orders).

End Piotroski.

(** ** [position_count], defined alike in the four scripts *)

Module Recording.

(** [position_count(context, data)]: the loop over
    [context.portfolio.positions.items()] that counts the positions whose
    [amount] is positive.  The dict maps a security to the number of
    shares held (negative for a short position). *)
Definition position_count (positions : gmap security Z) : nat :=
  map_fold (fun (stock : security) (amount : Z) (num_of_position : nat) =>
              if 0 <? amount then S num_of_position else num_of_position)
    0%nat positions.

End Recording.

(** * Properties *)

(** ** NaN propagation of the binary64 operations *)

Section FloatFacts.

Lemma fadd_nan_l x : fadd nan x = nan.
Proof. reflexivity. Qed.

Lemma fadd_nan_r x : fadd x nan = nan.
Proof. by destruct x. Qed.

Lemma fmul_nan_l x : fmul nan x = nan.
Proof. reflexivity. Qed.

Lemma fdiv_nan_l x : fdiv nan x = nan.
Proof. reflexivity. Qed.

Lemma fdiv_nan_r x : fdiv x nan = nan.
Proof. by destruct x. Qed.

Lemma isnan_true x : isnan x = true <-> x = nan.
Proof. unfold nan; destruct x; simpl; split; congruence. Qed.

End FloatFacts.

(** ** numpy's summation order *)

Section NumpySum.





End NumpySum.

(** ** [nanfill] *)

Section NanfillFacts.
Import ValueLongOnly.

(** *** The row-wise reading of [nanfill] *)

(** Row [r] of [idx] after the accumulation, for an array of [n] columns. *)
Definition row_idx (n : nat) (r : list float) : list nat :=
  maximum_accumulate (np_where (negb <$> np_isnan r) (arange n) 0%nat).

(** Row [r] after the assignment: a NaN cell takes the cell of the same
    row that [idx] points to. *)
Definition fill_row (n : nat) (r : list float) : list float :=
  zip_with (fun x v => if isnan x then v else x) r
    ((fun j => default nan (r !! j)) <$> row_idx n r).

(** The values [nanfill] reads for the NaN cells of row [r]. *)
Definition row_reads (n : nat) (r : list float) : list float :=
  bool_index ((fun j => default nan (r !! j)) <$> row_idx n r) (np_isnan r).

(** Forward fill along a list: a NaN takes the last value before it that
    is not NaN, [prev] when there is none. *)
Fixpoint ffill_from (prev : float) (r : list float) : list float :=
  match r with
  | [] => []
  | x :: t =>
      if isnan x then prev :: ffill_from prev t else x :: ffill_from x t
  end.

Definition ffill (r : list float) : list float :=
  match r with
  | [] => []
  | x :: t => x :: ffill_from x t
  end.


Lemma bool_index_fmap {A B} (f : A -> B) (l : list A) (m : list bool) :
  bool_index (f <$> l) m = f <$> bool_index l m.
Proof.
  revert m; induction l as [|x l IH]; intros [|[] m]; simpl; try done.
  - by rewrite IH.
Qed.

Lemma bool_index_Forall {A} (P : A -> Prop) (l : list A) (m : list bool) :
  Forall P l -> Forall P (bool_index l m).
Proof.
  intros H; revert m; induction H as [|x l Hx Hl IH]; intros [|[] m];
    simpl; auto.
Qed.

Lemma length_bool_index {A B} (l : list A) (k : list B) (m : list bool) :
  length l = length k -> length (bool_index l m) = length (bool_index k m).
Proof.
  revert k m; induction l as [|x l IH]; intros [|y k] [|[] m] E;
    simpl in *; try done; try lia.
  - f_equal. apply IH. lia.
  - apply IH. lia.
Qed.

Lemma length_running_max acc l : length (running_max acc l) = length l.
Proof. revert acc; induction l; intros; simpl; auto. Qed.

Lemma length_maximum_accumulate l :
  length (maximum_accumulate l) = length l.
Proof. destruct l; simpl; auto using length_running_max. Qed.

Lemma length_row_idx n r : length r = n -> length (row_idx n r) = n.
Proof.
  intros E. unfold row_idx, np_where, np_isnan, arange.
  rewrite length_maximum_accumulate, length_zip_with, !length_fmap,
    length_seq. lia.
Qed.

Lemma running_max_bound (n acc : nat) l :
  (acc < n)%nat -> Forall (fun j => (j < n)%nat) l ->
  Forall (fun j => (j < n)%nat) (running_max acc l).
Proof.
  intros Ha H; revert acc Ha; induction H as [|x l Hx Hl IH]; intros;
    simpl; constructor; [lia | apply IH; lia].
Qed.

Lemma row_idx_bound n r : Forall (fun j => (j < n)%nat) (row_idx n r).
Proof.
  unfold row_idx.
  assert (H : Forall (fun j => (j < n)%nat)
                (np_where (negb <$> np_isnan r) (arange n) 0%nat)).
  { unfold np_where, arange.
    generalize (negb <$> np_isnan r); intros c.
    apply Forall_lookup_2; intros i j Hi.
    apply lookup_zip_with_Some in Hi as (b & v & -> & _ & Hv).
    apply lookup_seq in Hv as [-> Hlt]. destruct b; lia. }
  destruct H as [|x l Hx Hl]; simpl; constructor; auto.
  by apply running_max_bound.
Qed.

Lemma put_mask_fill (r vals rest : list float) :
  length vals = length r ->
  put_mask r (np_isnan r) (bool_index vals (np_isnan r) ++ rest)
  = Some (zip_with (fun x v => if isnan x then v else x) r vals, rest).
Proof.
  revert vals; induction r as [|x r IH]; intros [|v vals] E; simpl in *;
    try done.
  destruct (isnan x); simpl; rewrite IH by lia; done.
Qed.

Lemma put_mask2_rows (n : nat) (a : list (list float)) :
  rectangular n a ->
  put_mask2_from a (np_isnan <$> a) (concat (row_reads n <$> a))
  = Some (fill_row n <$> a).
Proof.
  induction 1 as [|r a Hr Ha IH]; [done|].
  cbn [fmap list_fmap concat put_mask2_from].
  unfold row_reads at 1. rewrite put_mask_fill.
  - cbn [mbind option_bind]. rewrite IH. done.
  - by rewrite length_fmap, length_row_idx.
Qed.

Lemma zip_row_coordinate {A} (c : nat) (l : list A) (k : list nat)
    (m : list bool) :
  length l = length k ->
  zip (fst ∘ (fun j : A => (c, j)) <$> bool_index l m) (bool_index k m)
  = (fun j => (c, j)) <$> bool_index k m.
Proof.
  revert k m; induction l as [|x l IHl]; intros [|y k] [|[] m] E;
    simpl in *; try done; try lia.
  - f_equal. apply IHl. lia.
  - apply IHl. lia.
Qed.

(** The coordinates [nanfill] reads, row by row. *)
Lemma nanfill_coordinates (n off : nat) (a : list (list float)) :
  rectangular n a ->
  zip (fst <$> concat (imap (fun i mr => (fun j => ((off + i)%nat, j))
                                           <$> nonzero1 mr)
                         (np_isnan <$> a)))
      (concat (zip_with bool_index (row_idx n <$> a) (np_isnan <$> a)))
  = concat (imap (fun i r => (fun j => ((off + i)%nat, j))
                               <$> bool_index (row_idx n r) (np_isnan r)) a).
Proof.
  intros H; revert off; induction H as [|r a Hr Ha IH]; intros off;
    [done|].
  cbn [fmap list_fmap]. rewrite !imap_cons. cbn [concat zip_with].
  rewrite fmap_app, zip_with_app.
  - f_equal.
    + rewrite <- list_fmap_compose. unfold nonzero1, arange.
      apply zip_row_coordinate. unfold np_isnan.
      rewrite length_seq, length_fmap, length_row_idx; auto.
    + specialize (IH (S off)).
      erewrite (imap_ext _ (fun i mr => _ <$> nonzero1 mr));
        [erewrite (imap_ext (_ ∘ S)
                     (fun i r => _ <$> bool_index (row_idx n r) (np_isnan r)));
         [apply IH|]|].
      * intros i x _. simpl.
        by replace (off + S i)%nat with (S off + i)%nat by lia.
      * intros i x _. simpl.
        by replace (off + S i)%nat with (S off + i)%nat by lia.
  - rewrite !length_fmap. unfold nonzero1, arange.
    apply length_bool_index. unfold np_isnan.
    rewrite length_seq, length_fmap, length_row_idx; auto.
Qed.

Lemma nanfill_reads (n off : nat) (whole a : list (list float)) :
  rectangular n a ->
  (forall i r, a !! i = Some r -> whole !! (off + i)%nat = Some r) ->
  Forall2 (fun (ij : nat * nat) y => whole !! ij.1 ≫= (.!! ij.2) = Some y)
    (concat (imap (fun i r => (fun j => ((off + i)%nat, j))
                                <$> bool_index (row_idx n r) (np_isnan r)) a))
    (concat (row_reads n <$> a)).
Proof.
  intros H; revert off; induction H as [|r a Hr Ha IH]; intros off Hw;
    [constructor|].
  rewrite imap_cons. cbn [fmap list_fmap concat].
  apply Forall2_app.
  - unfold row_reads. rewrite bool_index_fmap.
    apply Forall2_fmap, Forall_Forall2_diag.
    eapply Forall_impl; [apply bool_index_Forall, (row_idx_bound n r)|].
    intros j Hj; simpl.
    rewrite (Hw 0%nat r eq_refl); simpl.
    destruct (lookup_lt_is_Some_2 r j) as [v Hv]; [cbv beta in Hj; lia|].
    by rewrite Hv.
  - erewrite imap_ext; [apply (IH (S off))|].
    + intros i x Hx. replace (S off + i)%nat with (off + S i)%nat by lia.
      by apply Hw.
    + intros i x _. simpl.
      by replace (off + S i)%nat with (S off + i)%nat by lia.
Qed.

Lemma shape1_isnan (n : nat) (r : list float) (a : list (list float)) :
  length r = n -> shape1 (np_isnan <$> (r :: a)) = n.
Proof. intros <-. simpl. unfold np_isnan. by rewrite length_fmap. Qed.

Lemma idx_rows (n : nat) (a : list (list float)) :
  maximum_accumulate <$>
    ((fun mr => np_where (negb <$> mr) (arange n) 0%nat) <$> (np_isnan <$> a))
  = row_idx n <$> a.
Proof. by rewrite <- !list_fmap_compose. Qed.

Lemma nanfill_index_lengths (n off : nat) (a : list (list float)) :
  rectangular n a ->
  length (fst <$> concat (imap (fun i mr => (fun j => ((off + i)%nat, j))
                                              <$> nonzero1 mr)
                            (np_isnan <$> a)))
  = length (concat (zip_with bool_index (row_idx n <$> a) (np_isnan <$> a))).
Proof.
  intros H; revert off; induction H as [|r b Hr Hb IH]; intros off; [done|].
  cbn [fmap list_fmap]. rewrite imap_cons. cbn [concat zip_with].
  rewrite fmap_app, !length_app, !length_fmap. f_equal.
  - unfold nonzero1, arange. apply length_bool_index. unfold np_isnan.
    rewrite length_seq, length_fmap, length_row_idx; auto.
  - rewrite <- (IH (S off)), length_fmap. f_equal. f_equal.
    apply imap_ext. intros i x _. simpl.
    by replace (off + S i)%nat with (S off + i)%nat by lia.
Qed.

(** On every rectangular array [nanfill] succeeds, and what it leaves is
    each row filled from within that row. *)
Lemma nanfill_array_rows (n : nat) (a : list (list float)) :
  rectangular n a -> nanfill_array a = Some (fill_row (shape1 a) <$> a).
Proof.
  intros H. destruct a as [|r0 a0]; [done|].
  assert (En : shape1 (r0 :: a0) = n) by (inversion H; done).
  rewrite En. unfold nanfill_array.
  rewrite (shape1_isnan n) by (inversion H; done).
  set (a := r0 :: a0) in *.
  rewrite idx_rows.
  unfold int_index2, nonzero2, bool_index2.
  rewrite decide_True by exact (nanfill_index_lengths n 0 a H).
  replace (zip _ _) with
    (concat (imap (fun i r => (fun j => (i, j))
                     <$> bool_index (row_idx n r) (np_isnan r)) a))
    by (symmetry; exact (nanfill_coordinates n 0 a H)).
  rewrite (mapM_Some_2 _ _ (concat (row_reads n <$> a))).
  - cbn [mbind option_bind]. by apply put_mask2_rows.
  - exact (nanfill_reads n 0 a a H (fun i r Hr => Hr)).
Qed.


Lemma fill_suffix (r0 t : list float) (p acc : nat) (prev : float) :
  (forall i x, t !! i = Some x -> r0 !! (p + i)%nat = Some x) ->
  r0 !! acc = Some prev -> (acc <= p)%nat ->
  zip_with (fun x v => if isnan x then v else x) t
    ((fun j => default nan (r0 !! j))
       <$> running_max acc
             (np_where (negb <$> np_isnan t) (seq p (length t)) 0%nat))
  = ffill_from prev t.
Proof.
  revert p acc prev; induction t as [|x t IH]; intros p acc prev Ht Hacc Hle;
    [done|].
  cbn [np_isnan fmap list_fmap length seq np_where zip_with running_max
         ffill_from].
  destruct (isnan x) eqn:Hx; cbn [negb].
  - rewrite Nat.max_0_r, Hacc. cbn [default]. f_equal.
    apply IH; auto.
    intros i y Hy. replace (S p + i)%nat with (p + S i)%nat by lia.
    by apply Ht.
  - rewrite Nat.max_r by lia. f_equal.
    apply IH; auto.
    + intros i y Hy. replace (S p + i)%nat with (p + S i)%nat by lia.
      by apply Ht.
    + rewrite <- (Ht 0%nat x eq_refl). f_equal. lia.
Qed.

Lemma fill_row_ffill (r : list float) : fill_row (length r) r = ffill r.
Proof.
  destruct r as [|x t]; [done|].
  unfold fill_row, row_idx, arange.
  cbn [np_isnan fmap list_fmap length seq np_where zip_with
         maximum_accumulate ffill].
  replace (if negb (isnan x) then 0%nat else 0%nat) with 0%nat
    by (by destruct (isnan x)).
  cbn [lookup list_lookup default]. f_equal; [by destruct (isnan x)|].
  apply (fill_suffix (x :: t) t 1 0 x); auto.
Qed.

(** [nanfill] forward-fills along axis 1: every row of the window is
    filled from the cells to the left in that same row. *)
Lemma nanfill_array_ffill (n : nat) (a : list (list float)) :
  rectangular n a -> nanfill_array a = Some (ffill <$> a).
Proof.
  intros H. rewrite (nanfill_array_rows n a H). f_equal.
  destruct a as [|r0 a0]; [done|].
  assert (En : shape1 (r0 :: a0) = n) by (inversion H; done).
  rewrite En. apply Forall_fmap_ext_1.
  eapply Forall_impl; [exact H|]. intros r Hr. cbv beta in Hr.
  rewrite <- Hr. apply fill_row_ffill.
Qed.

(** A window of a single security (one cell per date) is left as it is,
    whatever its NaNs. *)
Lemma ffill_singleton (x : float) : ffill [x] = [x].
Proof. reflexivity. Qed.

Lemma nanfill_single_security (c : list float) :
  nanfill_array ((fun x => [x]) <$> c) = Some ((fun x => [x]) <$> c).
Proof.
  rewrite (nanfill_array_ffill 1).
  - f_equal. rewrite <- list_fmap_compose. by apply list_fmap_ext.
  - unfold rectangular. apply Forall_fmap, Forall_true. done.
Qed.

(** A window of a single date is forward-filled across its securities. *)
Lemma nanfill_single_date (r : list float) :
  nanfill_array [r] = Some [ffill r].
Proof.
  rewrite (nanfill_array_ffill (length r)); [done|].
  by repeat constructor.
Qed.

(** C2 (the code departs from the claim).  [nanfill] fills along axis 1 of
    the (time x security) window, that is across the securities of one
    date, and never along time: a window holding one security is returned
    unchanged whatever its NaNs, so the spec's column
    [NaN, 2, NaN, NaN, 5] stays [NaN, 2, NaN, NaN, 5] instead of becoming
    [NaN, 2, 2, 2, 5]; and in a window of one date a security with a NaN
    receives the value of the nearest security before it in the row, so
    [[1, NaN]] becomes [[1, 1]]: the fill of the second security reads the
    first security's value. *)
Theorem nanfill_fills_across_securities :
  (forall c : list float,
     nanfill_array ((fun x => [x]) <$> c) = Some ((fun x => [x]) <$> c))
  /\ (forall r : list float, nanfill_array [r] = Some [ffill r])
  /\ nanfill_array [[nan]; [of_Z 2]; [nan]; [nan]; [of_Z 5]]
     = Some [[nan]; [of_Z 2]; [nan]; [nan]; [of_Z 5]]
  /\ nanfill_array [[of_Z 1; nan]] = Some [[of_Z 1; of_Z 1]]
  /\ ffill [nan; of_Z 2; nan; nan; of_Z 5]
     = [nan; of_Z 2; of_Z 2; of_Z 2; of_Z 5].
Proof.
  split; [exact nanfill_single_security|].
  split; [exact nanfill_single_date|].
  repeat split; vm_compute; reflexivity.
Qed.

End NanfillFacts.

(** ** [nanfill] works in place *)

Section InPlace.
Import ValueLongOnly.

Lemma length_ffill_from (prev : float) (r : list float) :
  length (ffill_from prev r) = length r.
Proof.
  revert prev; induction r as [|x r IH]; intros prev; simpl; [done|].
  destruct (isnan x); simpl; by rewrite IH.
Qed.

Lemma length_ffill (r : list float) : length (ffill r) = length r.
Proof. destruct r; simpl; [done|]. by rewrite length_ffill_from. Qed.

Lemma nanfill_heap (h : heap) (w : loc) (a : list (list float)) (n : nat) :
  h !! w = Some (Arr2 a) -> rectangular n a ->
  nanfill w h = Some (w, <[w := Arr2 (ffill <$> a)]> h).
Proof.
  intros Hw Hr. unfold nanfill.
  by rewrite Hw, (nanfill_array_ffill n a Hr).
Qed.

Lemma dom_overwrite (h : heap) (l : loc) (x y : ndarray) :
  h !! l = Some x -> dom (<[l := y]> h) = dom h.
Proof.
  intros Hl. rewrite dom_insert_L.
  assert (Hin : l ∈ dom h) by (apply elem_of_dom; eauto).
  apply subseteq_union_1_L, singleton_subseteq_l, Hin.
Qed.

(** A factor's [compute] overwrites its window [w] with the filled array,
    copies the filled values to [out], allocates nothing and leaves every
    other array alone. *)
Definition overwrites_its_window
    (compute : loc -> loc -> heap -> option heap)
    (h : heap) (out w : loc) (r : list float) : Prop :=
  exists h',
    compute out w h = Some h'
    /\ h' !! w = Some (Arr2 [ffill r])
    /\ h' !! out = Some (Arr1 (ffill r))
    /\ dom h' = dom h
    /\ forall l, l <> w -> l <> out -> h' !! l = h !! l.

Lemma fill_and_copy (h : heap) (out w : loc) (o r : list float) :
  h !! w = Some (Arr2 [r]) -> h !! out = Some (Arr1 o) ->
  length o = length r ->
  let h1 := <[w := Arr2 [ffill r]]> h in
  let h2 := <[out := Arr1 (ffill r)]> h1 in
  nanfill w h = Some (w, h1)
  /\ h1 !! w = Some (Arr2 [ffill r])
  /\ assign_all out (Arr2 [ffill r]) h1 = Some h2
  /\ assign_all out (Arr1 (ffill r)) h1 = Some h2
  /\ h2 !! w = Some (Arr2 [ffill r])
  /\ h2 !! out = Some (Arr1 (ffill r))
  /\ dom h2 = dom h
  /\ forall l, l <> w -> l <> out -> h2 !! l = h !! l.
Proof.
  intros Hw Hout Hlen h1 h2.
  assert (Hne : out <> w) by (intros ->; congruence).
  assert (Ho1 : h1 !! out = Some (Arr1 o))
    by (unfold h1; by rewrite lookup_insert_ne).
  split; [apply (nanfill_heap h w [r] (length r) Hw); by repeat constructor|].
  split; [unfold h1; by rewrite lookup_insert_eq|].
  split; [unfold assign_all; rewrite Ho1; simpl;
          by rewrite decide_True by (by rewrite length_ffill)|].
  split; [unfold assign_all; rewrite Ho1; simpl;
          by rewrite decide_True by (by rewrite length_ffill)|].
  split; [unfold h2, h1; by rewrite lookup_insert_ne, lookup_insert_eq|].
  split; [unfold h2; by rewrite lookup_insert_eq|].
  split.
  - unfold h2. rewrite (dom_overwrite h1 out _ _ Ho1).
    unfold h1. by rewrite (dom_overwrite h w _ _ Hw).
  - intros l Hl1 Hl2. unfold h2, h1. by rewrite !lookup_insert_ne.
Qed.

(** C10.  [nanfill] returns the array object it was given, and that
    object now holds the filled values (no array is allocated and no other
    array changes); hence each of the six factor computations that call
    it, on its one-row window, overwrites the window it received from the
    platform besides writing [out]. *)
Theorem nanfill_mutates_its_argument
    (h : heap) (w : loc) (a : list (list float)) (n : nat) :
  h !! w = Some (Arr2 a) -> rectangular n a ->
  (exists h',
     nanfill w h = Some (w, h')
     /\ h' !! w = Some (Arr2 (ffill <$> a))
     /\ nanfill_array a = Some (ffill <$> a)
     /\ dom h' = dom h
     /\ forall l, l <> w -> h' !! l = h !! l)
  /\ forall (out : loc) (o r : list float),
       a = [r] -> h !! out = Some (Arr1 o) -> length o = length r ->
       Forall (fun compute => overwrites_its_window compute h out w r)
         [Price_to_Book_compute; Price_to_Earnings_compute;
          Return_on_Assets_compute; Return_on_Equity_compute;
          Return_on_Invested_Capital_compute; Dividend_Yield_compute].
Proof.
  intros Hw Hr. split.
  - exists (<[w := Arr2 (ffill <$> a)]> h).
    split; [by apply (nanfill_heap h w a n)|].
    split; [by rewrite lookup_insert_eq|].
    split; [by apply (nanfill_array_ffill n)|].
    split; [by apply (dom_overwrite h w (Arr2 a))|].
    intros l Hl. by rewrite lookup_insert_ne.
  - intros out o r -> Hout Hlen.
    destruct (fill_and_copy h out w o r Hw Hout Hlen)
      as (Hfill & Hw1 & Hcopy2 & Hcopy1 & Hw2 & Hout2 & Hdom & Hother).
    repeat constructor;
      (eexists; split; [|split; [exact Hw2|split; [exact Hout2|
                          split; [exact Hdom|exact Hother]]]]).
    all: cbv beta delta [Price_to_Book_compute Price_to_Earnings_compute
                           Return_on_Assets_compute Return_on_Equity_compute
                           Return_on_Invested_Capital_compute
                           Dividend_Yield_compute];
      rewrite Hfill; cbn [mbind option_bind]; rewrite Hw1;
      cbn [mbind option_bind last]; try exact Hcopy2; exact Hcopy1.
Qed.

Lemma nanfill_mutates_its_argument_witness :
  let h : heap :=
    <[1%nat := Arr2 [[of_Z 1; nan]]]> (<[0%nat := Arr1 [zero; zero]]> ∅) in
  h !! 1%nat = Some (Arr2 [[of_Z 1; nan]])
  /\ rectangular 2 [[of_Z 1; nan]]
  /\ exists h',
       nanfill 1%nat h = Some (1%nat, h')
       /\ h' !! 1%nat = Some (Arr2 (ffill <$> [[of_Z 1; nan]]))
       /\ nanfill_array [[of_Z 1; nan]] = Some (ffill <$> [[of_Z 1; nan]])
       /\ dom h' = dom h
       /\ forall l, l <> 1%nat -> h' !! l = h !! l.
Proof.
  intros h.
  assert (Hw : h !! 1%nat = Some (Arr2 [[of_Z 1; nan]])) by reflexivity.
  assert (Hr : rectangular 2 [[of_Z 1; nan]])
    by (constructor; [reflexivity|constructor]).
  split; [exact Hw|]. split; [exact Hr|].
  exact (proj1 (nanfill_mutates_its_argument h 1%nat [[of_Z 1; nan]] 2%nat
                  Hw Hr)).
Defined.

End InPlace.

(** ** The universe filter of the Magic Formula *)

Section UniverseFilter.
Import MagicFormula.

(** The sector comparison of [make_pipeline] is a Python constant. *)
Lemma not_Finan_and_Ulti_constant :
  (ne103 ← py_ne (PClass Sector_class) (PInt 103);
   ne207 ← py_ne (PClass Sector_class) (PInt 207);
   py_and ne103 ne207) = Some (PBool true).
Proof. reflexivity. Qed.

(** Had the script instantiated the classifier, the comparison would be a
    filter on the sector code. *)
Lemma sector_instance_filters (c : security -> Z) :
  (ne103 ← py_ne (PClassifier c) (PInt 103);
   ne207 ← py_ne (PClassifier c) (PInt 207);
   py_and ne103 ne207)
  = Some (PFilter (fun s => negb (c s =? 103) && negb (c s =? 207))).
Proof. reflexivity. Qed.

(** A financial company of two billion dollars of market capitalisation. *)
Definition a_bank : platform_data :=
  {| QTradableStocksUS := fun _ => true;
     Sector := fun _ => 103;
     market_cap_latest := fun _ => of_Z 2000000000 |}.

(** A utility of the same size. *)
Definition a_utility : platform_data :=
  {| QTradableStocksUS := fun _ => true;
     Sector := fun _ => 207;
     market_cap_latest := fun _ => of_Z 2000000000 |}.

(** C4 (the code departs from the claim).  The universe that
    [make_pipeline] builds is: tradable, sector known, market
    capitalisation above one billion.  The sector code itself is never
    consulted, because [Sector != 103] and [Sector != 207] compare the
    class [Sector] with an int and are [True]; a security of sector 103
    or of sector 207 that meets the other three conditions is a member of
    the universe. *)
Theorem sector_exclusion_keeps_financials_and_utilities :
  (forall (d : platform_data) (s : security),
     in_universe d s
     = Some (QTradableStocksUS d s && negb (Sector d s =? -1)
             && fgtb (market_cap_latest d s) (of_Z 1000000000)))
  /\ (forall s : security,
        Sector a_bank s = 103 /\ in_universe a_bank s = Some true)
  /\ (forall s : security,
        Sector a_utility s = 207 /\ in_universe a_utility s = Some true).
Proof.
  split; [|split].
  - intros d s. unfold in_universe, make_pipeline_universe. simpl.
    by rewrite andb_true_r.
  - intros s. split; [reflexivity|]. vm_compute. reflexivity.
  - intros s. split; [reflexivity|]. vm_compute. reflexivity.
Qed.

End UniverseFilter.

(** ** Sorting, [head] and [dropna] *)

Section PandasFacts.

Lemma insert_by_perm {A} (le : A -> A -> bool) (x : A) (l : list A) :
  Permutation (insert_by le x l) (x :: l).
Proof.
  induction l as [|y l IH]; simpl; [done|].
  destruct (le x y); [done|].
  rewrite IH. apply perm_swap.
Qed.

Lemma sort_by_perm {A} (le : A -> A -> bool) (l : list A) :
  Permutation (sort_by le l) l.
Proof.
  induction l as [|x l IH]; simpl; [done|].
  unfold sort_by in *. simpl. rewrite insert_by_perm. by constructor.
Qed.

Lemma filter_split_perm {A} (f : A -> bool) (l : list A) :
  Permutation (List.filter (fun x => negb (f x)) l ++ List.filter f l) l.
Proof.
  induction l as [|x l IH]; simpl; [done|].
  destruct (f x); simpl.
  - rewrite <- Permutation_middle. by constructor.
  - by constructor.
Qed.

Lemma sort_values_perm {A} (key : A -> float) (ascending : bool)
    (frame : list A) :
  Permutation (sort_values key ascending frame) frame.
Proof.
  unfold sort_values.
  etrans; [|apply (filter_split_perm (fun r => isnan (key r)))].
  apply Permutation_app_tail.
  destruct ascending.
  - apply sort_by_perm.
  - rewrite <- Permutation_rev, sort_by_perm. symmetry. apply Permutation_rev.
Qed.

Lemma insertion_sort_values_perm {A} (key : A -> Z) (ascending : bool)
    (frame : list A) :
  Permutation (insertion_sort_values key ascending frame) frame.
Proof.
  unfold insertion_sort_values. destruct ascending.
  - apply sort_by_perm.
  - rewrite <- Permutation_rev, sort_by_perm. symmetry. apply Permutation_rev.
Qed.

Lemma elem_of_head {A} (n : nat) (x : A) (frame : list A) :
  x ∈ head n frame -> x ∈ frame.
Proof. unfold head. apply subseteq_take. Qed.

Lemma elem_of_dropna {A} (columns : A -> list float) (x : A)
    (frame : list A) :
  x ∈ dropna columns frame ->
  x ∈ frame /\ Forall (fun v => isnan v = false) (columns x).
Proof.
  unfold dropna. intros H.
  apply list_elem_of_In, List.filter_In in H as [Hin Hcols].
  split; [by apply list_elem_of_In|].
  apply Forall_forall. intros v Hv.
  rewrite forallb_forall in Hcols.
  apply list_elem_of_In in Hv. specialize (Hcols v Hv).
  by apply negb_true_iff.
Qed.

End PandasFacts.

(** ** The weight of an empty selection *)

Section EmptySelection.

Lemma length_dropna {A} (columns : A -> list float) (frame : list A) :
  (length (dropna columns frame) <= length frame)%nat.
Proof. unfold dropna. apply List.filter_length_le. Qed.

Lemma length_head {A} (n : nat) (frame : list A) :
  (length (head n frame) <= n)%nat.
Proof. unfold head. rewrite length_take. lia. Qed.

Lemma buy_list_at_most_25 (output : list MagicFormula.row) :
  (length (MagicFormula.buy_list output) <= 25)%nat.
Proof.
  unfold MagicFormula.buy_list.
  etrans; [apply length_dropna|apply length_head].
Qed.

Lemma long_list_at_most_25 (output : list ValueLongOnly.row) :
  (length (ValueLongOnly.long_list output) <= 25)%nat.
Proof.
  unfold ValueLongOnly.long_list.
  etrans; [apply length_dropna|apply length_head].
Qed.

(** The weight of a selection of at most 25 securities: zero when it is
    empty, and otherwise [1.0/n] clamped to 0.04, which is 0.04. *)
Lemma magic_weight_value (bl : list MagicFormula.row) :
  (length bl <= 25)%nat ->
  MagicFormula.weight bl
  = Some (if decide (length bl = 0%nat) then PyInt 0
          else PyFloat (decimal 4 2)).
Proof.
  unfold MagicFormula.weight. generalize (length bl). intros n Hn.
  do 26 (destruct n as [|n]; [vm_compute; reflexivity|]). lia.
Qed.

Lemma value_weight_value (ll : list ValueLongOnly.row) :
  (length ll <= 25)%nat ->
  ValueLongOnly.long_weight ll
  = Some (if decide (length ll = 0%nat) then PyInt 0
          else PyFloat (decimal 4 2)).
Proof.
  unfold ValueLongOnly.long_weight. generalize (length ll). intros n Hn.
  do 26 (destruct n as [|n]; [vm_compute; reflexivity|]). lia.
Qed.

(** C8.  A Python float division by zero raises; the two allocators
    never raise, whatever the pipeline output: they test the length of
    the selection and, when it is empty, set the weight to [0] without
    dividing.  With an empty selection the Magic Formula places no buy
    order, and the value strategy places only its liquidation orders
    (target 0) for the tradable positions. *)
Theorem empty_selection_gets_weight_zero :
  (forall x : float, py_truediv x (of_Z 0) = None)
  /\ (forall output : list MagicFormula.row,
        exists w,
          MagicFormula.before_trading_start output
          = Some (MagicFormula.buy_list output, w))
  /\ MagicFormula.before_trading_start [] = Some ([], PyInt 0)
  /\ MagicFormula.weight [] = Some (PyInt 0)
  /\ (forall (month : Z) (w : pynum) (can_trade : security -> bool),
        MagicFormula.buying_in_January month [] w can_trade = [])
  /\ (forall (output : list ValueLongOnly.row) (positions : list security)
             (can_trade : security -> bool),
        exists orders,
          ValueLongOnly.rebalance (ValueLongOnly.long_list output)
            positions can_trade = Some orders)
  /\ ValueLongOnly.long_weight [] = Some (PyInt 0)
  /\ (forall (positions : list security) (can_trade : security -> bool),
        ValueLongOnly.rebalance [] positions can_trade
        = Some ((fun s => OrderTarget s 0)
                  <$> List.filter can_trade positions)).
Proof.
  repeat split; try reflexivity.
  - intros output. unfold MagicFormula.before_trading_start.
    rewrite magic_weight_value by apply buy_list_at_most_25.
    eexists. reflexivity.
  - intros month w can_trade. unfold MagicFormula.buying_in_January.
    by destruct (decide (month = 1)).
  - intros output positions can_trade. unfold ValueLongOnly.rebalance.
    rewrite value_weight_value by apply long_list_at_most_25.
    eexists. reflexivity.
Qed.

End EmptySelection.

(** ** Liquidation of the positions that left the selection *)

Section Liquidation.

(** The value strategy sells a held security that left the selection
    exactly when the platform reports it tradable. *)
Lemma value_rebalance_liquidates (ll : list ValueLongOnly.row)
    (positions : list security) (can_trade : security -> bool)
    (orders : list order) (s : security) :
  ValueLongOnly.rebalance ll positions can_trade = Some orders ->
  s ∈ positions -> s ∉ ValueLongOnly.sec <$> ll ->
  (can_trade s = true -> OrderTarget s 0 ∈ orders)
  /\ (can_trade s = false -> forall o, o ∈ orders -> order_security o <> s).
Proof.
  unfold ValueLongOnly.rebalance. intros H Hpos Hsel.
  destruct (ValueLongOnly.long_weight ll) as [w|]; [|done].
  simpl in H. injection H as <-. split.
  - intros Hct. apply elem_of_app. right.
    apply (list_elem_of_fmap_2 (fun s => OrderTarget s 0)).
    apply list_elem_of_In, List.filter_In. split; [by apply list_elem_of_In|].
    rewrite Hct, andb_true_r. apply negb_true_iff.
    by apply bool_decide_eq_false.
  - intros Hct o Ho Heq. apply elem_of_app in Ho as [Ho|Ho].
    + apply list_elem_of_fmap in Ho as (t & -> & Ht). simpl in Heq. subst t.
      apply list_elem_of_In, List.filter_In in Ht as [_ Ht]. congruence.
    + apply list_elem_of_fmap in Ho as (t & -> & Ht). simpl in Heq. subst t.
      apply list_elem_of_In, List.filter_In in Ht as [_ Ht].
      rewrite Hct, andb_false_r in Ht. done.
Qed.

(** The state of the long/short strategy on a month end with both
    selections empty. *)
Definition nothing_selected : Piotroski.context :=
  {| Piotroski.is_month_end := true;
     Piotroski.results := Some [];
     Piotroski.long_stocks := Some [];
     Piotroski.short_stocks := Some [] |}.

(** C9 (the code departs from the claim).  [trade] of the long/short
    strategy never consults the platform's tradability report: its orders
    are the same whatever [can_trade] answers, so a held security that
    left both selections and is reported as not tradable still gets an
    [order_target_percent(stock, 0)].  (The value strategy's [rebalance]
    does skip it, [value_rebalance_liquidates].) *)
Theorem trade_orders_untradable_positions :
  (forall (ctx : Piotroski.context) (positions : list security)
          (can_trade can_trade' : security -> bool),
     Piotroski.trade ctx positions can_trade
     = Piotroski.trade ctx positions can_trade')
  /\ (forall ctx' : Piotroski.context,
        Piotroski.trade nothing_selected [7%nat] (fun _ => false)
        <> Some (ctx', []))
  /\ Piotroski.trade nothing_selected [7%nat] (fun _ => false)
     = Some ({| Piotroski.is_month_end := false;
                Piotroski.results := Some [];
                Piotroski.long_stocks := Some [];
                Piotroski.short_stocks := Some [] |},
             [OrderTargetPercent 7%nat (PyInt 0)]).
Proof.
  split; [reflexivity|]. split; [|reflexivity].
  intros ctx' H. vm_compute in H. congruence.
Qed.

End Liquidation.

(** ** The yearly strategy: anchor month and weights *)

Section YearlyRebalance.
Import BlackCat.

(** The weight of every position: the double-precision quotient
    [0.99/25]. *)
Definition weight_25 : float := fdiv (decimal 99 2) (of_Z 25).

Lemma weight_25_division : py_truediv (decimal 99 2) (of_Z 25) = Some weight_25.
Proof. vm_compute. reflexivity. Qed.

(** The map the loop of [rebalance] builds when no division raises. *)
Definition filled (can_trade : security -> bool) (l : list security)
    (w : gmap security float) : gmap security float :=
  foldl (fun m s => if can_trade s then <[s := weight_25]> m else m) w l.

Lemma assign_weights_25 (can_trade : security -> bool) (l : list security)
    (w : gmap security float) :
  assign_weights 25 can_trade l w = Some (filled can_trade l w).
Proof.
  revert w; induction l as [|s l IH]; intros w; cbn [assign_weights];
    [done|].
  unfold filled. cbn [foldl].
  destruct (can_trade s); [|apply IH].
  rewrite weight_25_division. cbn [mbind option_bind]. apply IH.
Qed.

Lemma filled_lookup (can_trade : security -> bool) (l : list security)
    (w : gmap security float) (s : security) :
  filled can_trade l w !! s
  = if bool_decide (s ∈ l) && can_trade s then Some weight_25 else w !! s.
Proof.
  revert w; induction l as [|t l IH]; intros w; simpl; [done|].
  unfold filled in *. simpl. rewrite IH. clear IH.
  destruct (decide (s = t)) as [->|Hne].
  - rewrite (bool_decide_eq_true_2 (t ∈ t :: l)) by apply list_elem_of_here.
    destruct (can_trade t) eqn:Ht; simpl.
    + rewrite andb_true_r. rewrite lookup_insert_eq.
      by destruct (bool_decide (t ∈ l)).
    + by rewrite andb_false_r.
  - assert (E : bool_decide (s ∈ t :: l) = bool_decide (s ∈ l)).
    { apply bool_decide_ext. rewrite elem_of_cons.
      split; [intros [Heq|Hin]; [by destruct Hne|done]|by right]. }
    rewrite E. destruct (bool_decide (s ∈ l) && can_trade s); [done|].
    destruct (can_trade t); [by rewrite lookup_insert_ne|done].
Qed.

Lemma filled_size (can_trade : security -> bool) (l : list security)
    (w : gmap security float) :
  (size (filled can_trade l w) <= size w + length l)%nat.
Proof.
  revert w; induction l as [|t l IH]; intros w; simpl; [lia|].
  unfold filled in *. simpl. etrans; [apply IH|].
  destruct (can_trade t); [|lia].
  destruct (w !! t) as [x|] eqn:Hx.
  - rewrite map_size_insert_Some by eauto. lia.
  - rewrite map_size_insert_None by done. lia.
Qed.

(** What one call of [rebalance] does once the pipeline output is there. *)
Lemma rebalance_result (ctx : context) (month : Z)
    (can_trade : security -> bool) (out : list row) (l : list security) :
  NUM_STOCKS_TO_BUY ctx = 25 -> output ctx = Some out ->
  security_list ctx = Some l ->
  rebalance ctx month can_trade
  = Some
      (if (month_to_run ctx =? -1) || (month_to_run ctx =? month) then
         ({| month_to_run :=
               if month_to_run ctx =? -1 then month else month_to_run ctx;
             NUM_STOCKS_TO_BUY := 25;
             output := Some out;
             security_list := Some l;
             weights := Some (filled can_trade l ∅) |},
          Some (filled can_trade l ∅))
       else
         ({| month_to_run := month_to_run ctx;
             NUM_STOCKS_TO_BUY := 25;
             output := Some out;
             security_list := Some l;
             weights := weights ctx |},
          None)).
Proof.
  intros Hn Ho Hl. unfold rebalance.
  destruct (month_to_run ctx =? -1) eqn:E1; simpl.
  - rewrite Ho, Hl, Hn. simpl. by rewrite assign_weights_25.
  - destruct (month_to_run ctx =? month) eqn:E2; simpl.
    + rewrite Ho, Hl, Hn. simpl. by rewrite assign_weights_25.
    + by rewrite Ho, Hl, Hn.
Qed.

(** One day of the platform's calls, from a context whose
    [NUM_STOCKS_TO_BUY] is still 25. *)
Lemma run_day_result (ctx : context) (d : day) :
  NUM_STOCKS_TO_BUY ctx = 25 ->
  exists ctx' log,
    run_day ctx d = Some (ctx', log)
    /\ NUM_STOCKS_TO_BUY ctx' = 25
    /\ (rebalance_scheduled d = false ->
        log = [] /\ month_to_run ctx' = month_to_run ctx)
    /\ (rebalance_scheduled d = true ->
        exists sub,
          log = [{| inv_month := today_month d; submitted := sub |}]
          /\ month_to_run ctx'
             = (if month_to_run ctx =? -1 then today_month d
                else month_to_run ctx)
          /\ (is_Some sub <->
              month_to_run ctx = -1 \/ month_to_run ctx = today_month d)).
Proof.
  intros Hn. unfold run_day.
  destruct (rebalance_scheduled d) eqn:Hs.
  - erewrite rebalance_result; [|exact Hn|reflexivity|reflexivity].
    cbn [before_trading_start month_to_run mbind option_bind].
    destruct (month_to_run ctx =? -1) eqn:E1; cbn [orb].
    + eexists _, _. split; [reflexivity|]. split; [reflexivity|].
      split; [done|]. intros _. eexists. split; [reflexivity|].
      split; [reflexivity|]. split; [intros _; left; lia|eauto].
    + destruct (month_to_run ctx =? today_month d) eqn:E2.
      * eexists _, _. split; [reflexivity|]. split; [reflexivity|].
        split; [done|]. intros _. eexists. split; [reflexivity|].
        split; [reflexivity|]. split; [intros _; right; lia|eauto].
      * eexists _, _. split; [reflexivity|]. split; [reflexivity|].
        split; [done|]. intros _. eexists. split; [reflexivity|].
        split; [reflexivity|].
        split; [intros [? ?]; done|intros [?|?]; lia].
  - eexists _, _. split; [reflexivity|]. split; [exact Hn|].
    split; [done|done].
Qed.

(** Once the anchor month is recorded, a call submits orders exactly in
    that month, and the anchor never changes. *)
Lemma run_anchored (days : list day) (ctx : context) (m0 : Z) :
  NUM_STOCKS_TO_BUY ctx = 25 -> month_to_run ctx = m0 -> m0 <> -1 ->
  exists ctx' log,
    run ctx days = Some (ctx', log)
    /\ month_to_run ctx' = m0
    /\ inv_month <$> log
       = today_month <$> List.filter rebalance_scheduled days
    /\ Forall (fun i => is_Some (submitted i) <-> inv_month i = m0) log.
Proof.
  revert ctx; induction days as [|d days IH]; intros ctx Hn Hm Hne.
  - eexists _, _. split; [reflexivity|]. by repeat split.
  - destruct (run_day_result ctx d Hn)
      as (ctx1 & log1 & Hrun & Hn1 & Hoff & Hon).
    cbn [run]. rewrite Hrun. cbn [mbind option_bind].
    assert (Hm1 : month_to_run ctx1 = m0).
    { destruct (rebalance_scheduled d) eqn:Hs.
      - destruct (Hon eq_refl) as (sub & _ & -> & _).
        destruct (Z.eqb_spec (month_to_run ctx) (-1)); congruence.
      - destruct (Hoff eq_refl) as [_ ->]. done. }
    destruct (IH ctx1 Hn1 Hm1 Hne)
      as (ctx2 & log2 & Hrun2 & Hm2 & Hlog2 & Hall).
    rewrite Hrun2. cbn [mbind option_bind].
    eexists _, _. split; [reflexivity|]. split; [exact Hm2|].
    cbn [List.filter]. destruct (rebalance_scheduled d) eqn:Hs.
    + destruct (Hon eq_refl) as (sub & -> & _ & Hfire).
      split; [cbn; by rewrite Hlog2|].
      constructor; [|exact Hall]. cbn. rewrite Hfire, Hm.
      split; [intros [?|?]; congruence|auto].
    + destruct (Hoff eq_refl) as [-> _]. by split.
Qed.

(** C5.  Started from [initialize], whatever days the platform schedules:
    the first call of [rebalance] submits orders and records its calendar
    month as the anchor; every later call submits orders if and only if
    its calendar month is that anchor, which is still the recorded month
    at the end.  (The log has one entry per scheduled call, in order.) *)
Theorem rebalance_fires_only_in_anchor_month (days : list day) :
  Forall (fun d => 1 <= today_month d <= 12) days ->
  exists ctx log,
    run initialize days = Some (ctx, log)
    /\ inv_month <$> log
       = today_month <$> List.filter rebalance_scheduled days
    /\ match log with
       | [] => month_to_run ctx = -1
       | first :: later =>
           is_Some (submitted first)
           /\ month_to_run ctx = inv_month first
           /\ Forall (fun i => is_Some (submitted i)
                               <-> inv_month i = inv_month first)
                later
       end.
Proof.
  assert (Hgen : forall ctx,
             NUM_STOCKS_TO_BUY ctx = 25 -> month_to_run ctx = -1 ->
             Forall (fun d => 1 <= today_month d <= 12) days ->
             exists ctx' log,
               run ctx days = Some (ctx', log)
               /\ inv_month <$> log
                  = today_month <$> List.filter rebalance_scheduled days
               /\ match log with
                  | [] => month_to_run ctx' = -1
                  | first :: later =>
                      is_Some (submitted first)
                      /\ month_to_run ctx' = inv_month first
                      /\ Forall (fun i => is_Some (submitted i)
                                          <-> inv_month i = inv_month first)
                           later
                  end).
  { induction days as [|d days IH]; intros ctx Hn Hm Hvalid.
    - eexists _, _. split; [reflexivity|]. by split.
    - inversion Hvalid as [|? ? Hd Hrest]; subst.
      destruct (run_day_result ctx d Hn)
        as (ctx1 & log1 & Hrun & Hn1 & Hoff & Hon).
      cbn [run]. rewrite Hrun. cbn [mbind option_bind].
      cbn [List.filter]. destruct (rebalance_scheduled d) eqn:Hs.
      + destruct (Hon eq_refl) as (sub & -> & Hm1 & Hfire).
        rewrite Hm in Hm1. cbn in Hm1.
        destruct (run_anchored days ctx1 (today_month d) Hn1 Hm1)
          as (ctx2 & log2 & Hrun2 & Hm2 & Hlog2 & Hall); [lia|].
        rewrite Hrun2. cbn [mbind option_bind].
        eexists _, _. split; [reflexivity|].
        split; [cbn; by rewrite Hlog2|].
        cbn. split; [apply Hfire; by left|]. by split.
      + destruct (Hoff eq_refl) as [-> Hm1].
        destruct (IH ctx1 Hn1 (eq_trans Hm1 Hm) Hrest)
          as (ctx2 & log2 & Hrun2 & Hlog2 & Hmatch).
        rewrite Hrun2. cbn [mbind option_bind].
        eexists _, _. split; [reflexivity|]. by split. }
  intros Hvalid. by apply Hgen.
Qed.

(** Three scheduled calls: January, February, January of the next year. *)
Definition one_row : list row :=
  [{| sec := 1%nat; ebit_ttm := of_Z 10; ebit_ttm_asof_date := 0;
      ev := of_Z 50; ev_over_ebit := of_Z 5 |}].

Definition three_calls : list day :=
  (fun m => {| pipeline_output := one_row; rebalance_scheduled := true;
               today_month := m; can_trade := fun _ => true |})
    <$> [1; 2; 1].

Lemma rebalance_fires_only_in_anchor_month_witness :
  Forall (fun d => 1 <= today_month d <= 12) three_calls
  /\ exists ctx log,
       run initialize three_calls = Some (ctx, log)
       /\ inv_month <$> log
          = today_month <$> List.filter rebalance_scheduled three_calls
       /\ match log with
          | [] => month_to_run ctx = -1
          | first :: later =>
              is_Some (submitted first)
              /\ month_to_run ctx = inv_month first
              /\ Forall (fun i => is_Some (submitted i)
                                  <-> inv_month i = inv_month first)
                   later
          end.
Proof.
  assert (H : Forall (fun d => 1 <= today_month d <= 12) three_calls)
    by (repeat constructor; cbn; lia).
  split; [exact H|].
  exact (rebalance_fires_only_in_anchor_month three_calls H).
Defined.

Lemma all_equal_replicate {A} (x : A) (l : list A) :
  Forall (fun y => y = x) l -> l = replicate (length l) x.
Proof. induction 1 as [|y l -> _ IH]; simpl; [done|]. by rewrite <- IH. Qed.

(** C6, as the code has it.  A call of [rebalance] that submits a map
    gives it exactly one entry per tradable security of
    [context.security_list], each holding the double-precision quotient
    [0.99/25] (the double next below 0.0396): with [k] such securities
    the weights are [k] copies of that value.  They add up to 0.99 only
    approximately, and only when [k = 25]: 25 copies, added from left to
    right, reach the double five units in the last place below 0.99. *)
Theorem weights_are_equal_per_tradable_security
    (ctx : context) (month : Z) (can_trade : security -> bool)
    (out : list row) (l : list security) :
  NUM_STOCKS_TO_BUY ctx = 25 -> output ctx = Some out ->
  security_list ctx = Some l ->
  exists ctx' sub,
    rebalance ctx month can_trade = Some (ctx', sub)
    /\ (forall m, sub = Some m ->
          (forall s, m !! s = if bool_decide (s ∈ l) && can_trade s
                              then Some (fdiv (decimal 99 2) (of_Z 25))
                              else None)
          /\ (map_to_list m).*2
             = replicate (size m) (fdiv (decimal 99 2) (of_Z 25))
          /\ (size m <= length l)%nat)
    /\ SFsucc prec emax (fdiv (decimal 99 2) (of_Z 25)) = decimal 396 4
    /\ Nat.iter 5 (SFsucc prec emax)
         (fsum (replicate 25 (fdiv (decimal 99 2) (of_Z 25))))
       = decimal 99 2.
Proof.
  intros Hn Ho Hl.
  rewrite (rebalance_result ctx month can_trade out l Hn Ho Hl).
  destruct (_ || _); (eexists _, _; split; [reflexivity|]);
    (split; [|split; vm_compute; reflexivity]); intros m Hm; [|done].
  assert (Em : m = filled can_trade l ∅) by congruence.
  subst m. clear Hm.
  assert (Hlook : forall s,
             filled can_trade l ∅ !! s
             = if bool_decide (s ∈ l) && can_trade s
               then Some weight_25 else None).
  { intros s. rewrite filled_lookup. by rewrite lookup_empty. }
  split; [exact Hlook|]. split.
  - replace (size (filled can_trade l ∅))
      with (length ((map_to_list (filled can_trade l ∅)).*2))
      by (by rewrite length_fmap, length_map_to_list).
    apply all_equal_replicate. apply Forall_fmap, Forall_forall.
    intros [s x] Hsx. apply elem_of_map_to_list in Hsx.
    change (x = fdiv (decimal 99 2) (of_Z 25)).
    rewrite Hlook in Hsx. unfold weight_25 in Hsx.
    destruct (_ && _); congruence.
  - pose proof (filled_size can_trade l ∅) as Hs.
    rewrite map_size_empty in Hs. lia.
Qed.

(** Twenty-five securities in the pipeline output, the last one not
    tradable on the day of the rebalance. *)
Definition frame25 : list row :=
  (fun s => {| sec := s; ebit_ttm := of_Z 1; ebit_ttm_asof_date := 0;
               ev := of_Z (Z.of_nat s); ev_over_ebit := of_Z (Z.of_nat s) |})
    <$> seq 1 25.

Definition all_but_25 (s : security) : bool := negb (Nat.eqb s 25).

Lemma weights_are_equal_per_tradable_security_witness :
  let ctx := before_trading_start initialize frame25 in
  NUM_STOCKS_TO_BUY ctx = 25
  /\ output ctx = Some (sort_values ev_over_ebit true frame25)
  /\ security_list ctx = Some (seq 1 25)
  /\ exists ctx' sub,
       rebalance ctx 1 all_but_25 = Some (ctx', sub)
       /\ (forall m, sub = Some m ->
             (forall s, m !! s = if bool_decide (s ∈ seq 1 25)
                                    && all_but_25 s
                                 then Some (fdiv (decimal 99 2) (of_Z 25))
                                 else None)
             /\ (map_to_list m).*2
                = replicate (size m) (fdiv (decimal 99 2) (of_Z 25))
             /\ (size m <= length (seq 1 25))%nat)
       /\ SFsucc prec emax (fdiv (decimal 99 2) (of_Z 25)) = decimal 396 4
       /\ Nat.iter 5 (SFsucc prec emax)
            (fsum (replicate 25 (fdiv (decimal 99 2) (of_Z 25))))
          = decimal 99 2.
Proof.
  intros ctx.
  assert (Hn : NUM_STOCKS_TO_BUY ctx = 25) by reflexivity.
  assert (Ho : output ctx = Some (sort_values ev_over_ebit true frame25))
    by reflexivity.
  assert (Hl : security_list ctx = Some (seq 1 25))
    by (vm_compute; reflexivity).
  split; [exact Hn|]. split; [exact Ho|]. split; [exact Hl|].
  exact (weights_are_equal_per_tradable_security ctx 1 all_but_25 _ _
           Hn Ho Hl).
Defined.

(** C6 as stated fails: with 25 securities selected and one of them not
    tradable, the first rebalance submits 24 weights, and they add up to
    less than 0.96, not to 0.99. *)
Lemma weights_sum_counterexample :
  exists ctx' m,
    rebalance (before_trading_start initialize frame25) 1 all_but_25
    = Some (ctx', Some m)
    /\ size m = 24%nat
    /\ fsum ((map_to_list m).*2) <> decimal 99 2
    /\ fltb (fsum ((map_to_list m).*2)) (decimal 96 2) = true.
Proof.
  eexists _, _. split; [vm_compute; reflexivity|].
  split; [vm_compute; reflexivity|].
  split; [vm_compute; congruence|vm_compute; reflexivity].
Qed.

End YearlyRebalance.

(** ** The ratio factor *)

Section RatioFactor.

(** The platform's [rank] gives a rank that is not NaN only to a
    position holding a value that is not NaN. *)
Definition rank_propagates_nan
    (rank : bool -> list bool -> list float -> list float) : Prop :=
  forall ascending mask data k x,
    rank ascending mask data !! k = Some x -> isnan x = false ->
    exists y, data !! k = Some y /\ isnan y = false.

(** The platform's ranking function, known only to propagate NaN. *)
Variable rank : bool -> list bool -> list float -> list float.
Hypothesis rank_nan : rank_propagates_nan rank.

Lemma fdiv_nan_cases (x y : float) :
  isnan x = true \/ isnan y = true \/ (is_zero x = true /\ is_zero y = true) ->
  fdiv x y = nan.
Proof.
  intros [Hx|[Hy|[Hx Hy]]].
  - apply isnan_true in Hx as ->. apply fdiv_nan_l.
  - apply isnan_true in Hy as ->. apply fdiv_nan_r.
  - by destruct x, y.
Qed.

(** A number other than zero over zero is an infinity. *)
Lemma fdiv_by_zero (x y : float) :
  is_zero y = true -> isnan x = false -> is_zero x = false ->
  exists sign, fdiv x y = S754_infinity sign.
Proof. destruct x, y; try done; intros _ _ _; cbn; eauto. Qed.

Lemma fadd_present (x y : float) :
  isnan (fadd x y) = false -> isnan x = false /\ isnan y = false.
Proof. destruct x, y; try done. Qed.

Lemma fdiv_present_l (x y : float) :
  isnan (fdiv x y) = false -> isnan x = false.
Proof. by destruct x. Qed.

(** The two scripts define the same [Earnings_Yield]; it never raises on
    two windows of one shape. *)
Lemma Earnings_Yield_compute_value (ebit ev : list (list float))
    (n d : list float) :
  last ebit = Some n -> last ev = Some d -> length n = length d ->
  MagicFormula.Earnings_Yield_compute ebit ev = Some (zip_with fdiv n d)
  /\ ValueLongOnly.Earnings_Yield_compute ebit ev
     = Some (zip_with fdiv n d).
Proof.
  intros Hn Hd Hlen.
  unfold MagicFormula.Earnings_Yield_compute,
    ValueLongOnly.Earnings_Yield_compute,
    MagicFormula.np_divide, ValueLongOnly.np_divide.
  rewrite Hn, Hd. cbn [mbind option_bind].
  by rewrite decide_True.
Qed.

(** Each row of the Magic Formula frame carries the factor value of its
    asset. *)
Lemma magic_output_row
    (assets : list security) (universe : list bool)
    (ey roic : list float) (r : MagicFormula.row) :
  r ∈ MagicFormula.pipeline_output rank assets universe ey roic ->
  exists k, assets !! k = Some (MagicFormula.sec r)
            /\ MagicFormula.earnings_yield r = default nan (ey !! k).
Proof.
  unfold MagicFormula.pipeline_output. intros H.
  apply list_elem_of_fmap in H as ([b r'] & -> & H).
  apply list_elem_of_In, List.filter_In in H as [H _].
  apply list_elem_of_In, elem_of_lookup_imap in H as (k & s & E & Hk).
  injection E as _ ->. by exists k.
Qed.

(** A security whose earnings yield is NaN is never in the buy list of
    the Magic Formula, whatever ranks the platform computes. *)
Lemma magic_nan_not_selected
    (assets : list security) (universe : list bool)
    (ey roic : list float) (k : nat) (s : security) :
  NoDup assets -> assets !! k = Some s -> ey !! k = Some nan ->
  s ∉ MagicFormula.sec
        <$> MagicFormula.buy_list
              (MagicFormula.pipeline_output rank assets universe ey roic).
Proof.
  intros Hnd Hk Hnan Hin.
  apply list_elem_of_fmap in Hin as (r & -> & Hr).
  unfold MagicFormula.buy_list in Hr.
  apply elem_of_dropna in Hr as [Hr Hcols].
  apply elem_of_head in Hr.
  rewrite sort_values_perm in Hr.
  apply magic_output_row in Hr as (j & Hj & Hey).
  assert (j = k) as -> by (by eapply NoDup_lookup).
  rewrite Hnan in Hey. cbn in Hey.
  inversion Hcols as [|? ? Hc _]; subst. by rewrite Hey in Hc.
Qed.

Lemma value_score_present
    (universe : list bool) (pb pe dy roa roe roic ey : list float)
    (k : nat) (x : float) :
  ValueLongOnly.the_ranking_score rank universe pb pe dy roa roe roic ey !! k
  = Some x ->
  isnan x = false ->
  exists y, rank false universe ey !! k = Some y /\ isnan y = false.
Proof.
  unfold ValueLongOnly.the_ranking_score. intros H Hx.
  apply list_lookup_fmap_Some in H as (t & -> & H).
  apply fdiv_present_l in Hx.
  apply lookup_zip_with_Some in H as (a & y & -> & _ & Hy).
  apply fadd_present in Hx as [_ Hx]. eauto.
Qed.

Lemma value_output_row
    (assets : list security) (universe volatility_top : list bool)
    (momentum pb pe dy roa roe roic ey : list float)
    (r : ValueLongOnly.row) :
  r ∈ ValueLongOnly.pipeline_output rank assets universe volatility_top
        momentum pb pe dy roa roe roic ey ->
  exists k,
    assets !! k = Some (ValueLongOnly.sec r)
    /\ ValueLongOnly.ranking_score r
       = default nan
           (rank true universe
              (ValueLongOnly.the_ranking_score rank universe
                 pb pe dy roa roe roic ey) !! k).
Proof.
  unfold ValueLongOnly.pipeline_output. intros H.
  apply list_elem_of_fmap in H as ([b r'] & -> & H).
  apply list_elem_of_In, List.filter_In in H as [H _].
  apply list_elem_of_In, elem_of_lookup_imap in H as (k & s & E & Hk).
  injection E as _ ->. by exists k.
Qed.

(** The same for the long list of the value strategy, given that the
    platform's [rank] propagates NaN. *)
Lemma value_nan_not_selected
    (assets : list security) (universe volatility_top : list bool)
    (momentum pb pe dy roa roe roic ey : list float)
    (k : nat) (s : security) :
  NoDup assets -> assets !! k = Some s -> ey !! k = Some nan ->
  s ∉ ValueLongOnly.sec
        <$> ValueLongOnly.long_list
              (ValueLongOnly.pipeline_output rank assets universe
                 volatility_top momentum pb pe dy roa roe roic ey).
Proof.
  intros Hnd Hk Hnan Hin.
  apply list_elem_of_fmap in Hin as (r & -> & Hr).
  unfold ValueLongOnly.long_list in Hr.
  apply elem_of_dropna in Hr as [Hr Hcols].
  apply elem_of_head in Hr.
  rewrite sort_values_perm in Hr.
  apply value_output_row in Hr as (j & Hj & Hscore).
  assert (j = k) as -> by (by eapply NoDup_lookup).
  inversion Hcols as [|? ? Hc _]; subst.
  rewrite Hscore in Hc.
  destruct (rank true universe _ !! k) as [x|] eqn:Hx; [|done].
  cbn in Hc.
  destruct (rank_nan _ _ _ _ _ Hx Hc) as (y & Hy & Hyn).
  destruct (value_score_present _ _ _ _ _ _ _ _ _ _ Hy Hyn)
    as (z & Hz & Hzn).
  destruct (rank_nan _ _ _ _ _ Hz Hzn) as (e & He & Hen).
  rewrite Hnan in He. by injection He as <-.
Qed.

(** C3, as the code has it.  On two windows of one shape
    [Earnings_Yield.compute] never raises and writes the IEEE quotient of
    the last rows.  For a security whose numerator is NaN, whose
    denominator is NaN, or whose numerator and denominator are both zero,
    that quotient is NaN, and the security is in neither strategy's
    selection (the Magic Formula's [buy_list], the value strategy's
    [long_list]), whatever the other columns are.  A zero denominator
    under a numerator that is neither zero nor NaN gives an infinity, not
    NaN. *)
Theorem ratio_factor_nan_cases
    (ebit ev : list (list float)) (n d : list float) :
  last ebit = Some n -> last ev = Some d -> length n = length d ->
  exists out,
    MagicFormula.Earnings_Yield_compute ebit ev = Some out
    /\ ValueLongOnly.Earnings_Yield_compute ebit ev = Some out
    /\ forall k x y,
         n !! k = Some x -> d !! k = Some y ->
         out !! k = Some (fdiv x y)
         /\ (isnan x = true \/ isnan y = true
             \/ (is_zero x = true /\ is_zero y = true) ->
             out !! k = Some nan
             /\ forall assets s,
                  NoDup assets -> assets !! k = Some s ->
                  (forall universe roic,
                     s ∉ MagicFormula.sec
                           <$> MagicFormula.buy_list
                                 (MagicFormula.pipeline_output rank assets
                                    universe out roic))
                  /\ (forall universe volatility_top momentum
                             pb pe dy roa roe roic,
                        s ∉ ValueLongOnly.sec
                              <$> ValueLongOnly.long_list
                                    (ValueLongOnly.pipeline_output rank
                                       assets universe volatility_top
                                       momentum pb pe dy roa roe roic out)))
         /\ (is_zero y = true -> isnan x = false -> is_zero x = false ->
             exists sign, out !! k = Some (S754_infinity sign)).
Proof.
  intros Hn Hd Hlen.
  destruct (Earnings_Yield_compute_value ebit ev n d Hn Hd Hlen) as [Hm Hv].
  exists (zip_with fdiv n d). split; [exact Hm|]. split; [exact Hv|].
  intros k x y Hx Hy.
  assert (Hout : zip_with fdiv n d !! k = Some (fdiv x y)).
  { apply lookup_zip_with_Some. eauto. }
  split; [exact Hout|]. split.
  - intros Hcase. rewrite (fdiv_nan_cases x y Hcase) in Hout.
    split; [exact Hout|]. intros assets s Hnd Hs. split.
    + intros universe roic. by eapply magic_nan_not_selected.
    + intros. by eapply value_nan_not_selected.
  - intros Hy0 Hx1 Hx2.
    destruct (fdiv_by_zero x y Hy0 Hx1 Hx2) as [sign E].
    exists sign. by rewrite <- E.
Qed.

End RatioFactor.

(** *** Instances *)

Section RatioFactorInstances.

(** A stand-in for the platform's [rank]: every value that is not NaN is
    ranked first. *)
Definition all_first (ascending : bool) (mask : list bool)
    (data : list float) : list float :=
  (fun x => if isnan x then nan else of_Z 1) <$> data.

Lemma all_first_propagates_nan : rank_propagates_nan all_first.
Proof.
  intros ascending mask data k x H Hx. unfold all_first in H.
  apply list_lookup_fmap_Some in H as (y & -> & Hy).
  exists y. split; [done|]. by destruct (isnan y).
Qed.

Lemma ratio_factor_nan_cases_witness :
  rank_propagates_nan all_first
  /\ last [[of_Z 1; nan]] = Some [of_Z 1; nan]
  /\ last [[zero; of_Z 2]] = Some [zero; of_Z 2]
  /\ length [of_Z 1; nan] = length [zero; of_Z 2]
  /\ exists out,
       MagicFormula.Earnings_Yield_compute [[of_Z 1; nan]] [[zero; of_Z 2]]
       = Some out
       /\ out = [pos_inf; nan].
Proof.
  split; [exact all_first_propagates_nan|].
  split; [reflexivity|]. split; [reflexivity|]. split; [reflexivity|].
  destruct (ratio_factor_nan_cases all_first all_first_propagates_nan
              [[of_Z 1; nan]] [[zero; of_Z 2]] [of_Z 1; nan] [zero; of_Z 2]
              eq_refl eq_refl eq_refl)
    as (out & Hm & _ & _).
  exists out. split; [exact Hm|].
  vm_compute in Hm. injection Hm as <-. reflexivity.
Defined.

(** C3 as stated fails: with EBIT = 1 and enterprise value = 0 the
    factor is +infinity, not NaN, and the security, ranked first on both
    factors, is in the buy list. *)
Lemma zero_denominator_counterexample :
  exists out,
    MagicFormula.Earnings_Yield_compute [[of_Z 1]] [[zero]] = Some out
    /\ out !! 0%nat = Some pos_inf
    /\ out !! 0%nat <> Some nan
    /\ 7%nat ∈ MagicFormula.sec
               <$> MagicFormula.buy_list
                     (MagicFormula.pipeline_output all_first [7%nat] [true]
                        out [of_Z 1]).
Proof.
  exists [pos_inf]. split; [reflexivity|]. split; [reflexivity|].
  split; [discriminate|]. vm_compute. apply list_elem_of_here.
Qed.

End RatioFactorInstances.

(** ** The long/short selection *)

Section LongShort.
Import Piotroski.

Lemma astype_int_range (b : bool) : 0 <= astype_int b <= 1.
Proof. destruct b; simpl; lia. Qed.

(** The composite score is an integer between 0 and 9. *)
Lemma piotroski_score_range (f : fundamentals) : 0 <= piotroski_score f <= 9.
Proof.
  unfold piotroski_score, ROA, ROAChange, CashFlow, CashFlowFromOps,
    LongTermDebtRatioChange, CurrentDebtRatioChange, SharesOutstandingChange,
    GrossMarginChange, AssetsTurnoverChange.
  repeat match goal with
         | |- context [astype_int ?b] =>
             let H := fresh in
             pose proof (astype_int_range b) as H;
             generalize dependent (astype_int b); intros
         end.
  lia.
Qed.

(** The screen, condition by condition. *)
Lemma screen_iff (market_cap : bool) (f : fundamentals) :
  screen market_cap f = true
  <-> (7 <= piotroski_score f \/ piotroski_score f <= 3)
      /\ fgtb (ev_to_ebitda_latest f) zero = true
      /\ market_cap = true.
Proof.
  unfold screen. rewrite !andb_true_iff, orb_true_iff.
  rewrite Z.geb_le, Z.leb_le. tauto.
Qed.

(** The screen lets a security through only on the dual threshold. *)
Lemma screen_threshold (market_cap : bool) (f : fundamentals) :
  screen market_cap f = true ->
  7 <= piotroski_score f \/ piotroski_score f <= 3.
Proof. intros H. by apply screen_iff in H as [H _]. Qed.

Lemma pipeline_output_row (market_cap : security -> bool)
    (assets : list (security * fundamentals)) (r : row) :
  r ∈ pipeline_output market_cap assets ->
  exists f, (sec r, f) ∈ assets /\ piotroski r = piotroski_score f
            /\ screen (market_cap (sec r)) f = true.
Proof.
  unfold pipeline_output. intros H.
  apply list_elem_of_fmap in H as ([s f] & -> & H).
  apply list_elem_of_In, List.filter_In in H as [H Hs].
  exists f. split; [by apply list_elem_of_In|]. by split.
Qed.

Lemma pipeline_output_index (market_cap : security -> bool)
    (assets : list (security * fundamentals)) :
  NoDup assets.*1 -> NoDup (sec <$> pipeline_output market_cap assets).
Proof.
  unfold pipeline_output. rewrite <- list_fmap_compose.
  induction assets as [|[s f] assets IH]; intros Hnd; [constructor|].
  inversion Hnd as [|? ? Hs Hrest]; subst. cbn [List.filter].
  destruct (screen _ _); [|by apply IH].
  cbn. constructor; [|by apply IH].
  intros Hin. apply Hs.
  apply list_elem_of_fmap in Hin as ([s' f'] & E & Hin). cbn in E. subst s'.
  apply list_elem_of_In, List.filter_In in Hin as [Hin _].
  apply list_elem_of_fmap. exists (s, f'). split; [done|].
  by apply list_elem_of_In.
Qed.

Lemma fmap_injective_on {A B} `{EqDecision B} (f : A -> B) (l : list A)
    (x y : A) :
  NoDup (f <$> l) -> x ∈ l -> y ∈ l -> f x = f y -> x = y.
Proof.
  induction l as [|a l IH]; intros Hnd Hx Hy E; [by apply elem_of_nil in Hx|].
  cbn in Hnd. apply NoDup_cons in Hnd as [Ha Hnd].
  apply elem_of_cons in Hx as [->|Hx]; apply elem_of_cons in Hy as [->|Hy].
  - done.
  - exfalso. apply Ha. rewrite E. by apply list_elem_of_fmap_2.
  - exfalso. apply Ha. rewrite <- E. by apply list_elem_of_fmap_2.
  - by apply IH.
Qed.

(** An asset has a row in the pipeline output exactly when it passes the
    screen. *)
Lemma elem_of_pipeline_output (market_cap : security -> bool)
    (assets : list (security * fundamentals)) (s : security)
    (f : fundamentals) :
  NoDup assets.*1 -> (s, f) ∈ assets ->
  {| sec := s; piotroski := piotroski_score f |}
    ∈ pipeline_output market_cap assets
  <-> screen (market_cap s) f = true.
Proof.
  intros Hnd Hin. split.
  - intros Hr. apply pipeline_output_row in Hr as (f' & Hin' & _ & Hs).
    cbn [sec] in *.
    assert (E : (s, f') = (s, f))
      by (by apply (fmap_injective_on fst assets)).
    by injection E as <-.
  - intros Hs. unfold pipeline_output.
    apply (list_elem_of_fmap_2'
             (fun a : security * fundamentals =>
                {| sec := a.1; piotroski := piotroski_score a.2 |})
             _ (s, f)); [|done].
    apply list_elem_of_In, List.filter_In.
    split; [by apply list_elem_of_In|done].
Qed.

(** *** Sorted frames *)

Lemma StronglySorted_weaken {A} (R S : A -> A -> Prop) (l : list A) :
  (forall x y, R x y -> S x y) -> StronglySorted R l -> StronglySorted S l.
Proof.
  intros HRS. induction 1 as [|x l Hl IH Hx]; constructor; [done|].
  eapply Forall_impl; [exact Hx|]. intros y. apply HRS.
Qed.

Lemma StronglySorted_snoc {A} (R : A -> A -> Prop) (l : list A) (x : A) :
  StronglySorted R l -> Forall (fun y => R y x) l ->
  StronglySorted R (l ++ [x]).
Proof.
  induction 1 as [|y l Hl IH Hy]; intros Hx; simpl.
  - repeat constructor.
  - inversion Hx as [|? ? Hyx Hlx]; subst. constructor; [by apply IH|].
    apply Forall_app. split; [done|]. by repeat constructor.
Qed.

Lemma StronglySorted_rev_flip {A} (R : A -> A -> Prop) (l : list A) :
  StronglySorted R l -> StronglySorted (fun x y => R y x) (rev l).
Proof.
  induction 1 as [|x l Hl IH Hx]; simpl; [constructor|].
  apply StronglySorted_snoc; [done|].
  apply Forall_forall. intros y Hy. rewrite Forall_forall in Hx.
  apply Hx. apply list_elem_of_In. apply list_elem_of_In in Hy.
  by rewrite <- in_rev in Hy.
Qed.

Lemma sort_by_sorted {A} (key : A -> Z) (l : list A) :
  StronglySorted (fun x y => key x <= key y)
    (sort_by (fun x y => key x <=? key y) l).
Proof.
  induction l as [|x l IH]; [constructor|].
  unfold sort_by in *. cbn [foldr].
  revert IH. generalize (foldr (insert_by (fun x y => key x <=? key y)) [] l).
  intros s Hs. induction Hs as [|y s Hs IH Hy]; cbn [insert_by].
  - repeat constructor.
  - destruct (Z.leb_spec (key x) (key y)) as [Hle|Hgt].
    + constructor; [by constructor|]. constructor; [done|].
      eapply Forall_impl; [exact Hy|]. cbn. intros; lia.
    + constructor; [exact IH|].
      rewrite insert_by_perm. constructor; [lia|done].
Qed.

(** Insertion sort is one of the sorts that pandas' [sort_values] may
    be. *)
Lemma insertion_sort_sorts {A} : sorts_values (@insertion_sort_values A).
Proof.
  intros key ascending frame.
  split; [apply insertion_sort_values_perm|].
  unfold insertion_sort_values, in_key_order. destruct ascending.
  - apply sort_by_sorted.
  - apply (StronglySorted_rev_flip (fun x y => key x <= key y)).
    apply sort_by_sorted.
Qed.

Lemma StronglySorted_app_elem {A} (R : A -> A -> Prop) (l1 l2 : list A)
    (x y : A) :
  StronglySorted R (l1 ++ l2) -> x ∈ l1 -> y ∈ l2 -> R x y.
Proof.
  induction l1 as [|a l1 IH]; cbn; intros Hs Hx Hy;
    [by apply elem_of_nil in Hx|].
  apply StronglySorted_inv in Hs as [Hs Ha].
  apply elem_of_cons in Hx as [->|Hx]; [|by apply IH].
  rewrite Forall_forall in Ha. apply Ha, elem_of_app. by right.
Qed.

(** The first [n] rows of a sorted frame: every row left out comes after
    each of them in the order. *)
Lemma head_of_sorted {A} (R : A -> A -> Prop) (n : nat) (l : list A)
    (x y : A) :
  StronglySorted R l -> x ∈ head n l -> y ∈ l -> y ∉ head n l -> R x y.
Proof.
  unfold head. intros Hs Hx Hy Hny.
  rewrite <- (take_drop n l) in Hs, Hy.
  apply elem_of_app in Hy as [Hy|Hy]; [done|].
  by apply (StronglySorted_app_elem R (take n l) (drop n l)).
Qed.

(** In a frame sorted so that the rows satisfying [P] come first, the
    first [k] rows satisfy [P] as soon as [k] rows of the frame do. *)
Lemma head_satisfies {A} (P : A -> bool) (k : nat) (l : list A) :
  StronglySorted (fun x y => P y = true -> P x = true) l ->
  (k <= length (List.filter P l))%nat ->
  Forall (fun x => P x = true) (head k l).
Proof.
  unfold head. intros Hs; revert k.
  induction Hs as [|x l Hl IH Hx]; intros k Hk.
  - rewrite take_nil. constructor.
  - destruct k as [|k]; [constructor|]. cbn [take List.filter] in *.
    destruct (P x) eqn:Px.
    + constructor; [done|]. apply IH. cbn in Hk. lia.
    + exfalso. assert (E : List.filter P l = []).
      { clear -Hx Px. induction Hx as [|y l Hy _ IHl]; [done|].
        cbn. destruct (P y) eqn:Py; [|done]. by specialize (Hy eq_refl). }
      rewrite E in Hk. cbn in Hk. lia.
Qed.

Lemma filter_length_perm {A} (P : A -> bool) (l l' : list A) :
  Permutation l l' -> length (List.filter P l) = length (List.filter P l').
Proof.
  induction 1 as [|x l l' _ IH|x y l|l1 l2 l3 _ IH1 _ IH2]; cbn;
    [done| |by destruct (P x), (P y)|congruence].
  destruct (P x); cbn; by rewrite IH.
Qed.

(** Rows on either side of the dual threshold. *)
Definition scores_high (r : row) : bool := 7 <=? piotroski r.
Definition scores_low (r : row) : bool := piotroski r <=? 3.

(** What the two selections are, whatever order the sort gives to rows
    of equal score: the first ten rows of the output in some descending
    (ascending) order of the scores.  So they are rows of the output, ten
    of them unless the output has fewer, and no row left out scores
    higher (lower) than a selected one. *)
Definition first_ten (ascending : bool) (out l : list row) : Prop :=
  (exists sorted,
     Permutation sorted out
     /\ StronglySorted (in_key_order piotroski ascending) sorted
     /\ l = head 10 sorted)
  /\ length l = Nat.min 10 (length out)
  /\ (forall r, r ∈ l -> r ∈ out)
  /\ (forall r r', r ∈ l -> r' ∈ out -> r' ∉ l ->
      in_key_order piotroski ascending r r').

Lemma head_is_first_ten (sort_values : frame_sort row) (ascending : bool)
    (out : list row) :
  sorts_values sort_values ->
  first_ten ascending out (head 10 (sort_values piotroski ascending out)).
Proof.
  intros Hsort.
  destruct (Hsort piotroski ascending out) as [Hperm Hsorted].
  split; [by exists (sort_values piotroski ascending out)|].
  split; [unfold head; by rewrite length_take, (Permutation_length Hperm)|].
  split.
  - intros r Hr. apply elem_of_head in Hr. by rewrite Hperm in Hr.
  - intros r r' Hr Hr' Hout.
    apply (head_of_sorted _ 10 (sort_values piotroski ascending out));
      [done|done|by rewrite Hperm|done].
Qed.

(** The long set scores at least 7, and the short set at most 3, when
    the frame holds ten rows of each kind. *)
Lemma select_long_high (sort_values : frame_sort row) (out : list row) :
  sorts_values sort_values ->
  (10 <= length (List.filter scores_high out))%nat ->
  Forall (fun r => 7 <= piotroski r) (select_long sort_values out).
Proof.
  intros Hsort H. unfold select_long.
  destruct (Hsort piotroski false out) as [Hperm Hsorted].
  eapply Forall_impl;
    [apply (head_satisfies scores_high)|unfold scores_high; cbn; intros; lia].
  - eapply StronglySorted_weaken; [|exact Hsorted].
    unfold scores_high, in_key_order. cbn. intros x y Hxy Hy. lia.
  - by rewrite (filter_length_perm _ _ out).
Qed.

Lemma select_short_low (sort_values : frame_sort row) (out : list row) :
  sorts_values sort_values ->
  (10 <= length (List.filter scores_low out))%nat ->
  Forall (fun r => piotroski r <= 3) (select_short sort_values out).
Proof.
  intros Hsort H. unfold select_short.
  destruct (Hsort piotroski true out) as [Hperm Hsorted].
  eapply Forall_impl;
    [apply (head_satisfies scores_low)|unfold scores_low; cbn; intros; lia].
  - eapply StronglySorted_weaken; [|exact Hsorted].
    unfold scores_low, in_key_order. cbn. intros x y Hxy Hy. lia.
  - by rewrite (filter_length_perm _ _ out).
Qed.

(** C7, as the code has it.  Inclusion is decided by the screen: an asset
    has a row in the pipeline output if and only if its composite score,
    an integer between 0 and 9, is at least 7 or at most 3 (and its
    EV/EBITDA is positive and the market-capitalisation filter holds);
    every row of the output is such an asset with its score.  The
    selection applies no threshold: whatever order pandas' sort gives to
    rows of equal score, the long set is the first 10 rows of that output
    in descending order of score and the short set its first 10 rows in
    ascending order, so each has 10 rows unless the output has fewer, and
    no row left out scores higher than a long one or lower than a short
    one.  The two sets are disjoint when the output holds at least 10
    rows scoring 7 or more and at least 10 rows scoring 3 or less. *)
Theorem long_short_selection (sort_values : frame_sort row)
    (market_cap : security -> bool)
    (assets : list (security * fundamentals)) (ctx : context) :
  sorts_values sort_values -> is_month_end ctx = true ->
  NoDup assets.*1 ->
  let out := pipeline_output market_cap assets in
  (forall s f,
     (s, f) ∈ assets ->
     0 <= piotroski_score f <= 9
     /\ ({| sec := s; piotroski := piotroski_score f |} ∈ out
         <-> (7 <= piotroski_score f \/ piotroski_score f <= 3)
             /\ fgtb (ev_to_ebitda_latest f) zero = true
             /\ market_cap s = true))
  /\ (forall r, r ∈ out ->
        exists f, (sec r, f) ∈ assets /\ piotroski r = piotroski_score f)
  /\ exists l sh,
       long_stocks (before_trading_start sort_values ctx out) = Some l
       /\ short_stocks (before_trading_start sort_values ctx out) = Some sh
       /\ first_ten false out l
       /\ first_ten true out sh
       /\ ((10 <= length (List.filter scores_high out))%nat ->
           (10 <= length (List.filter scores_low out))%nat ->
           forall s, s ∈ sec <$> l -> s ∉ sec <$> sh).
Proof.
  intros Hsort Hme Hnd out. split; [|split].
  - intros s f Hin. split; [apply piotroski_score_range|].
    unfold out. rewrite (elem_of_pipeline_output _ _ _ _ Hnd Hin).
    apply screen_iff.
  - intros r Hr. apply pipeline_output_row in Hr as (f & Hin & E & _).
    by exists f.
  - unfold before_trading_start. rewrite Hme.
    cbn [long_stocks short_stocks].
    exists (select_long sort_values out), (select_short sort_values out).
    split; [reflexivity|]. split; [reflexivity|].
    split; [by apply head_is_first_ten|].
    split; [by apply head_is_first_ten|].
    intros Hhigh Hlow s Hl Hsh.
    apply list_elem_of_fmap in Hl as (r1 & -> & Hr1).
    apply list_elem_of_fmap in Hsh as (r2 & E & Hr2).
    pose proof (select_long_high sort_values out Hsort Hhigh) as H7.
    pose proof (select_short_low sort_values out Hsort Hlow) as H3.
    rewrite Forall_forall in H7, H3.
    specialize (H7 r1 Hr1). specialize (H3 r2 Hr2).
    destruct (head_is_first_ten sort_values false out Hsort)
      as (_ & _ & Hin1 & _).
    destruct (head_is_first_ten sort_values true out Hsort)
      as (_ & _ & Hin2 & _).
    assert (r1 = r2).
    { apply (fmap_injective_on sec out); auto.
      by apply pipeline_output_index. }
    subst r2. lia.
Qed.

(** An asset for which all nine comparisons hold, and one for which none
    does; both have a positive EV/EBITDA. *)
Definition all_nine : fundamentals :=
  {| roa_last := of_Z 1; roa_first := zero;
     cash_flow_last := of_Z 1; cash_flow_from_ops_last := of_Z 2;
     ltd_last := zero; ltd_first := of_Z 1;
     cr_last := of_Z 1; cr_first := zero;
     so_last := zero; so_first := zero;
     gm_last := of_Z 1; gm_first := zero;
     at_last := of_Z 1; at_first := zero;
     ev_to_ebitda_latest := of_Z 1 |}.

Definition none_of_nine : fundamentals :=
  {| roa_last := zero; roa_first := zero;
     cash_flow_last := zero; cash_flow_from_ops_last := zero;
     ltd_last := zero; ltd_first := zero;
     cr_last := zero; cr_first := zero;
     so_last := of_Z 1; so_first := zero;
     gm_last := zero; gm_first := zero;
     at_last := zero; at_first := zero;
     ev_to_ebitda_latest := of_Z 1 |}.

(** Ten assets of the first kind and ten of the second. *)
Definition ten_and_ten : list (security * fundamentals) :=
  ((fun s => (s, all_nine)) <$> seq 1 10)
  ++ ((fun s => (s, none_of_nine)) <$> seq 11 10).

Lemma long_short_selection_witness :
  let ctx := set_month_end initialize in
  let out := pipeline_output (fun _ => true) ten_and_ten in
  sorts_values (@insertion_sort_values row)
  /\ is_month_end ctx = true
  /\ NoDup ten_and_ten.*1
  /\ (10 <= length (List.filter scores_high out))%nat
  /\ (10 <= length (List.filter scores_low out))%nat
  /\ exists l sh,
       long_stocks (before_trading_start insertion_sort_values ctx out)
       = Some l
       /\ short_stocks (before_trading_start insertion_sort_values ctx out)
          = Some sh
       /\ forall s, s ∈ sec <$> l -> s ∉ sec <$> sh.
Proof.
  intros ctx out.
  assert (Hme : is_month_end ctx = true) by reflexivity.
  assert (Hnd : NoDup ten_and_ten.*1)
    by (apply (bool_decide_unpack _); vm_compute; reflexivity).
  assert (Hhigh : (10 <= length (List.filter scores_high out))%nat)
    by (vm_compute; lia).
  assert (Hlow : (10 <= length (List.filter scores_low out))%nat)
    by (vm_compute; lia).
  split; [exact insertion_sort_sorts|].
  split; [exact Hme|]. split; [exact Hnd|].
  split; [exact Hhigh|]. split; [exact Hlow|].
  destruct (long_short_selection insertion_sort_values (fun _ => true)
              ten_and_ten ctx insertion_sort_sorts Hme Hnd)
    as (_ & _ & l & sh & Hl & Hsh & _ & _ & Hdisj).
  exists l, sh. split; [exact Hl|]. split; [exact Hsh|].
  exact (Hdisj Hhigh Hlow).
Defined.

(** C7 as stated fails: when a single security passes the screen, with
    score 9, it is both the long set and the short set, whatever the
    sort. *)
Lemma long_short_overlap_counterexample :
  pipeline_output (fun _ => true) [(1%nat, all_nine)]
  = [{| sec := 1%nat; piotroski := 9 |}]
  /\ forall sort_values : frame_sort row,
       sorts_values sort_values ->
       let ctx :=
         before_trading_start sort_values (set_month_end initialize)
           [{| sec := 1%nat; piotroski := 9 |}] in
       long_stocks ctx = Some [{| sec := 1%nat; piotroski := 9 |}]
       /\ short_stocks ctx = Some [{| sec := 1%nat; piotroski := 9 |}]
       /\ ~ (forall l sh,
               long_stocks ctx = Some l -> short_stocks ctx = Some sh ->
               forall s, s ∈ sec <$> l -> s ∉ sec <$> sh).
Proof.
  split; [vm_compute; reflexivity|].
  intros sort_values Hsort ctx.
  assert (Hone : forall ascending,
             sort_values piotroski ascending
               [{| sec := 1%nat; piotroski := 9 |}]
             = [{| sec := 1%nat; piotroski := 9 |}]).
  { intros ascending.
    destruct (Hsort piotroski ascending
                [{| sec := 1%nat; piotroski := 9 |}]) as [Hperm _].
    by apply Permutation_singleton_r in Hperm. }
  assert (El : long_stocks ctx = Some [{| sec := 1%nat; piotroski := 9 |}]).
  { unfold ctx, before_trading_start, select_long. cbn. by rewrite Hone. }
  assert (Es : short_stocks ctx = Some [{| sec := 1%nat; piotroski := 9 |}]).
  { unfold ctx, before_trading_start, select_short. cbn. by rewrite Hone. }
  split; [exact El|]. split; [exact Es|].
  intros H. apply (H _ _ El Es 1%nat); cbn; apply list_elem_of_here.
Qed.

End LongShort.

(** ** The trailing-twelve-month factor *)

Section TrailingTwelveMonths.
Import BlackCat.

(** The claim in its own words: keep the observations whose as-of date
    lies within 52 weeks of the latest one, keep the first observation of
    each as-of date in window order, and sum the values. *)


Fixpoint dedup_first (seen : list Z) (l : list (Z * float))
  : list (Z * float) :=
  match l with
  | [] => []
  | p :: t =>
      if bool_decide (p.1 ∈ seen) then dedup_first seen t
      else p :: dedup_first (p.1 :: seen) t
  end.


(** The selected observations in increasing order of their dates, the
    order in which the code adds them. *)
Definition by_date (l : list (Z * float)) : list (Z * float) :=
  sort_by (fun p q => p.1 <=? q.1) l.




(** Column [j] of a 2-D array given as its rows. *)
Definition column {A} (d : A) (j : nat) (a : list (list A)) : list A :=
  (fun r => default d (r !! j)) <$> a.

(** *** The mask *)




(** *** [np.unique] *)

Lemma elem_of_insert_unique (x y : Z) (l : list Z) :
  x ∈ insert_unique y l <-> x = y \/ x ∈ l.
Proof.
  induction l as [|z l IH]; cbn.
  - rewrite list_elem_of_singleton, elem_of_nil. tauto.
  - destruct (Z.ltb_spec y z); [by rewrite !elem_of_cons|].
    destruct (Z.eqb_spec y z) as [->|Hne].
    + rewrite !elem_of_cons. tauto.
    + rewrite !elem_of_cons, IH. tauto.
Qed.

Lemma elem_of_np_unique (x : Z) (a : list Z) : x ∈ np_unique a <-> x ∈ a.
Proof.
  induction a as [|y a IH]; [done|].
  unfold np_unique in *. cbn. rewrite elem_of_insert_unique, IH, elem_of_cons.
  tauto.
Qed.

Lemma insert_unique_sorted (y : Z) (l : list Z) :
  StronglySorted Z.lt l -> StronglySorted Z.lt (insert_unique y l).
Proof.
  induction 1 as [|z l Hl IH Hz]; cbn; [repeat constructor|].
  destruct (Z.ltb_spec y z) as [Hlt|Hge].
  - constructor; [by constructor|]. constructor; [done|].
    eapply Forall_impl; [exact Hz|]. cbn. intros; lia.
  - destruct (Z.eqb_spec y z) as [->|Hne]; [by constructor|].
    constructor; [done|]. apply Forall_forall. intros x Hx.
    apply elem_of_insert_unique in Hx as [->|Hx]; [lia|].
    rewrite Forall_forall in Hz. by apply Hz.
Qed.

Lemma np_unique_sorted (a : list Z) : StronglySorted Z.lt (np_unique a).
Proof.
  induction a as [|y a IH]; [constructor|].
  unfold np_unique in *. cbn. by apply insert_unique_sorted.
Qed.

Lemma sorted_lt_NoDup (l : list Z) : StronglySorted Z.lt l -> NoDup l.
Proof.
  induction 1 as [|z l Hl IH Hz]; constructor; [|done].
  intros Hin. rewrite Forall_forall in Hz. specialize (Hz z Hin). lia.
Qed.

Lemma np_unique_NoDup (a : list Z) : NoDup (np_unique a).
Proof. apply sorted_lt_NoDup, np_unique_sorted. Qed.

(** *** First occurrences *)

(** The value of the first observation dated [x]. *)
Fixpoint first_pair (l : list (Z * float)) (x : Z) : option float :=
  match l with
  | [] => None
  | p :: t => if x =? p.1 then Some p.2 else first_pair t x
  end.

Lemma first_index_value (x : Z) (dm : list Z) (vm : list float) :
  length dm = length vm ->
  (first_index x dm ≫= (fun i => vm !! i)) = first_pair (zip dm vm) x.
Proof.
  revert vm; induction dm as [|y dm IH]; intros [|w vm] E; cbn in *;
    try done.
  destruct (x =? y); [done|].
  rewrite <- IH by lia. by destruct (first_index x dm).
Qed.

Lemma first_pair_elem (x : Z) (dm : list Z) (vm : list float) :
  length dm = length vm ->
  x ∈ dm <-> is_Some (first_pair (zip dm vm) x).
Proof.
  revert vm; induction dm as [|y dm IH]; intros [|w vm] E; cbn in *;
    try done.
  - rewrite elem_of_nil. split; [done|]. by intros [? ?].
  - rewrite elem_of_cons. destruct (Z.eqb_spec x y) as [->|Hne].
    + split; eauto.
    + rewrite <- IH by lia. tauto.
Qed.

Lemma first_index_elem (x : Z) (dm : list Z) :
  x ∈ dm -> is_Some (first_index x dm).
Proof.
  induction dm as [|y dm IH]; cbn; [by rewrite elem_of_nil|].
  rewrite elem_of_cons. destruct (Z.eqb_spec x y) as [->|Hne]; [eauto|].
  intros [?|Hin]; [done|]. destruct (IH Hin) as [i ->]. cbn. eauto.
Qed.

(** The integer-array indexing of [ttm] succeeds and picks, for each
    distinct date, the value of its first observation. *)
Lemma pick_first_values (dm : list Z) (vm : list float) (l : list Z) :
  length dm = length vm -> Forall (fun x => x ∈ dm) l ->
  int_index vm (omap (fun x => first_index x dm) l)
  = Some ((fun x => default zero (first_pair (zip dm vm) x)) <$> l).
Proof.
  intros E. unfold int_index. induction 1 as [|x l Hx Hl IH]; [done|].
  cbn [omap list_omap fmap list_fmap].
  destruct (first_index_elem x dm Hx) as [i Hi].
  change (list_omap ?f ?l) with (omap f l). rewrite Hi.
  pose proof (first_index_value x dm vm E) as Hv.
  rewrite Hi in Hv. cbn in Hv.
  destruct (proj1 (first_pair_elem x dm vm E) Hx) as [w Hw].
  rewrite Hw in Hv. cbn [mapM]. rewrite Hv. cbn [mbind option_bind].
  change (list_fmap ?A ?B ?f ?l) with (f <$> l).
  rewrite IH, Hw. done.
Qed.

Lemma elem_of_dedup_first (seen : list Z) (l : list (Z * float))
    (x : Z) (w : float) :
  (x, w) ∈ dedup_first seen l <-> (x ∉ seen) /\ first_pair l x = Some w.
Proof.
  revert seen; induction l as [|[y u] l IH]; intros seen;
    cbn [dedup_first first_pair fst snd].
  - rewrite elem_of_nil. split; [done|]. by intros [_ ?].
  - destruct (decide (y ∈ seen)) as [Hy|Hy].
    + rewrite bool_decide_eq_true_2 by done. rewrite IH.
      destruct (Z.eqb_spec x y) as [->|Hne]; [|done].
      split; intros [? ?]; done.
    + rewrite bool_decide_eq_false_2 by done.
      rewrite elem_of_cons, IH, not_elem_of_cons.
      destruct (Z.eqb_spec x y) as [->|Hne].
      * split; [intros [[= ->]|[[? _] _]]; done|].
        intros [_ [= ->]]. by left.
      * split; [intros [[= ? ?]|[[_ ?] ?]]; done|].
        intros [? ?]; right; done.
Qed.

Lemma dedup_first_NoDup (seen : list Z) (l : list (Z * float)) :
  NoDup (dedup_first seen l).*1.
Proof.
  revert seen; induction l as [|[y u] l IH]; intros seen;
    cbn [dedup_first fst]; [constructor|].
  destruct (bool_decide (y ∈ seen)); [apply IH|].
  cbn. constructor; [|apply IH].
  intros Hin. apply list_elem_of_fmap in Hin as ([x w] & E & Hin).
  cbn in E. subst x. apply elem_of_dedup_first in Hin as [Hin _].
  apply Hin, list_elem_of_here.
Qed.

(** *** The order of the summands *)

Lemma sorted_strict_unique (l1 l2 : list (Z * float)) :
  StronglySorted (fun p q => p.1 < q.1) l1 ->
  StronglySorted (fun p q => p.1 < q.1) l2 ->
  Permutation l1 l2 -> l1 = l2.
Proof.
  intros H1; revert l2. induction H1 as [|x l1 Hl1 IH Hx]; intros l2 H2 Hp.
  - by apply Permutation_nil in Hp.
  - destruct H2 as [|y l2 Hl2 Hy];
      [by apply Permutation_sym, Permutation_nil in Hp|].
    rewrite Forall_forall in Hx, Hy.
    assert (x = y) as <-.
    { assert (Hxin : x ∈ y :: l2) by (rewrite <- Hp; by left).
      assert (Hyin : y ∈ x :: l1) by (rewrite Hp; by left).
      apply elem_of_cons in Hxin as [?|Hxin]; [done|].
      apply elem_of_cons in Hyin as [?|Hyin]; [done|].
      specialize (Hx y Hyin). specialize (Hy x Hxin). lia. }
    f_equal. apply IH; [done|]. by apply Permutation_cons_inv in Hp.
Qed.

Lemma sorted_distinct_strict {A} (key : A -> Z) (l : list A) :
  StronglySorted (fun x y => key x <= key y) l -> NoDup (key <$> l) ->
  StronglySorted (fun x y => key x < key y) l.
Proof.
  induction 1 as [|x l Hl IH Hx]; intros Hnd; [constructor|].
  cbn in Hnd. apply NoDup_cons in Hnd as [Hnx Hnd].
  constructor; [by apply IH|].
  rewrite Forall_forall in Hx. apply Forall_forall. intros y Hy.
  specialize (Hx y Hy).
  assert (key x <> key y)
    by (intros E; apply Hnx; rewrite E; by apply list_elem_of_fmap_2).
  lia.
Qed.

Lemma sorted_fmap_pair (g : Z -> float) (l : list Z) :
  StronglySorted Z.lt l ->
  StronglySorted (fun p q : Z * float => p.1 < q.1)
    ((fun x => (x, g x)) <$> l).
Proof.
  induction 1 as [|x l Hl IH Hx]; cbn; constructor; [done|].
  apply Forall_fmap. eapply Forall_impl; [exact Hx|]. done.
Qed.


Lemma by_date_perm (l : list (Z * float)) : Permutation (by_date l) l.
Proof. apply sort_by_perm. Qed.

Lemma by_date_sorted (l : list (Z * float)) :
  NoDup l.*1 -> StronglySorted (fun p q => p.1 < q.1) (by_date l).
Proof.
  intros Hnd. apply (sorted_distinct_strict fst).
  - apply (sort_by_sorted fst).
  - by rewrite (by_date_perm l).
Qed.

(** The values [ttm] adds up are those the claim describes, in
    increasing order of their dates. *)
Lemma unique_pick (dm : list Z) (vm : list float) :
  length dm = length vm ->
  int_index vm (np_unique_index dm)
  = Some (by_date (dedup_first [] (zip dm vm))).*2.
Proof.
  intros E. unfold np_unique_index.
  rewrite (pick_first_values dm vm (np_unique dm) E)
    by (apply Forall_forall; intros x; apply elem_of_np_unique).
  f_equal.
  set (pair_of := fun x => (x, default zero (first_pair (zip dm vm) x))).
  change ((fun x => default zero (first_pair (zip dm vm) x))
            <$> np_unique dm)
    with (snd ∘ pair_of <$> np_unique dm).
  rewrite list_fmap_compose. f_equal.
  apply sorted_strict_unique.
  - apply sorted_fmap_pair, np_unique_sorted.
  - apply by_date_sorted, dedup_first_NoDup.
  - rewrite by_date_perm. apply NoDup_Permutation.
    + apply (NoDup_fmap_1 fst). rewrite <- list_fmap_compose.
      change (fst ∘ pair_of) with (@id Z). rewrite list_fmap_id.
      apply np_unique_NoDup.
    + apply (NoDup_fmap_1 fst), dedup_first_NoDup.
    + intros [x w]. rewrite elem_of_dedup_first, list_elem_of_fmap.
      split.
      * intros (y & [= -> ->] & Hy). rewrite elem_of_np_unique in Hy.
        split; [apply not_elem_of_nil|].
        destruct (proj1 (first_pair_elem y dm vm E) Hy) as [u ->]. done.
      * intros [_ Hw]. exists x. unfold pair_of. rewrite Hw. split; [done|].
        apply elem_of_np_unique, (first_pair_elem x dm vm E). eauto.
Qed.


(** On two columns of one length that is not zero, the factor of a
    security is defined: no indexing of [ttm] raises. *)
Lemma ttm_total (v : list float) (d : list Z) :
  length v = length d -> d <> [] -> is_Some (ttm v d).
Proof.
  intros E Hne. unfold ttm, recent, mask_index.
  destruct (last d) as [latest|] eqn:Hlast;
    [|by apply last_None in Hlast].
  cbn [mbind option_bind].
  rewrite !decide_True by (by rewrite length_fmap).
  cbn [mbind option_bind].
  rewrite unique_pick by (by apply length_bool_index).
  cbn. eauto.
Qed.








(** *** The columns of a window *)

Lemma omap_column {A} (d : A) (n j : nat) (a : list (list A)) :
  rectangular n a -> (j < n)%nat ->
  omap (fun r : list A => r !! j) a = column d j a.
Proof.
  unfold column. induction 1 as [|r a Hr _ IH]; intros Hj; [done|].
  cbn [omap list_omap fmap list_fmap].
  destruct (lookup_lt_is_Some_2 r j) as [x Hx]; [lia|].
  rewrite Hx. cbn. f_equal. by apply IH.
Qed.

Lemma transpose_columns {A} (d : A) (n : nat) (a : list (list A)) :
  rectangular n a -> a <> [] ->
  transpose a = (fun j => column d j a) <$> seq 0 n.
Proof.
  intros Hr Hne. unfold transpose.
  assert (E : shape1 a = n).
  { destruct a as [|r a]; [done|]. by inversion Hr. }
  rewrite E. apply Forall_fmap_ext_1, Forall_forall. intros j Hj.
  apply elem_of_seq in Hj. apply (omap_column d n); [done|lia].
Qed.

Lemma zip_fmap_same {A B C} (f : A -> B) (g : A -> C) (l : list A) :
  zip (f <$> l) (g <$> l) = (fun x => (f x, g x)) <$> l.
Proof. induction l as [|x l IH]; [done|]. cbn. by rewrite <- IH. Qed.

Lemma mapM_fmap_total {A B C} (h : B -> option C) (p : A -> B) (d : C)
    (l : list A) :
  Forall (fun x => is_Some (h (p x))) l ->
  mapM h (p <$> l) = Some ((fun x => default d (h (p x))) <$> l).
Proof.
  induction 1 as [|x l [y Hy] _ IH]; [done|].
  cbn [fmap list_fmap mapM]. rewrite Hy. cbn [mbind option_bind].
  change (list_fmap ?A ?B ?f ?l) with (f <$> l).
  rewrite IH. done.
Qed.

(** What [compute] writes, column by column. *)
Lemma ttm_compute_columns (n : nat) (values : list (list float))
    (dates : list (list Z)) (asof : list Z) :
  rectangular n values -> rectangular n dates ->
  length values = length dates -> last dates = Some asof ->
  TrailingTwelveMonths_compute values dates
  = Some ((fun j => default zero (ttm (column nan j values)
                                    (column NaT j dates)))
            <$> seq 0 n,
          of_Z <$> asof)
  /\ length asof = n
  /\ forall j, is_Some (ttm (column nan j values) (column NaT j dates)).
Proof.
  intros Hv Hd Hlen Hlast.
  assert (Hdne : dates <> []) by (intros ->; done).
  assert (Hvne : values <> []) by (intros ->; by destruct dates).
  assert (Htot : forall j,
             is_Some (ttm (column nan j values) (column NaT j dates))).
  { intros j. apply ttm_total.
    - unfold column. by rewrite !length_fmap.
    - unfold column. by destruct dates. }
  split; [|split; [|exact Htot]].
  - unfold TrailingTwelveMonths_compute.
    rewrite (transpose_columns nan n values Hv Hvne),
      (transpose_columns NaT n dates Hd Hdne), zip_fmap_same.
    rewrite (mapM_fmap_total
               (fun vd : list float * list Z => ttm vd.1 vd.2)
               (fun j => (column nan j values, column NaT j dates)) zero)
      by (apply Forall_forall; intros j _; apply Htot).
    cbn [mbind option_bind]. rewrite Hlast. done.
  - unfold rectangular in Hd. rewrite Forall_forall in Hd.
    by apply Hd, last_Some_elem_of.
Qed.

Lemma column_last {A} (d : A) (j : nat) (a : list (list A)) (r : list A)
    (x : A) :
  last a = Some r -> r !! j = Some x -> last (column d j a) = Some x.
Proof.
  intros Hlast Hx. unfold column. by rewrite fmap_last, Hlast; cbn; rewrite Hx.
Qed.

(** Windows of quarterly observations; dates count nanoseconds, a day
    is 86400 * 10^9 of them. *)
Definition on_day (n : Z) : Z := n * (86400 * 10 ^ 9).

Definition four_quarters : list Z :=
  on_day <$> [17000; 17090; 17180; 17270].










End TrailingTwelveMonths.

(** * Further properties of the four scripts *)

(** ** [nanfill]: the filled cells, the shape, a second call *)

Section NanfillFurther.
Import ValueLongOnly.

(** The cells of a row that are not NaN. *)
Definition present (x : float) : bool := negb (isnan x).

(** The last value that is not NaN among the first [j + 1] cells of a
    row, [prev] when there is none. *)
Definition last_present (prev : float) (r : list float) (j : nat) : float :=
  default prev (last (List.filter present (take (S j) r))).

Lemma last_cons_default {A} (d x : A) (l : list A) :
  default d (last (x :: l)) = default x (last l).
Proof.
  destruct l as [|y l]; [done|].
  change (last (x :: y :: l)) with (last (y :: l)).
  destruct (last (y :: l)) eqn:E; [done|]. by apply last_None in E.
Qed.

Lemma ffill_from_lookup (prev : float) (r : list float) (j : nat) :
  (j < length r)%nat ->
  ffill_from prev r !! j = Some (last_present prev r j).
Proof.
  unfold last_present, present.
  revert prev j; induction r as [|x r IH]; intros prev j Hj; cbn in Hj;
    [lia|].
  destruct j as [|j].
  - cbn. by destruct (isnan x).
  - cbn [ffill_from take List.filter].
    destruct (isnan x) eqn:Hx; cbn [negb].
    + cbn [lookup list_lookup]. apply IH. lia.
    + rewrite last_cons_default. cbn [lookup list_lookup]. apply IH. lia.
Qed.

Lemma ffill_lookup (r : list float) (j : nat) :
  (j < length r)%nat -> ffill r !! j = Some (last_present nan r j).
Proof.
  intros Hj. destruct r as [|x r]; [cbn in Hj; lia|].
  destruct j as [|j].
  - unfold last_present, present. cbn. destruct (isnan x) eqn:Hx; [|done].
    cbn. f_equal. by apply isnan_true.
  - cbn [ffill lookup list_lookup]. rewrite ffill_from_lookup
      by (cbn in Hj; lia).
    unfold last_present, present. cbn [take List.filter]. f_equal.
    destruct (isnan x) eqn:Hx; cbn [negb].
    + apply isnan_true in Hx. by subst x.
    + by rewrite last_cons_default.
Qed.

Lemma last_present_here (prev : float) (r : list float) (j : nat) (x : float) :
  r !! j = Some x -> isnan x = false -> last_present prev r j = x.
Proof.
  intros Hj Hx. unfold last_present.
  rewrite (take_S_r r j x Hj), List.filter_app. cbn [List.filter].
  unfold present at 2. rewrite Hx. cbn [negb].
  by rewrite last_snoc.
Qed.

(** A filled cell is NaN exactly when no cell at or before it in its row
    holds a value. *)
Lemma last_present_nan (r : list float) (j : nat) :
  isnan (last_present nan r j) = true
  <-> Forall (fun x => isnan x = true) (take (S j) r).
Proof.
  unfold last_present. split.
  - intros H. apply Forall_forall. intros x Hx.
    destruct (isnan x) eqn:E; [done|]. exfalso.
    assert (Hin : x ∈ List.filter present (take (S j) r)).
    { apply list_elem_of_In, List.filter_In.
      split; [by apply list_elem_of_In|]. unfold present. by rewrite E. }
    destruct (last (List.filter present (take (S j) r))) as [y|] eqn:El.
    + cbn in H.
      apply last_Some_elem_of, list_elem_of_In, List.filter_In in El
        as [_ El].
      unfold present in El. rewrite H in El. done.
    + apply last_None in El. rewrite El in Hin. by apply elem_of_nil in Hin.
  - intros H.
    assert (E : List.filter present (take (S j) r) = []).
    { induction H as [|x l Hx _ IH]; [done|]. cbn.
      unfold present at 1. by rewrite Hx. }
    by rewrite E.
Qed.

Lemma ffill_from_present_fixed (prev : float) (r : list float) :
  ffill_from prev (ffill_from prev r) = ffill_from prev r
  \/ isnan prev = true.
Proof.
  destruct (isnan prev) eqn:Hp; [by right|left].
  revert prev Hp; induction r as [|x r IH]; intros prev Hp; [done|].
  cbn [ffill_from]. destruct (isnan x) eqn:Hx.
  - cbn [ffill_from]. rewrite Hp. f_equal. by apply IH.
  - cbn [ffill_from]. rewrite Hx. f_equal. by apply IH.
Qed.

Lemma ffill_from_nan_fixed (r : list float) :
  ffill_from nan (ffill_from nan r) = ffill_from nan r.
Proof.
  induction r as [|x r IH]; [done|].
  cbn [ffill_from]. destruct (isnan x) eqn:Hx.
  - cbn [ffill_from isnan nan]. by rewrite IH.
  - cbn [ffill_from]. rewrite Hx. f_equal.
    by destruct (ffill_from_present_fixed x r) as [E|E]; [|congruence].
Qed.

Lemma ffill_idempotent (r : list float) : ffill (ffill r) = ffill r.
Proof.
  destruct r as [|x r]; [done|]. cbn [ffill]. f_equal.
  destruct (isnan x) eqn:Hx.
  - apply isnan_true in Hx. subst x. apply ffill_from_nan_fixed.
  - by destruct (ffill_from_present_fixed x r) as [E|E]; [|congruence].
Qed.

Lemma rectangular_ffill (n : nat) (a : list (list float)) :
  rectangular n a -> rectangular n (ffill <$> a).
Proof.
  unfold rectangular. intros H. apply Forall_fmap.
  eapply Forall_impl; [exact H|]. intros r Hr. cbn. by rewrite length_ffill.
Qed.

(** X1.  On a window of [n] columns [nanfill] never raises and returns a
    window of the same shape.  The cell in row [i], column [j] of the
    result is the last value that is not NaN among the cells 0 to [j] of
    row [i] of the input, and NaN when these are all NaN.  So a cell that
    held a value keeps it, a cell is NaN afterwards exactly when nothing
    at or before it in its row held a value, and no value of another row
    is ever read. *)
Theorem nanfill_cell_is_last_value_of_its_row
    (n : nat) (a : list (list float)) :
  rectangular n a ->
  exists a',
    nanfill_array a = Some a'
    /\ length a' = length a
    /\ rectangular n a'
    /\ forall i r j,
         a !! i = Some r -> (j < n)%nat ->
         (a' !! i ≫= (.!! j)) = Some (last_present nan r j)
         /\ (forall x, r !! j = Some x -> isnan x = false ->
             (a' !! i ≫= (.!! j)) = Some x)
         /\ (isnan (last_present nan r j) = true
             <-> Forall (fun x => isnan x = true) (take (S j) r)).
Proof.
  intros H. exists (ffill <$> a).
  split; [by apply (nanfill_array_ffill n)|].
  split; [by rewrite length_fmap|].
  split; [by apply rectangular_ffill|].
  intros i r j Hi Hj.
  assert (Hr : length r = n).
  { unfold rectangular in H. rewrite Forall_forall in H. apply H.
    by eapply list_elem_of_lookup_2. }
  assert (Hcell : (ffill <$> a) !! i ≫= (.!! j)
                  = Some (last_present nan r j)).
  { rewrite list_lookup_fmap, Hi. cbn. apply ffill_lookup. lia. }
  split; [exact Hcell|]. split.
  - intros x Hx Hp. rewrite Hcell. f_equal. by apply last_present_here.
  - apply last_present_nan.
Qed.

Lemma nanfill_cell_is_last_value_of_its_row_witness :
  rectangular 3 [[of_Z 1; nan; of_Z 3]; [nan; of_Z 5; nan]]
  /\ exists a',
       nanfill_array [[of_Z 1; nan; of_Z 3]; [nan; of_Z 5; nan]] = Some a'
       /\ a' = [[of_Z 1; of_Z 1; of_Z 3]; [nan; of_Z 5; of_Z 5]].
Proof.
  assert (Hr : rectangular 3 [[of_Z 1; nan; of_Z 3]; [nan; of_Z 5; nan]])
    by (repeat constructor).
  split; [exact Hr|].
  destruct (nanfill_cell_is_last_value_of_its_row 3 _ Hr)
    as (a' & Ha & _).
  exists a'. split; [exact Ha|].
  vm_compute in Ha. injection Ha as <-. reflexivity.
Defined.

(** X2.  [nanfill] is idempotent: on the window a first call returned, a
    second call succeeds and changes nothing. *)
Theorem nanfill_twice_is_nanfill_once (n : nat) (a : list (list float)) :
  rectangular n a ->
  exists a',
    nanfill_array a = Some a' /\ nanfill_array a' = Some a'.
Proof.
  intros H. exists (ffill <$> a).
  split; [by apply (nanfill_array_ffill n)|].
  rewrite (nanfill_array_ffill n) by (by apply rectangular_ffill).
  f_equal. rewrite <- list_fmap_compose. apply list_fmap_ext.
  intros i r _. cbn. apply ffill_idempotent.
Qed.

Lemma nanfill_twice_is_nanfill_once_witness :
  rectangular 2 [[of_Z 1; nan]; [nan; nan]]
  /\ exists a',
       nanfill_array [[of_Z 1; nan]; [nan; nan]] = Some a'
       /\ nanfill_array a' = Some a'.
Proof.
  assert (Hr : rectangular 2 [[of_Z 1; nan]; [nan; nan]])
    by (repeat constructor).
  split; [exact Hr|].
  exact (nanfill_twice_is_nanfill_once 2 _ Hr).
Defined.

(** X3.  The five factors that assign the whole filled window to [out]
    ([out[:] = pb] and the like) depend on their [window_length = 1]: on
    a window of two or more rows numpy cannot broadcast the window into
    the one-dimensional [out], and the assignment raises.
    [Return_on_Equity], which assigns the last row [roe[-1]], does not
    raise there: it overwrites its window with the filled one and writes
    the filled last row to [out]. *)
Theorem whole_window_assignment_needs_one_row
    (h : heap) (out w : loc) (a : list (list float)) (o r : list float) :
  h !! w = Some (Arr2 a) -> h !! out = Some (Arr1 o) ->
  rectangular (length o) a -> (2 <= length a)%nat -> last a = Some r ->
  Forall (fun compute : loc -> loc -> heap -> option heap =>
            compute out w h = None)
    [Price_to_Book_compute; Price_to_Earnings_compute;
     Return_on_Assets_compute; Return_on_Invested_Capital_compute;
     Dividend_Yield_compute]
  /\ Return_on_Equity_compute out w h
     = Some (<[out := Arr1 (ffill r)]> (<[w := Arr2 (ffill <$> a)]> h)).
Proof.
  intros Hw Hout Hrect Hlen Hlast.
  assert (Hne : out <> w) by (intros ->; congruence).
  pose proof (nanfill_heap h w a (length o) Hw Hrect) as Hfill.
  set (h1 := <[w := Arr2 (ffill <$> a)]> h) in *.
  assert (Hw1 : h1 !! w = Some (Arr2 (ffill <$> a)))
    by (unfold h1; by rewrite lookup_insert_eq).
  assert (Ho1 : h1 !! out = Some (Arr1 o))
    by (unfold h1; by rewrite lookup_insert_ne).
  assert (Hwhole : assign_all out (Arr2 (ffill <$> a)) h1 = None).
  { unfold assign_all. rewrite Ho1.
    destruct a as [|r1 [|r2 a]]; cbn in Hlen; try lia. done. }
  split.
  - repeat constructor;
      cbv beta delta [Price_to_Book_compute Price_to_Earnings_compute
                        Return_on_Assets_compute
                        Return_on_Invested_Capital_compute
                        Dividend_Yield_compute];
      rewrite Hfill; cbn [mbind option_bind]; rewrite Hw1;
      cbn [mbind option_bind]; exact Hwhole.
  - unfold Return_on_Equity_compute. rewrite Hfill.
    cbn [mbind option_bind]. rewrite Hw1. cbn [mbind option_bind].
    rewrite fmap_last, Hlast.
    cbn [fmap option_fmap option_map mbind option_bind].
    unfold assign_all. rewrite Ho1. cbn [mbind option_bind].
    rewrite decide_True; [done|].
    rewrite length_ffill. unfold rectangular in Hrect.
    rewrite Forall_forall in Hrect. apply Hrect.
    by apply last_Some_elem_of.
Qed.

Lemma whole_window_assignment_needs_one_row_witness :
  let a := [[of_Z 1; nan]; [nan; of_Z 2]] in
  let h : heap := <[1%nat := Arr2 a]> (<[0%nat := Arr1 [zero; zero]]> ∅) in
  Price_to_Book_compute 0%nat 1%nat h = None
  /\ exists h',
       Return_on_Equity_compute 0%nat 1%nat h = Some h'
       /\ h' !! 0%nat = Some (Arr1 [nan; of_Z 2]).
Proof.
  intros a h.
  assert (Hw : h !! 1%nat = Some (Arr2 a)) by reflexivity.
  assert (Hout : h !! 0%nat = Some (Arr1 [zero; zero])) by reflexivity.
  assert (Hrect : rectangular (length [zero; zero]) a)
    by (repeat constructor).
  assert (Hlen : (2 <= length a)%nat) by (cbn; lia).
  assert (Hlast : last a = Some [nan; of_Z 2]) by reflexivity.
  destruct (whole_window_assignment_needs_one_row h 0%nat 1%nat a
              [zero; zero] [nan; of_Z 2] Hw Hout Hrect Hlen Hlast)
    as [Hall Hroe].
  split; [by inversion Hall|].
  eexists. split; [exact Hroe|]. by rewrite lookup_insert_eq.
Defined.

End NanfillFurther.

(** ** The momentum factor and the screen of the value strategy *)

Section MomentumScreen.
Import ValueLongOnly.

(** X4.  [Momentum.compute] divides, security by security, the row ten
    from the end of the price window by its first row, so one value per
    security; a price that is NaN on either day gives a NaN momentum.  On
    a window of fewer than ten rows [close[-10]] raises. *)
Theorem momentum_is_tenth_last_row_over_first
    (n : nat) (close : list (list float)) :
  rectangular n close ->
  ((length close < 10)%nat -> Momentum_compute close = None)
  /\ ((10 <= length close)%nat ->
      exists recent first out,
        close !! (length close - 10)%nat = Some recent
        /\ close !! 0%nat = Some first
        /\ Momentum_compute close = Some out
        /\ length out = n
        /\ forall k x y,
             recent !! k = Some x -> first !! k = Some y ->
             out !! k = Some (fdiv x y)
             /\ (isnan x = true \/ isnan y = true -> out !! k = Some nan)).
Proof.
  intros Hrect. unfold Momentum_compute. split.
  - intros Hlt. rewrite decide_False by lia. done.
  - intros Hge. rewrite decide_True by done.
    destruct (lookup_lt_is_Some_2 close (length close - 10)) as [recent Hr];
      [lia|].
    destruct (lookup_lt_is_Some_2 close 0) as [first Hf]; [lia|].
    unfold rectangular in Hrect. rewrite Forall_forall in Hrect.
    assert (Hlr : length recent = n)
      by (apply Hrect; by eapply list_elem_of_lookup_2).
    assert (Hlf : length first = n)
      by (apply Hrect; by eapply list_elem_of_lookup_2).
    exists recent, first, (zip_with fdiv recent first).
    split; [exact Hr|]. split; [exact Hf|].
    rewrite Hr, Hf. cbn [mbind option_bind]. unfold np_divide.
    rewrite decide_True by lia.
    split; [done|]. split; [rewrite length_zip_with; lia|].
    intros k x y Hx Hy.
    assert (Hout : zip_with fdiv recent first !! k = Some (fdiv x y))
      by (apply lookup_zip_with_Some; eauto).
    split; [exact Hout|]. intros [Hn|Hn]; rewrite Hout; f_equal;
      apply isnan_true in Hn; subst; [apply fdiv_nan_l|apply fdiv_nan_r].
Qed.

Lemma momentum_is_tenth_last_row_over_first_witness :
  let close := [of_Z 2; nan] :: replicate 29 [of_Z 3; of_Z 1] in
  rectangular 2 close
  /\ exists out,
       Momentum_compute close = Some out
       /\ out = [fdiv (of_Z 3) (of_Z 2); nan].
Proof.
  intros close.
  assert (Hrect : rectangular 2 close).
  { constructor; [done|]. apply Forall_replicate. done. }
  split; [exact Hrect|].
  destruct (proj2 (momentum_is_tenth_last_row_over_first 2 close Hrect))
    as (recent & first & out & _ & _ & Hout & _).
  { cbn. lia. }
  exists out. split; [exact Hout|].
  vm_compute in Hout. injection Hout as <-. reflexivity.
Defined.






End MomentumScreen.

(** ** Sorted frames: the order of the rows and the rows that are kept *)

Section FloatOrder.

(** Case analysis on the comparisons of two or three doubles. *)
Ltac float_cases :=
  unfold fleb, fltb, SFleb, SFltb, SFcompare, isnan;
  intros;
  repeat match goal with
         | s : bool |- _ => destruct s
         end;
  try done;
  change PosDef.Pos.compare_cont with Pos.compare_cont in *;
  repeat match goal with
         | H : context [Z.compare ?a ?b] |- _ =>
             destruct (Z.compare_spec a b); try done; try lia
         | |- context [Z.compare ?a ?b] =>
             destruct (Z.compare_spec a b); try done; try lia
         | H : context [Pos.compare_cont Eq ?a ?b] |- _ =>
             change (Pos.compare_cont Eq a b) with (Pos.compare a b) in *;
             destruct (Pos.compare_spec a b); try done; try lia
         | |- context [Pos.compare_cont Eq ?a ?b] =>
             change (Pos.compare_cont Eq a b) with (Pos.compare a b) in *;
             destruct (Pos.compare_spec a b); try done; try lia
         end.

(** [<=] on doubles is transitive, and total on the doubles that are not
    NaN; [<] excludes the converse [<=]. *)
Lemma fleb_trans (x y z : float) :
  fleb x y = true -> fleb y z = true -> fleb x z = true.
Proof. destruct x, y, z; float_cases. Qed.

Lemma fleb_total (x y : float) :
  isnan x = false -> isnan y = false -> fleb x y = false -> fleb y x = true.
Proof. destruct x, y; float_cases. Qed.

Lemma fltb_not_fleb (x y : float) :
  fltb y x = true -> isnan y = false /\ fleb x y = false.
Proof. destruct x, y; float_cases; split; float_cases. Qed.

End FloatOrder.

Section SortedFrames.

Lemma StronglySorted_append {A} (R : A -> A -> Prop) (l1 l2 : list A) :
  StronglySorted R l1 -> StronglySorted R l2 ->
  (forall a b, a ∈ l1 -> b ∈ l2 -> R a b) ->
  StronglySorted R (l1 ++ l2).
Proof.
  induction 1 as [|x l1 Hl1 IH Hx]; intros H2 Hc; [done|].
  cbn. constructor.
  - apply IH; [done|]. intros a b Ha Hb. apply Hc; [by right|done].
  - apply Forall_app. split; [done|].
    apply Forall_forall. intros b Hb. apply Hc; [by left|done].
Qed.

Lemma StronglySorted_after {A} (R : A -> A -> Prop) (l1 l2 : list A) (x : A) :
  StronglySorted R (l1 ++ x :: l2) -> Forall (R x) l2.
Proof.
  induction l1 as [|y l1 IH]; cbn; intros H;
    apply StronglySorted_inv in H as [H Hx]; [done|by apply IH].
Qed.

(** Insertion sort by a comparison that is transitive, and total on the
    rows sorted, gives a sorted frame. *)
Lemma sort_by_sorted_total {A} (le : A -> A -> bool) (l : list A) :
  (forall x y z, le x y = true -> le y z = true -> le x z = true) ->
  (forall x y, x ∈ l -> y ∈ l -> le x y = false -> le y x = true) ->
  StronglySorted (fun x y => le x y = true) (sort_by le l).
Proof.
  intros Htrans. induction l as [|x l IH]; intros Htot; [constructor|].
  unfold sort_by in *. cbn [foldr].
  assert (Hs : StronglySorted (fun x y => le x y = true)
                 (foldr (insert_by le) [] l)).
  { apply IH. intros a b Ha Hb. apply Htot; by right. }
  assert (Hin : forall y, y ∈ foldr (insert_by le) [] l -> y ∈ l).
  { intros y Hy. by rewrite (sort_by_perm le l) in Hy. }
  revert Hs Hin. generalize (foldr (insert_by le) [] l). intros s Hs.
  induction Hs as [|y s Hs IHs Hy]; intros Hin; cbn [insert_by].
  - repeat constructor.
  - destruct (le x y) eqn:Hxy.
    + constructor; [by constructor|]. constructor; [done|].
      eapply Forall_impl; [exact Hy|]. cbn. intros z Hz.
      by apply (Htrans x y z).
    + constructor.
      * apply IHs. intros z Hz. apply Hin. by right.
      * rewrite insert_by_perm. constructor; [|done].
        apply Htot; [by left|right; apply Hin; by left|done].
Qed.

(** The order [sort_values] leaves a frame in, ascending: keys that are
    not NaN never decrease, and the rows with a NaN key come last. *)
Definition ascending_nan_last (x y : float) : Prop :=
  isnan y = true \/ fleb x y = true.

Lemma sort_values_sorted {A} (key : A -> float) (frame : list A) :
  StronglySorted (fun a b => ascending_nan_last (key a) (key b))
    (sort_values key true frame).
Proof.
  unfold sort_values, ascending_nan_last. apply StronglySorted_append.
  - eapply StronglySorted_weaken;
      [|apply (sort_by_sorted_total (fun x y => fleb (key x) (key y)))].
    + cbn. intros x y Hxy. by right.
    + intros x y z. apply fleb_trans.
    + intros x y Hx Hy.
      apply list_elem_of_In, List.filter_In in Hx as [_ Hx].
      apply list_elem_of_In, List.filter_In in Hy as [_ Hy].
      apply negb_true_iff in Hx, Hy. by apply fleb_total.
  - induction frame as [|a frame IH]; cbn [List.filter]; [constructor|].
    destruct (isnan (key a)) eqn:Ha; [|done].
    constructor; [done|]. apply Forall_forall. intros b Hb.
    apply list_elem_of_In, List.filter_In in Hb as [_ Hb]. by left.
  - intros a b _ Hb.
    apply list_elem_of_In, List.filter_In in Hb as [_ Hb]. by left.
Qed.

(** In a sorted frame, the rows strictly below a row of the first [n]
    all come before it: there are fewer than [n] of them. *)
Lemma head_sorted_count {A} (key : A -> float) (n : nat) (l : list A)
    (x : A) :
  StronglySorted (fun a b => ascending_nan_last (key a) (key b)) l ->
  x ∈ head n l -> isnan (key x) = false ->
  (length (List.filter (fun y => fltb (key y) (key x)) l) < n)%nat.
Proof.
  unfold head. intros Hs Hx Hpx.
  apply list_elem_of_lookup in Hx as [i Hi].
  apply lookup_take_Some in Hi as [Hi Hlt].
  rewrite <- (take_drop_middle l i x Hi) in Hs |- *.
  apply StronglySorted_after in Hs.
  rewrite List.filter_app.
  assert (E : List.filter (fun y => fltb (key y) (key x))
                (x :: drop (S i) l) = []).
  { cbn [List.filter].
    assert (Hxx : fltb (key x) (key x) = false).
    { destruct (fltb (key x) (key x)) eqn:E; [|done].
      apply fltb_not_fleb in E as [_ E].
      by rewrite (fleb_total _ _ Hpx Hpx E) in E. }
    rewrite Hxx. induction Hs as [|y t Hy _ IH]; [done|].
    cbn [List.filter].
    destruct (fltb (key y) (key x)) eqn:E; [|done].
    apply fltb_not_fleb in E as [Hn E].
    destruct Hy as [Hy|Hy]; congruence. }
  rewrite E, app_nil_r.
  pose proof (List.filter_length_le (fun y => fltb (key y) (key x))
                (take i l)) as Hle.
  rewrite length_take in Hle. lia.
Qed.

Lemma filter_perm {A} (f : A -> bool) (l l' : list A) :
  Permutation l l' -> Permutation (List.filter f l) (List.filter f l').
Proof.
  induction 1 as [|x l l' _ IH|x y l|l1 l2 l3 _ IH1 _ IH2]; cbn.
  - done.
  - destruct (f x); [by constructor|done].
  - destruct (f x), (f y); try done. apply perm_swap.
  - by etrans.
Qed.

(** The rows that [sort_values(...).head(25).dropna()] keeps. *)
Lemma selection_rows {A} (key : A -> float) (columns : A -> list float)
    (frame : list A) (x : A) :
  (forall r, key r ∈ columns r) ->
  x ∈ dropna columns (head 25 (sort_values key true frame)) ->
  x ∈ frame
  /\ Forall (fun v => isnan v = false) (columns x)
  /\ (length (List.filter (fun y => fltb (key y) (key x)) frame) < 25)%nat.
Proof.
  intros Hkey Hx. apply elem_of_dropna in Hx as [Hx Hcols].
  split; [|split; [exact Hcols|]].
  - apply elem_of_head in Hx. by rewrite sort_values_perm in Hx.
  - rewrite (filter_length_perm _ frame (sort_values key true frame))
      by (symmetry; apply sort_values_perm).
    apply head_sorted_count; [apply sort_values_sorted|done|].
    rewrite Forall_forall in Hcols. apply Hcols, Hkey.
Qed.

Lemma selection_of_short_frame {A} (key : A -> float)
    (columns : A -> list float) (frame : list A) :
  (length frame <= 25)%nat ->
  Permutation (dropna columns (head 25 (sort_values key true frame)))
    (dropna columns frame).
Proof.
  intros Hlen. unfold head, dropna. rewrite take_ge.
  - apply filter_perm, sort_values_perm.
  - by rewrite (Permutation_length (sort_values_perm key true frame)).
Qed.

(** X6.  [before_trading_start] of the yearly strategy keeps the rows of
    the pipeline output and puts them in ascending order of
    ['ev_over_ebit']: along [context.output] the ratios that are not NaN
    never decrease and the rows whose ratio is NaN come last;
    [context.security_list] is the index of that sorted frame.  The
    anchor month and the weights are left as they were. *)
Theorem output_is_sorted_by_ev_over_ebit
    (ctx : BlackCat.context) (pipeline_output : list BlackCat.row) :
  exists out,
    BlackCat.output (BlackCat.before_trading_start ctx pipeline_output)
    = Some out
    /\ BlackCat.security_list
         (BlackCat.before_trading_start ctx pipeline_output)
       = Some (BlackCat.sec <$> out)
    /\ Permutation out pipeline_output
    /\ StronglySorted
         (fun a b => ascending_nan_last (BlackCat.ev_over_ebit a)
                       (BlackCat.ev_over_ebit b))
         out
    /\ BlackCat.month_to_run
         (BlackCat.before_trading_start ctx pipeline_output)
       = BlackCat.month_to_run ctx
    /\ BlackCat.weights (BlackCat.before_trading_start ctx pipeline_output)
       = BlackCat.weights ctx.
Proof.
  eexists. split; [reflexivity|]. split; [reflexivity|].
  split; [apply sort_values_perm|]. split; [apply sort_values_sorted|].
  by split.
Qed.

(** X7.  A row of the Magic Formula's buy list is a row of the pipeline
    output without a NaN in any of its five columns, and fewer than 25
    rows of the output have a strictly lower ['MagicFormula_rank'].  When
    the output has at most 25 rows, the buy list holds exactly its rows
    without a NaN. *)
Theorem buy_list_holds_the_lowest_ranks (output : list MagicFormula.row) :
  (forall x,
     x ∈ MagicFormula.buy_list output ->
     x ∈ output
     /\ Forall (fun v => isnan v = false) (MagicFormula.row_columns x)
     /\ (length (List.filter
                   (fun y => fltb (MagicFormula.MagicFormula_rank y)
                               (MagicFormula.MagicFormula_rank x))
                   output) < 25)%nat)
  /\ ((length output <= 25)%nat ->
      Permutation (MagicFormula.buy_list output)
        (dropna MagicFormula.row_columns output)).
Proof.
  split.
  - intros x. apply selection_rows. intros r.
    unfold MagicFormula.row_columns. do 4 right. by left.
  - apply selection_of_short_frame.
Qed.

(** X8.  The same for the long list of the value strategy: each of its
    rows is a row of the pipeline output whose ['ranking_score'] is not
    NaN, with fewer than 25 rows of the output scored strictly lower; an
    output of at most 25 rows is taken whole, but for the rows whose
    score is NaN. *)
Theorem long_list_holds_the_lowest_scores
    (output : list ValueLongOnly.row) :
  (forall x,
     x ∈ ValueLongOnly.long_list output ->
     x ∈ output
     /\ isnan (ValueLongOnly.ranking_score x) = false
     /\ (length (List.filter
                   (fun y => fltb (ValueLongOnly.ranking_score y)
                               (ValueLongOnly.ranking_score x))
                   output) < 25)%nat)
  /\ ((length output <= 25)%nat ->
      Permutation (ValueLongOnly.long_list output)
        (dropna ValueLongOnly.row_columns output)).
Proof.
  split.
  - intros x Hx.
    apply (selection_rows ValueLongOnly.ranking_score
             ValueLongOnly.row_columns) in Hx as (Hin & Hcols & Hcount).
    + split; [done|]. split; [by inversion Hcols|done].
    + intros r. by left.
  - apply selection_of_short_frame.
Qed.

End SortedFrames.

(** ** The orders of the two long-only strategies *)

Section LongOnlyOrders.

Lemma elem_of_filter_list {A} (f : A -> bool) (l : list A) (x : A) :
  x ∈ List.filter f l <-> x ∈ l /\ f x = true.
Proof. by rewrite !list_elem_of_In, List.filter_In. Qed.

Lemma not_in_index (s : security) (index : list security) :
  negb (bool_decide (s ∈ index)) = true <-> s ∉ index.
Proof.
  rewrite negb_true_iff. split.
  - by apply bool_decide_eq_false.
  - by apply bool_decide_eq_false_2.
Qed.

(** X9.  [rebalance] of the value strategy never raises on the long list
    that [before_trading_start] leaves, and its orders are exactly these:
    [order_target_percent(s, 0.04)] for every security [s] of the long
    list that can be traded, and [order_target(s, 0)] for every held
    security that is not in the long list and can be traded.  So the
    weight is 4% however few securities are selected, no security that
    cannot be traded is ordered, and no security gets both orders. *)
Theorem value_rebalance_orders
    (output : list ValueLongOnly.row) (positions : list security)
    (can_trade : security -> bool) :
  exists orders,
    ValueLongOnly.rebalance (ValueLongOnly.long_list output) positions
      can_trade = Some orders
    /\ forall o,
         o ∈ orders
         <-> (exists s,
                o = OrderTargetPercent s (PyFloat (decimal 4 2))
                /\ s ∈ ValueLongOnly.sec <$> ValueLongOnly.long_list output
                /\ can_trade s = true)
             \/ (exists s,
                   o = OrderTarget s 0
                   /\ s ∈ positions
                   /\ (s ∉ ValueLongOnly.sec
                           <$> ValueLongOnly.long_list output)
                   /\ can_trade s = true).
Proof.
  unfold ValueLongOnly.rebalance.
  rewrite value_weight_value by apply long_list_at_most_25.
  cbn [mbind option_bind]. eexists. split; [reflexivity|].
  intros o. rewrite elem_of_app, !list_elem_of_fmap.
  set (ll := ValueLongOnly.long_list output).
  split.
  - intros [(s & -> & Hs)|(s & -> & Hs)].
    + left. exists s. apply elem_of_filter_list in Hs as [Hs Hct].
      split; [|done].
      destruct (decide (length ll = 0%nat)) as [E|_]; [|done].
      apply nil_length_inv in E. rewrite E in Hs.
      by apply elem_of_nil in Hs.
    + right. exists s. apply elem_of_filter_list in Hs as [Hs Hc].
      apply andb_true_iff in Hc as [Hc Hct].
      by apply not_in_index in Hc.
  - intros [(s & -> & Hs & Hct)|(s & -> & Hs & Hn & Hct)].
    + left. exists s. split.
      * destruct (decide (length ll = 0%nat)) as [E|_]; [|done].
        apply nil_length_inv in E. rewrite E in Hs.
        by apply elem_of_nil in Hs.
      * by apply elem_of_filter_list.
    + right. exists s. split; [done|]. apply elem_of_filter_list.
      split; [done|]. apply andb_true_iff. split; [|done].
      by apply not_in_index.
Qed.

(** X10.  [before_trading_start] of the Magic Formula never raises and
    leaves the buy list and a weight with which the two scheduled
    functions place exactly these orders.  [buying_in_January]: in month
    1, [order_target_percent(s, 0.04)] for every security of the buy list
    that can be traded; in any other month, none.  [sell_in_December]: in
    month 12 with a portfolio value other than zero, [order_target(s, 0)]
    for every held security that is not in the day's buy list and can be
    traded; otherwise none.  A held security that is in the buy list of
    the day is not sold. *)
Theorem magic_formula_orders_by_calendar (output : list MagicFormula.row) :
  exists w,
    MagicFormula.before_trading_start output
    = Some (MagicFormula.buy_list output, w)
    /\ (forall month can_trade o,
          o ∈ MagicFormula.buying_in_January month
                (MagicFormula.buy_list output) w can_trade
          <-> month = 1
              /\ exists s,
                   o = OrderTargetPercent s (PyFloat (decimal 4 2))
                   /\ s ∈ MagicFormula.sec <$> MagicFormula.buy_list output
                   /\ can_trade s = true)
    /\ (forall month positions_value_nonzero positions can_trade o,
          o ∈ MagicFormula.sell_in_December month positions_value_nonzero
                positions (MagicFormula.buy_list output) can_trade
          <-> month = 12 /\ positions_value_nonzero = true
              /\ exists s,
                   o = OrderTarget s 0
                   /\ s ∈ positions
                   /\ (s ∉ MagicFormula.sec
                           <$> MagicFormula.buy_list output)
                   /\ can_trade s = true).
Proof.
  unfold MagicFormula.before_trading_start.
  rewrite magic_weight_value by apply buy_list_at_most_25.
  cbn [mbind option_bind]. eexists. split; [reflexivity|].
  set (bl := MagicFormula.buy_list output). split.
  - intros month can_trade o. unfold MagicFormula.buying_in_January.
    destruct (decide (month = 1)) as [->|Hm].
    + rewrite list_elem_of_fmap. split.
      * intros (s & -> & Hs). split; [done|]. exists s.
        apply elem_of_filter_list in Hs as [Hs Hct]. split; [|done].
        destruct (decide (length bl = 0%nat)) as [E|_]; [|done].
        apply nil_length_inv in E. rewrite E in Hs.
        by apply elem_of_nil in Hs.
      * intros (_ & s & -> & Hs & Hct). exists s. split.
        -- destruct (decide (length bl = 0%nat)) as [E|_]; [|done].
           apply nil_length_inv in E. rewrite E in Hs.
           by apply elem_of_nil in Hs.
        -- by apply elem_of_filter_list.
    + split; [by intros ?%elem_of_nil|by intros [? _]].
  - intros month pv positions can_trade o.
    unfold MagicFormula.sell_in_December.
    destruct (decide (month = 12)) as [->|Hm].
    + rewrite bool_decide_eq_true_2 by done. cbn [andb].
      destruct pv.
      * rewrite list_elem_of_fmap. split.
        -- intros (s & -> & Hs). split; [done|]. split; [done|]. exists s.
           apply elem_of_filter_list in Hs as [Hs Hc].
           apply andb_true_iff in Hc as [Hc Hct].
           by apply not_in_index in Hc.
        -- intros (_ & _ & s & -> & Hs & Hn & Hct). exists s.
           split; [done|]. apply elem_of_filter_list. split; [done|].
           apply andb_true_iff. split; [|done]. by apply not_in_index.
      * split; [by intros ?%elem_of_nil|by intros (_ & ? & _)].
    + rewrite bool_decide_eq_false_2 by done. cbn [andb].
      split; [by intros ?%elem_of_nil|by intros [? _]].
Qed.

(** X11.  Each row of the Magic Formula's pipeline output belongs to an
    asset of the screen [universe] and carries that asset's two factor
    values; its ['MagicFormula_rank'] is the floating-point sum of its
    two rank columns.  When [universe] holds the values of the filter
    that [make_pipeline] builds, the asset is in [QTradableStocksUS], has
    a sector and a market capitalisation above one billion: the sector
    code itself is not constrained. *)
Theorem magic_output_rows_are_universe_members
    (rank : bool -> list bool -> list float -> list float)
    (assets : list security) (universe : list bool)
    (ey roic : list float) (r : MagicFormula.row) :
  r ∈ MagicFormula.pipeline_output rank assets universe ey roic ->
  exists k,
    assets !! k = Some (MagicFormula.sec r)
    /\ universe !! k = Some true
    /\ MagicFormula.earnings_yield r = default nan (ey !! k)
    /\ MagicFormula.roic r = default nan (roic !! k)
    /\ MagicFormula.MagicFormula_rank r
       = fadd (MagicFormula.Earnings_yield_rank r) (MagicFormula.Roic_rank r)
    /\ forall d : MagicFormula.platform_data,
         universe
         = (fun s => default false (MagicFormula.in_universe d s)) <$> assets ->
         MagicFormula.QTradableStocksUS d (MagicFormula.sec r) = true
         /\ MagicFormula.Sector d (MagicFormula.sec r) <> -1
         /\ fgtb (MagicFormula.market_cap_latest d (MagicFormula.sec r))
              (of_Z 1000000000) = true.
Proof.
  unfold MagicFormula.pipeline_output. intros H.
  apply list_elem_of_fmap in H as ([b r'] & -> & H).
  apply list_elem_of_In, List.filter_In in H as [H Hb].
  apply list_elem_of_In, elem_of_lookup_imap in H as (k & s & E & Hk).
  cbn [fst] in Hb. subst b. injection E as Hu ->.
  exists k. cbn [snd MagicFormula.sec MagicFormula.earnings_yield
                   MagicFormula.roic MagicFormula.MagicFormula_rank
                   MagicFormula.Earnings_yield_rank MagicFormula.Roic_rank].
  assert (Huk : universe !! k = Some true).
  { destruct (universe !! k) as [[]|]; done. }
  split; [done|]. split; [done|]. split; [done|]. split; [done|]. split.
  - rewrite lookup_zip_with.
    destruct (rank false universe ey !! k) as [x|]; [|done].
    destruct (rank false universe roic !! k) as [y|]; [done|].
    cbn. by rewrite fadd_nan_r.
  - intros d ->. rewrite list_lookup_fmap, Hk in Huk. cbn in Huk.
    injection Huk as Huk. revert Huk.
    unfold MagicFormula.in_universe, MagicFormula.make_pipeline_universe.
    cbn. rewrite andb_true_r. intros Huk.
    apply andb_true_iff in Huk as [Huk Hcap].
    apply andb_true_iff in Huk as [Hq Hsec].
    split; [done|]. split; [|done].
    apply negb_true_iff, Z.eqb_neq in Hsec. done.
Qed.

Lemma magic_output_rows_are_universe_members_witness :
  let r :=
    {| MagicFormula.sec := 7%nat;
       MagicFormula.earnings_yield := of_Z 2;
       MagicFormula.Earnings_yield_rank := of_Z 1;
       MagicFormula.roic := of_Z 3;
       MagicFormula.Roic_rank := of_Z 1;
       MagicFormula.MagicFormula_rank := of_Z 2 |} in
  r ∈ MagicFormula.pipeline_output all_first [7%nat] [true]
        [of_Z 2] [of_Z 3]
  /\ exists k,
       [7%nat] !! k = Some (MagicFormula.sec r)
       /\ [true] !! k = Some true.
Proof.
  intros r.
  assert (Hr : r ∈ MagicFormula.pipeline_output all_first [7%nat] [true]
                     [of_Z 2] [of_Z 3]).
  { assert (E : MagicFormula.pipeline_output all_first [7%nat] [true]
                  [of_Z 2] [of_Z 3] = [r]) by (vm_compute; reflexivity).
    rewrite E. apply list_elem_of_here. }
  split; [exact Hr|].
  destruct (magic_output_rows_are_universe_members all_first [7%nat] [true]
              [of_Z 2] [of_Z 3] r Hr) as (k & Hk & Hu & _).
  exists k. by split.
Defined.

End LongOnlyOrders.

(** ** The trailing-twelve-month factor over a whole window *)

Section TrailingTwelveMonthsFurther.
Import BlackCat.

(** X12.  On two windows of one shape, with at least one row,
    [TrailingTwelveMonths.compute] never raises.  [out.factor] has one
    entry per security, the factor [ttm] of that security's own column of
    [values] and own column of [dates].  [out.asof_date] has one entry
    per security too: the date of the security in the last row of
    [dates], converted to a double, so a date that no double holds is
    rounded ([2^53 + 1] nanoseconds become [2^53]), the whole day 17270
    is kept as it is, and a missing date becomes [-2^63]. *)
Theorem ttm_compute_is_columnwise
    (n : nat) (values : list (list float)) (dates : list (list Z))
    (asof : list Z) :
  rectangular n values -> rectangular n dates ->
  length values = length dates -> last dates = Some asof ->
  (exists factor asof_date,
     TrailingTwelveMonths_compute values dates = Some (factor, asof_date)
     /\ length factor = n
     /\ length asof_date = n
     /\ forall j,
          (j < n)%nat ->
          exists x latest,
            factor !! j = Some x
            /\ ttm (column nan j values) (column NaT j dates) = Some x
            /\ last (column NaT j dates) = Some latest
            /\ asof_date !! j = Some (of_Z latest))
  /\ (exists m e,
        of_Z (2 ^ 53 + 1) = S754_finite false m e
        /\ Z.pos m * 2 ^ e = 2 ^ 53)
  /\ (exists m e,
        of_Z (on_day 17270) = S754_finite false m e
        /\ Z.pos m * 2 ^ e = on_day 17270)
  /\ (exists m e,
        of_Z NaT = S754_finite true m e /\ Z.pos m * 2 ^ e = 2 ^ 63).
Proof.
  intros Hv Hd Hlen Hlast.
  split;
    [|repeat split; eexists _, _; split; vm_compute; reflexivity].
  destruct (ttm_compute_columns n values dates asof Hv Hd Hlen Hlast)
    as (Hc & Hasof & Htot).
  eexists _, _. split; [exact Hc|].
  split; [by rewrite length_fmap, length_seq|].
  split; [by rewrite length_fmap|].
  intros j Hj. destruct (Htot j) as [x Hx].
  destruct (lookup_lt_is_Some_2 asof j) as [latest Hl]; [lia|].
  exists x, latest. split; [|split; [exact Hx|split]].
  - rewrite list_lookup_fmap, lookup_seq_lt by done.
    cbn [fmap option_fmap option_map Nat.add]. by rewrite Hx.
  - by eapply column_last.
  - by rewrite list_lookup_fmap, Hl.
Qed.

Lemma ttm_compute_is_columnwise_witness :
  let values := [[of_Z 1; of_Z 10]; [of_Z 2; of_Z 20]] in
  let dates :=
    [[on_day 17000; on_day 17001]; [on_day 17090; on_day 17091]] in
  rectangular 2 values /\ rectangular 2 dates
  /\ length values = length dates
  /\ last dates = Some [on_day 17090; on_day 17091]
  /\ exists factor asof_date,
       TrailingTwelveMonths_compute values dates = Some (factor, asof_date)
       /\ factor = [of_Z 3; of_Z 30]
       /\ asof_date = [of_Z (on_day 17090); of_Z (on_day 17091)].
Proof.
  intros values dates.
  assert (Hv : rectangular 2 values) by (repeat constructor).
  assert (Hd : rectangular 2 dates) by (repeat constructor).
  assert (Hlen : length values = length dates) by reflexivity.
  assert (Hlast : last dates = Some [on_day 17090; on_day 17091])
    by reflexivity.
  split; [exact Hv|]. split; [exact Hd|]. split; [exact Hlen|].
  split; [exact Hlast|].
  destruct (proj1 (ttm_compute_is_columnwise 2 values dates _ Hv Hd Hlen
                     Hlast))
    as (factor & asof_date & Hf & _).
  exists factor, asof_date. split; [exact Hf|].
  vm_compute in Hf. injection Hf as <- <-. split; reflexivity.
Defined.

(** *** Observations that the mask leaves out *)

Lemma bool_index_skip {A} (p l : list A) (m : list bool) :
  bool_index (p ++ l) (replicate (length p) false ++ m) = bool_index l m.
Proof. induction p as [|x p IH]; [done|]. cbn. exact IH. Qed.

Lemma bool_index_none {A} (l : list A) (n : nat) :
  bool_index l (replicate n false) = [].
Proof. revert n; induction l as [|x l IH]; intros [|n]; cbn; auto. Qed.

(** An observation dated 52 weeks or more before [latest], or not dated
    at all, is masked out. *)
Lemma old_date_masked (latest x : Z) :
  latest < 2 ^ 63 ->
  x = NaT \/ (NaT < x /\ x + weeks52 <= latest) ->
  dt_gt (dt_add x weeks52) latest = false.
Proof.
  intros Hl [->|[Hlo Hhi]]; [done|].
  unfold dt_gt, dt_add.
  destruct (Z.eqb_spec x NaT) as [?|_]; [done|].
  assert (Hw : wrap64 (x + weeks52) = x + weeks52).
  { unfold wrap64. rewrite Z.mod_small; [lia|].
    unfold NaT, weeks52 in *. lia. }
  rewrite Hw.
  destruct (Z.gtb_spec (x + weeks52) latest) as [?|_]; [lia|].
  by rewrite andb_false_r.
Qed.

(** X13.  The rows at the start of a window whose as-of dates lie 52
    weeks or more before the date of the last row, or are missing, do not
    count: the factor is the same as on the window without these rows,
    whatever values they hold (NaN included). *)
Theorem ttm_ignores_rows_older_than_52_weeks
    (pv v : list float) (pd d : list Z) (latest : Z) :
  length pv = length pd -> last d = Some latest -> latest < 2 ^ 63 ->
  Forall (fun x => x = NaT \/ (NaT < x /\ x + weeks52 <= latest)) pd ->
  ttm (pv ++ v) (pd ++ d) = ttm v d.
Proof.
  intros Hlen Hlast Hl Hold.
  assert (Hne : d <> []) by (intros ->; done).
  unfold ttm, recent.
  rewrite last_app, Hlast. cbn [mbind option_bind].
  rewrite fmap_app.
  assert (E : (fun x => dt_gt (dt_add x weeks52) latest) <$> pd
              = replicate (length pd) false).
  { clear Hlen. induction Hold as [|x pd Hx _ IH]; [done|].
    cbn. rewrite IH. f_equal. by apply old_date_masked. }
  rewrite E. unfold mask_index.
  set (m := (fun x => dt_gt (dt_add x weeks52) latest) <$> d).
  destruct (decide (length v = length m)) as [Hv|Hv].
  - rewrite (decide_True (P := length (pv ++ v) = _))
      by (rewrite !length_app, length_replicate; lia).
    rewrite (decide_True (P := length (pd ++ d) = _))
      by (rewrite !length_app, length_replicate; unfold m;
          rewrite length_fmap; lia).
    rewrite decide_True by (unfold m; by rewrite length_fmap).
    cbn [mbind option_bind].
    rewrite <- Hlen at 1. by rewrite !bool_index_skip.
  - rewrite (decide_False (P := length (pv ++ v) = _))
      by (rewrite !length_app, length_replicate; lia).
    done.
Qed.

Lemma ttm_ignores_rows_older_than_52_weeks_witness :
  length [of_Z 100] = length [on_day 16900]
  /\ last four_quarters = Some (on_day 17270)
  /\ on_day 17270 < 2 ^ 63
  /\ ttm (of_Z 100 :: replicate 4 (of_Z 10)) (on_day 16900 :: four_quarters)
     = Some (of_Z 40).
Proof.
  assert (Hlen : length [of_Z 100] = length [on_day 16900]) by reflexivity.
  assert (Hlast : last four_quarters = Some (on_day 17270)) by reflexivity.
  assert (Hl : on_day 17270 < 2 ^ 63) by (vm_compute; reflexivity).
  assert (Hold : Forall (fun x => x = NaT
                                  \/ (NaT < x
                                      /\ x + weeks52 <= on_day 17270))
                   [on_day 16900]).
  { constructor; [|constructor]. right.
    split; vm_compute; [reflexivity|discriminate]. }
  split; [exact Hlen|]. split; [exact Hlast|]. split; [exact Hl|].
  etrans;
    [exact (ttm_ignores_rows_older_than_52_weeks [of_Z 100]
              (replicate 4 (of_Z 10)) [on_day 16900] four_quarters
              (on_day 17270) Hlen Hlast Hl Hold)|].
  vm_compute. reflexivity.
Defined.

(** X14.  When the as-of date of the last row is missing ([NaT]), no row
    passes the mask and the factor is the empty sum, 0.0, whatever the
    values are.  Such a security is not removed by the filter on negative
    earnings ([ebit_ttm < 0] is false), so it is in the mask of [bottom]
    as soon as it passes the other filters, and with a positive
    enterprise value its ratio [ev / ebit_ttm] is +infinity. *)
Theorem undated_last_row_gives_zero_ebit
    (v : list float) (d : list Z) (a : listing) :
  length v = length d -> last d = Some NaT ->
  ttm v d = Some zero
  /\ bottom_mask a zero
     = (in_QTradableStocksUS a && is_primary_share a
        && security_type_is_common_stock a
        && negb (is_depositary_receipt a)
        && negb (exchange_id_starts_with_OTC a)
        && negb (symbol_ends_with_WI a)
        && negb (standard_name_matches_LP a)
        && limited_partnership_isnull a && market_cap_notnull a
        && negb (morningstar_sector_code a =? 103))
  /\ (fgtb (enterprise_value a) zero = true ->
      ev_over_ebit_factor a zero = pos_inf).
Proof.
  intros Hlen Hlast. split; [|split].
  - unfold ttm, recent. rewrite Hlast. cbn [mbind option_bind].
    assert (E : (fun x => dt_gt (dt_add x weeks52) NaT) <$> d
                = replicate (length d) false).
    { clear. induction d as [|x d IH]; [done|]. cbn [fmap list_fmap].
      change (list_fmap ?A ?B ?f ?l) with (f <$> l). rewrite IH.
      cbn [length replicate]. f_equal.
      unfold dt_gt. by rewrite andb_false_r. }
    rewrite E. unfold mask_index.
    rewrite !decide_True by (by rewrite length_replicate).
    cbn [mbind option_bind].
    by rewrite !bool_index_none.
  - unfold bottom_mask, tradeable_stocks.
    change (fltb zero zero) with false. cbn [negb].
    rewrite andb_true_r.
    by rewrite !andb_assoc.
  - unfold ev_over_ebit_factor. by destruct (enterprise_value a) as [|[]| |[]].
Qed.

Lemma undated_last_row_gives_zero_ebit_witness :
  length [of_Z 5; of_Z 7] = length [on_day 17000; NaT]
  /\ last [on_day 17000; NaT] = Some NaT
  /\ ttm [of_Z 5; of_Z 7] [on_day 17000; NaT] = Some zero.
Proof.
  assert (Hlen : length [of_Z 5; of_Z 7] = length [on_day 17000; NaT])
    by reflexivity.
  assert (Hlast : last [on_day 17000; NaT] = Some NaT) by reflexivity.
  split; [exact Hlen|]. split; [exact Hlast|].
  exact (proj1 (undated_last_row_gives_zero_ebit [of_Z 5; of_Z 7]
                  [on_day 17000; NaT]
                  {| in_QTradableStocksUS := true;
                     is_primary_share := true;
                     security_type_is_common_stock := true;
                     is_depositary_receipt := false;
                     exchange_id_starts_with_OTC := false;
                     symbol_ends_with_WI := false;
                     standard_name_matches_LP := false;
                     limited_partnership_isnull := true;
                     market_cap_notnull := true;
                     morningstar_sector_code := 311;
                     enterprise_value := of_Z 50 |}
                  Hlen Hlast)).
Defined.

End TrailingTwelveMonthsFurther.

(** ** The long/short strategy: score, month-end cycle, orders *)

Section LongShortFurther.
Import Piotroski.

(** X15.  The factor class [Piotroski], which the script defines and
    never uses, computes for every asset the same score as the sum of the
    nine one-comparison factors that [initialize] adds up, an integer
    between 0 and 9. *)
Theorem single_factor_equals_sum_of_nine (f : fundamentals) :
  Piotroski_compute f = piotroski_score f
  /\ 0 <= Piotroski_compute f <= 9.
Proof.
  assert (E : Piotroski_compute f = piotroski_score f).
  { unfold Piotroski_compute, piotroski_score, ROA, ROAChange, CashFlow,
      CashFlowFromOps, LongTermDebtRatioChange, CurrentDebtRatioChange,
      SharesOutstandingChange, GrossMarginChange, AssetsTurnoverChange.
    lia. }
  split; [exact E|]. rewrite E. apply piotroski_score_range.
Qed.

Lemma fgtb_nan_l (x : float) : fgtb nan x = false.
Proof. by destruct x. Qed.

Lemma fgtb_nan_r (x : float) : fgtb x nan = false.
Proof. by destruct x. Qed.

Lemma fltb_nan_l (x : float) : fltb nan x = false.
Proof. by destruct x. Qed.

Lemma fleb_nan_l (x : float) : fleb nan x = false.
Proof. by destruct x. Qed.

(** X16.  Missing data earns no point.  An asset whose return on assets
    is NaN on the last row loses the three comparisons that read it and
    scores at most 6, so it cannot pass the screen on its high side.  An
    asset whose eight inputs are all NaN on the last row scores 0, the
    lowest score: it passes the screen, on its low side, as soon as its
    EV/EBITDA is positive and the market-capitalisation filter holds, and
    is then a candidate for the short set. *)
Theorem missing_fundamentals_score_zero
    (market_cap : bool) (f : fundamentals) :
  isnan (roa_last f) = true ->
  piotroski_score f <= 6
  /\ (screen market_cap f = true -> piotroski_score f <= 3)
  /\ (Forall (fun x => isnan x = true)
        [cash_flow_last f; cash_flow_from_ops_last f; ltd_last f;
         cr_last f; so_last f; gm_last f; at_last f] ->
      piotroski_score f = 0
      /\ screen market_cap f
         = fgtb (ev_to_ebitda_latest f) zero && market_cap).
Proof.
  intros Hroa. apply isnan_true in Hroa.
  assert (H6 : piotroski_score f <= 6).
  { unfold piotroski_score, ROA, ROAChange, CashFlow, CashFlowFromOps,
      LongTermDebtRatioChange, CurrentDebtRatioChange,
      SharesOutstandingChange, GrossMarginChange, AssetsTurnoverChange.
    rewrite Hroa, !fgtb_nan_l, fgtb_nan_r. cbn [astype_int].
    repeat match goal with
           | |- context [astype_int ?b] =>
               let H := fresh in
               pose proof (astype_int_range b) as H;
               generalize dependent (astype_int b); intros
           end.
    lia. }
  split; [exact H6|]. split.
  - intros Hs. apply screen_threshold in Hs. lia.
  - intros Hall.
    repeat match goal with
           | H : Forall _ (_ :: _) |- _ =>
               let Hx := fresh "Hx" in
               apply Forall_cons in H as [Hx H];
               apply isnan_true in Hx
           end.
    assert (E : piotroski_score f = 0).
    { unfold piotroski_score, ROA, ROAChange, CashFlow, CashFlowFromOps,
        LongTermDebtRatioChange, CurrentDebtRatioChange,
        SharesOutstandingChange, GrossMarginChange, AssetsTurnoverChange.
      rewrite Hroa, Hx, Hx0, Hx1, Hx2, Hx3, Hx4, Hx5.
      by rewrite !fgtb_nan_l, fltb_nan_l, fleb_nan_l. }
    split; [exact E|]. unfold screen. by rewrite E.
Qed.

Lemma missing_fundamentals_score_zero_witness :
  let f :=
    {| roa_last := nan; roa_first := of_Z 1;
       cash_flow_last := nan; cash_flow_from_ops_last := nan;
       ltd_last := nan; ltd_first := of_Z 1;
       cr_last := nan; cr_first := of_Z 1;
       so_last := nan; so_first := of_Z 1;
       gm_last := nan; gm_first := of_Z 1;
       at_last := nan; at_first := of_Z 1;
       ev_to_ebitda_latest := of_Z 8 |} in
  isnan (roa_last f) = true
  /\ piotroski_score f <= 6
  /\ screen true f = true.
Proof.
  intros f.
  assert (Hroa : isnan (roa_last f) = true) by reflexivity.
  split; [exact Hroa|].
  split; [exact (proj1 (missing_fundamentals_score_zero true f Hroa))|].
  reflexivity.
Defined.

(** *** The month-end cycle *)

Lemma before_trading_start_idle (sort_values : frame_sort row)
    (ctx : context) (outs : list (list row)) :
  is_month_end ctx = false ->
  foldl (before_trading_start sort_values) ctx outs = ctx.
Proof.
  intros H. induction outs as [|out outs IH]; [done|].
  cbn [foldl]. unfold before_trading_start at 2. by rewrite H.
Qed.

(** X17.  Until [set_month_end] has run, [before_trading_start] takes no
    selection, whatever frames the pipeline returns: after any number of
    days the context is still the initial one, and a call of
    [trade_long], [trade_short] or [trade] reads an attribute that was
    never assigned and raises. *)
Theorem no_selection_before_first_month_end
    (sort_values : frame_sort row)
    (outs : list (list row)) (positions : list security)
    (can_trade : security -> bool) :
  foldl (before_trading_start sort_values) initialize outs = initialize
  /\ trade_long (foldl (before_trading_start sort_values) initialize outs)
       can_trade
     = None
  /\ trade_short (foldl (before_trading_start sort_values) initialize outs)
       can_trade
     = None
  /\ trade (foldl (before_trading_start sort_values) initialize outs)
       positions can_trade
     = None.
Proof.
  rewrite before_trading_start_idle by reflexivity. by repeat split.
Qed.

(** A frame of two rows of equal score. *)
Definition two_rows : list row :=
  [{| sec := 1%nat; piotroski := 8 |}; {| sec := 2%nat; piotroski := 8 |}].

(** X18.  On the day after [set_month_end], [before_trading_start] takes
    the two selections from the day's pipeline output: whatever order
    pandas' sort gives to rows of equal score, [context.long_stocks] is
    the first ten rows of the output in descending order of score and
    [context.short_stocks] its first ten rows in ascending order.
    [trade] then orders a target of 0% for exactly the held securities
    that are in neither of the selections the context holds, and clears
    the flag: on the following days [before_trading_start] changes
    nothing, so the selections stay those of the month end until
    [set_month_end] runs again. *)
Theorem month_end_cycle
    (sort_values : frame_sort row)
    (ctx : context) (out : list row) (positions : list security)
    (can_trade : security -> bool) (later : list (list row)) :
  sorts_values sort_values ->
  exists l sh ctx' orders,
    long_stocks (before_trading_start sort_values (set_month_end ctx) out)
    = Some l
    /\ short_stocks (before_trading_start sort_values (set_month_end ctx) out)
       = Some sh
    /\ first_ten false out l
    /\ first_ten true out sh
    /\ trade (before_trading_start sort_values (set_month_end ctx) out)
         positions can_trade
       = Some (ctx', orders)
    /\ is_month_end ctx' = false
    /\ long_stocks ctx' = Some l
    /\ short_stocks ctx' = Some sh
    /\ foldl (before_trading_start sort_values) ctx' later = ctx'
    /\ forall o,
         o ∈ orders
         <-> exists s,
               o = OrderTargetPercent s (PyInt 0)
               /\ s ∈ positions
               /\ (s ∉ sec <$> l)
               /\ (s ∉ sec <$> sh).
Proof.
  intros Hsort.
  exists (select_long sort_values out), (select_short sort_values out).
  eexists _, _.
  split; [reflexivity|]. split; [reflexivity|].
  split; [by apply head_is_first_ten|].
  split; [by apply head_is_first_ten|].
  split; [reflexivity|].
  split; [reflexivity|]. split; [reflexivity|]. split; [reflexivity|].
  split; [by apply before_trading_start_idle|].
  intros o. rewrite list_elem_of_fmap. split.
  - intros (s & -> & Hs). exists s. split; [done|].
    apply elem_of_filter_list in Hs as [Hs Hc].
    apply andb_true_iff in Hc as [Hl Hsh].
    apply not_in_index in Hl, Hsh. done.
  - intros (s & -> & Hs & Hl & Hsh). exists s. split; [done|].
    apply elem_of_filter_list. split; [done|].
    apply andb_true_iff. split; by apply not_in_index.
Qed.

Lemma month_end_cycle_witness :
  sorts_values (@insertion_sort_values row)
  /\ exists l sh ctx' orders,
       long_stocks (before_trading_start insertion_sort_values
                      (set_month_end initialize) two_rows)
       = Some l
       /\ short_stocks (before_trading_start insertion_sort_values
                          (set_month_end initialize) two_rows)
          = Some sh
       /\ trade (before_trading_start insertion_sort_values
                   (set_month_end initialize) two_rows)
            [1%nat; 7%nat] (fun _ => false)
          = Some (ctx', orders)
       /\ orders = [OrderTargetPercent 7%nat (PyInt 0)].
Proof.
  split; [exact insertion_sort_sorts|].
  destruct (month_end_cycle insertion_sort_values initialize two_rows
              [1%nat; 7%nat] (fun _ => false) [] insertion_sort_sorts)
    as (l & sh & ctx' & orders & Hl & Hsh & _ & _ & Ht & _).
  exists l, sh, ctx', orders.
  split; [exact Hl|]. split; [exact Hsh|]. split; [exact Ht|].
  vm_compute in Ht. by injection Ht as _ <-.
Defined.

Lemma half_a_tenth :
  fdiv (of_Z 1) (of_Z 20) = decimal 5 2
  /\ fdiv (of_Z (-1)) (of_Z 20) = decimal (-5) 2.
Proof. split; vm_compute; reflexivity. Qed.

(** X19.  With the selections of a month end, whatever order pandas'
    sort gives to rows of equal score, [trade_long] and [trade_short]
    never raise and place at most ten orders each:
    [order_target_percent(s, 0.05)] for every security of
    [context.long_stocks] that can be traded, and
    [order_target_percent(s, -0.05)] for every security of
    [context.short_stocks] that can be traded.  Every security ordered
    is in the pipeline output of that day. *)
Theorem long_and_short_orders
    (sort_values : frame_sort row)
    (ctx : context) (out : list row) (can_trade : security -> bool) :
  sorts_values sort_values ->
  exists l sh longs shorts,
    long_stocks (before_trading_start sort_values (set_month_end ctx) out)
    = Some l
    /\ short_stocks (before_trading_start sort_values (set_month_end ctx) out)
       = Some sh
    /\ first_ten false out l
    /\ first_ten true out sh
    /\ trade_long (before_trading_start sort_values (set_month_end ctx) out)
         can_trade
       = Some longs
    /\ trade_short (before_trading_start sort_values (set_month_end ctx) out)
         can_trade
       = Some shorts
    /\ (length longs <= 10)%nat /\ (length shorts <= 10)%nat
    /\ (forall o,
          o ∈ longs
          <-> exists s,
                o = OrderTargetPercent s (PyFloat (decimal 5 2))
                /\ s ∈ sec <$> l /\ can_trade s = true)
    /\ (forall o,
          o ∈ shorts
          <-> exists s,
                o = OrderTargetPercent s (PyFloat (decimal (-5) 2))
                /\ s ∈ sec <$> sh /\ can_trade s = true)
    /\ forall o,
         o ∈ longs ++ shorts -> order_security o ∈ sec <$> out.
Proof.
  intros Hsort. destruct half_a_tenth as [Hl Hs].
  pose proof (head_is_first_ten sort_values false out Hsort) as Hfl.
  pose proof (head_is_first_ten sort_values true out Hsort) as Hfs.
  exists (select_long sort_values out), (select_short sort_values out).
  eexists _, _.
  split; [reflexivity|]. split; [reflexivity|].
  split; [exact Hfl|]. split; [exact Hfs|].
  split; [reflexivity|]. split; [reflexivity|].
  rewrite Hl, Hs.
  assert (Hlen : forall (ascending : bool) (l : list row),
             first_ten ascending out l ->
             (length (List.filter can_trade (sec <$> l)) <= 10)%nat).
  { intros ascending l (_ & Hlen & _).
    etrans; [apply List.filter_length_le|]. rewrite length_fmap. lia. }
  split; [rewrite length_fmap; by eapply Hlen|].
  split; [rewrite length_fmap; by eapply Hlen|].
  assert (Hlong : forall o,
             o ∈ (fun s => OrderTargetPercent s (PyFloat (decimal 5 2)))
                   <$> List.filter can_trade
                         (sec <$> select_long sort_values out)
             <-> exists s,
                   o = OrderTargetPercent s (PyFloat (decimal 5 2))
                   /\ s ∈ sec <$> select_long sort_values out
                   /\ can_trade s = true).
  { intros o. rewrite list_elem_of_fmap.
    split; intros (s & -> & Hin); exists s; (split; [done|]);
      by apply elem_of_filter_list. }
  assert (Hshort : forall o,
             o ∈ (fun s => OrderTargetPercent s (PyFloat (decimal (-5) 2)))
                   <$> List.filter can_trade
                         (sec <$> select_short sort_values out)
             <-> exists s,
                   o = OrderTargetPercent s (PyFloat (decimal (-5) 2))
                   /\ s ∈ sec <$> select_short sort_values out
                   /\ can_trade s = true).
  { intros o. rewrite list_elem_of_fmap.
    split; intros (s & -> & Hin); exists s; (split; [done|]);
      by apply elem_of_filter_list. }
  split; [exact Hlong|]. split; [exact Hshort|].
  destruct Hfl as (_ & _ & Hinl & _). destruct Hfs as (_ & _ & Hins & _).
  intros o Ho. apply elem_of_app in Ho as [Ho|Ho].
  - apply Hlong in Ho as (s & -> & Hin & _). cbn [order_security].
    apply list_elem_of_fmap in Hin as (r & -> & Hr).
    by apply list_elem_of_fmap_2, Hinl.
  - apply Hshort in Ho as (s & -> & Hin & _). cbn [order_security].
    apply list_elem_of_fmap in Hin as (r & -> & Hr).
    by apply list_elem_of_fmap_2, Hins.
Qed.

Lemma long_and_short_orders_witness :
  sorts_values (@insertion_sort_values row)
  /\ exists longs shorts,
       trade_long (before_trading_start insertion_sort_values
                     (set_month_end initialize) two_rows)
         (fun s => Nat.eqb s 1)
       = Some longs
       /\ trade_short (before_trading_start insertion_sort_values
                         (set_month_end initialize) two_rows)
            (fun s => Nat.eqb s 1)
          = Some shorts
       /\ longs = [OrderTargetPercent 1%nat (PyFloat (decimal 5 2))]
       /\ shorts = [OrderTargetPercent 1%nat (PyFloat (decimal (-5) 2))].
Proof.
  split; [exact insertion_sort_sorts|].
  destruct (long_and_short_orders insertion_sort_values initialize two_rows
              (fun s => Nat.eqb s 1) insertion_sort_sorts)
    as (l & sh & longs & shorts & _ & _ & _ & _ & Hlo & Hsh & _).
  exists longs, shorts. split; [exact Hlo|]. split; [exact Hsh|].
  vm_compute in Hlo, Hsh. injection Hlo as <-. injection Hsh as <-.
  split; vm_compute; reflexivity.
Defined.

End LongShortFurther.

(** ** [position_count] *)

Section PositionCount.
Import Recording.

(** One more position adds 1 exactly when its amount is positive. *)
Lemma position_count_insert (positions : gmap security Z) (s : security)
    (amount : Z) :
  positions !! s = None ->
  position_count (<[s := amount]> positions)
  = if 0 <? amount then S (position_count positions)
    else position_count positions.
Proof.
  intros Hs. unfold position_count.
  rewrite map_fold_insert_L; [done| |done].
  intros j1 j2 z1 z2 y _ _ _.
  by destruct (0 <? z1), (0 <? z2).
Qed.

Lemma position_count_size (positions : gmap security Z) :
  position_count positions
  = size (filter (fun p : security * Z => 0 < p.2) positions).
Proof.
  induction positions as [|s amount positions Hs _ IH] using map_first_key_ind.
  - by rewrite map_filter_empty, map_size_empty.
  - rewrite position_count_insert by done.
    destruct (Z.ltb_spec 0 amount) as [Hpos|Hneg].
    + rewrite map_filter_insert_True by done.
      rewrite map_size_insert_None
        by (apply map_lookup_filter_None; by left).
      by rewrite IH.
    + rewrite map_filter_insert_False by (cbn; lia).
      rewrite delete_id by done. exact IH.
Qed.

(** X20.  [position_count] returns the number of entries of
    [context.portfolio.positions] whose [amount] is positive: a short
    position (negative amount) or an empty one is not counted.  So the
    result is at most the number of positions, it is 0 for a portfolio
    without a long position and the number of positions for a portfolio
    of long positions only, and one more position adds 1 exactly when
    its amount is positive. *)
Theorem position_count_counts_long_positions (positions : gmap security Z) :
  position_count positions
  = size (filter (fun p : security * Z => 0 < p.2) positions)
  /\ (position_count positions <= size positions)%nat
  /\ (map_Forall (fun _ amount => amount <= 0) positions ->
      position_count positions = 0%nat)
  /\ (map_Forall (fun _ amount => 0 < amount) positions ->
      position_count positions = size positions)
  /\ (forall s amount,
        positions !! s = None ->
        position_count (<[s := amount]> positions)
        = if 0 <? amount then S (position_count positions)
          else position_count positions).
Proof.
  split; [apply position_count_size|].
  split; [rewrite position_count_size;
          apply map_subseteq_size, map_filter_subseteq|].
  split; [|split].
  - intros Hall. rewrite position_count_size.
    apply map_size_empty_iff, map_empty_filter.
    intros s amount Hs Hpos. specialize (Hall s amount Hs). cbn in *. lia.
  - intros Hall. rewrite position_count_size. f_equal.
    apply map_filter_id. intros s amount Hs. exact (Hall s amount Hs).
  - intros s amount Hs. by apply position_count_insert.
Qed.

End PositionCount.
